(** * things-mcp: from a tool call to a Things URL

    A shallow embedding of [src/things-client.js] (the URL builder, the
    dispatcher and the operations on to-dos and projects), of the tool
    handlers of [src/tools/] that the properties are about, and of
    [src/utils/validation.js], together with the parts of the JavaScript
    platform they call: strings as UTF-16 code units, [encodeURIComponent],
    [String.prototype.trim], and the [URL] class of the URL Standard.

    The definitions come first, in the order of the source files; then the
    vocabulary of the properties; then the lemmas and, one per property of
    the specification (C1 to C10), the theorems. *)

From Stdlib Require Import ZArith List String Ascii Bool Lia.
From Stdlib Require Import DecimalString.
Import ListNotations.

Local Open Scope Z_scope.
Set Warnings "-register-all".

(* ================================================================== *)
(** * JavaScript strings and values *)
(* ================================================================== *)

(** A JavaScript string is a sequence of UTF-16 code units. *)
Definition jsstring := list Z.

(** The code units of an ASCII literal. *)
Definition lit (s : string) : jsstring :=
  map (fun a => Z.of_nat (nat_of_ascii a)) (list_ascii_of_string s).

Fixpoint str_eqb (a b : jsstring) : bool :=
  match a, b with
  | [], [] => true
  | x :: a', y :: b' => (x =? y) && str_eqb a' b'
  | _, _ => false
  end.

(** The double quote character. *)
Definition quote : jsstring := [34].

(** [Array.prototype.join] on strings. *)
Fixpoint join (sep : jsstring) (parts : list jsstring) : jsstring :=
  match parts with
  | [] => []
  | [p] => p
  | p :: rest => p ++ sep ++ join sep rest
  end.

(** Decimal numeral of an integer, as [String(n)] prints it. *)
Definition decimal (n : Z) : jsstring :=
  lit (NilZero.string_of_int (Z.to_int n)).

(** The values that travel through the handlers: the JSON arguments of a tool
    call and the objects the client methods build from them.  A number is an
    integer (the handlers pass none themselves; [String] of a fraction or of a
    magnitude from 1e21 on is not reproduced).  An object is the list of its
    own properties in [Object.entries] order. *)
Inductive value : Type :=
| Undefined
| Null
| Bool (b : bool)
| Num (n : Z)
| Str (s : jsstring)
| Arr (items : list value)
| Obj (props : list (jsstring * value)).

(** ToBoolean. *)
Definition truthy (v : value) : bool :=
  match v with
  | Undefined | Null => false
  | Bool b => b
  | Num n => negb (n =? 0)
  | Str s => match s with [] => false | _ => true end
  | Arr _ | Obj _ => true
  end.

(** [v === undefined || v === null]. *)
Definition nullish (v : value) : bool :=
  match v with Undefined | Null => true | _ => false end.

(** [v !== undefined]. *)
Definition defined (v : value) : bool :=
  match v with Undefined => false | _ => true end.

(** [typeof v === 'string'] and [typeof v === 'object']. *)
Definition is_string (v : value) : bool :=
  match v with Str _ => true | _ => false end.

Definition is_object (v : value) : bool :=
  match v with Null | Arr _ | Obj _ => true | _ => false end.

(** [String(v)]; an array prints its elements joined by commas, with
    [undefined] and [null] elements printed empty. *)
Fixpoint toString (v : value) : jsstring :=
  match v with
  | Undefined => lit "undefined"
  | Null => lit "null"
  | Bool true => lit "true"
  | Bool false => lit "false"
  | Num n => decimal n
  | Str s => s
  | Arr items =>
      join (lit ",")
        (map (fun e => match e with
                       | Undefined | Null => []
                       | _ => toString e
                       end) items)
  | Obj _ => lit "[object Object]"
  end.

(** [Array.prototype.join(sep)]. *)
Definition array_join (sep : jsstring) (items : list value) : jsstring :=
  join sep
    (map (fun e => match e with
                   | Undefined | Null => []
                   | _ => toString e
                   end) items).

Fixpoint lookup (key : jsstring) (props : list (jsstring * value)) : value :=
  match props with
  | [] => Undefined
  | (k, v) :: rest => if str_eqb k key then v else lookup key rest
  end.

(** What a computation comes to: a value, a thrown [Error] with its message,
    or a call into a part of the platform this development does not
    reproduce (see [URL_parse]). *)
Inductive completion (A : Type) : Type :=
| Return (a : A)
| Throw (message : jsstring)
| NotModelled.
Arguments Return {A} a.
Arguments Throw {A} message.
Arguments NotModelled {A}.

(** [o.name] for a property name that no built-in prototype defines (every
    name read by this program is one): the own property of an object,
    [undefined] on any other value, a TypeError on [undefined] and [null]. *)
Definition get (o : value) (name : string) : completion value :=
  match o with
  | Undefined =>
      Throw (lit "Cannot read properties of undefined (reading '"
             ++ lit name ++ lit "')")
  | Null =>
      Throw (lit "Cannot read properties of null (reading '"
             ++ lit name ++ lit "')")
  | Obj props => Return (lookup (lit name) props)
  | _ => Return Undefined
  end.

(** ** [String.prototype.trim] *)

(** WhiteSpace and LineTerminator code units of ECMAScript. *)
Definition is_js_space (c : Z) : bool :=
  ((9 <=? c) && (c <=? 13)) || (c =? 32) || (c =? 160) || (c =? 5760)
  || ((8192 <=? c) && (c <=? 8202)) || (c =? 8232) || (c =? 8233)
  || (c =? 8239) || (c =? 8287) || (c =? 12288) || (c =? 65279).

Fixpoint trimStart (s : jsstring) : jsstring :=
  match s with
  | c :: rest => if is_js_space c then trimStart rest else s
  | [] => []
  end.

Definition trim (s : jsstring) : jsstring :=
  rev (trimStart (rev (trimStart s))).

(** [v.trim()] on a value already known to be truthy: a string is trimmed,
    and on every other truthy value the method is missing. *)
Definition call_trim (expr : string) (v : value) : completion jsstring :=
  match v with
  | Str s => Return (trim s)
  | Undefined =>
      Throw (lit "Cannot read properties of undefined (reading 'trim')")
  | Null =>
      Throw (lit "Cannot read properties of null (reading 'trim')")
  | _ => Throw (lit expr ++ lit ".trim is not a function")
  end.

(* ================================================================== *)
(** * Percent-encoding *)
(* ================================================================== *)

(** Upper-case hexadecimal digit of the low four bits. *)
Definition hex_digit (n : Z) : Z :=
  let d := n mod 16 in
  if d <? 10 then 48 + d else 55 + d.

(** A byte as [%XX]. *)
Definition percent_byte (b : Z) : jsstring :=
  [37; hex_digit (b / 16); hex_digit b].

(** UTF-8 encoding of a code point. *)
Definition utf8 (cp : Z) : list Z :=
  if cp <? 128 then [cp]
  else if cp <? 2048 then
    [Z.lor 192 (Z.shiftr cp 6); Z.lor 128 (Z.land cp 63)]
  else if cp <? 65536 then
    [Z.lor 224 (Z.shiftr cp 12);
     Z.lor 128 (Z.land (Z.shiftr cp 6) 63);
     Z.lor 128 (Z.land cp 63)]
  else
    [Z.lor 240 (Z.shiftr cp 18);
     Z.lor 128 (Z.land (Z.shiftr cp 12) 63);
     Z.lor 128 (Z.land (Z.shiftr cp 6) 63);
     Z.lor 128 (Z.land cp 63)].

Definition percent_utf8 (cp : Z) : jsstring :=
  flat_map percent_byte (utf8 cp).

Definition is_high_surrogate (c : Z) : bool := (55296 <=? c) && (c <=? 56319).
Definition is_low_surrogate (c : Z) : bool := (56320 <=? c) && (c <=? 57343).

Definition surrogate_pair (hi lo : Z) : Z :=
  65536 + (hi - 55296) * 1024 + (lo - 56320).

Definition is_ascii_alpha (c : Z) : bool :=
  ((65 <=? c) && (c <=? 90)) || ((97 <=? c) && (c <=? 122)).
Definition is_ascii_digit (c : Z) : bool := (48 <=? c) && (c <=? 57).

(** The characters [encodeURIComponent] leaves alone:
    [A-Z a-z 0-9 - _ . ! ~ * ' ( )]. *)
Definition uri_unreserved (c : Z) : bool :=
  is_ascii_alpha c || is_ascii_digit c
  || (c =? 45) || (c =? 95) || (c =? 46) || (c =? 33) || (c =? 126)
  || (c =? 42) || (c =? 39) || (c =? 40) || (c =? 41).

(** [encodeURIComponent]: ECMAScript's Encode with the set above.  A lone
    surrogate makes it throw a URIError. *)
Fixpoint encodeURIComponent (s : jsstring) : completion jsstring :=
  let malformed := Throw (lit "URI malformed") in
  let after (chunk : jsstring) (r : completion jsstring) :=
    match r with
    | Return out => Return (chunk ++ out)
    | other => other
    end in
  match s with
  | [] => Return []
  | c :: rest =>
      if uri_unreserved c then after [c] (encodeURIComponent rest)
      else if is_low_surrogate c then malformed
      else if is_high_surrogate c then
        match rest with
        | d :: rest' =>
            if is_low_surrogate d
            then after (percent_utf8 (surrogate_pair c d))
                       (encodeURIComponent rest')
            else malformed
        | [] => malformed
        end
      else after (percent_utf8 c) (encodeURIComponent rest)
  end.

(** [decodeURIComponent] on the output of the encoder, for reading a
    parameter back: [%XX] triples become bytes and the bytes are read as
    UTF-8. *)
Definition hex_value (c : Z) : option Z :=
  if is_ascii_digit c then Some (c - 48)
  else if (65 <=? c) && (c <=? 70) then Some (c - 55)
  else if (97 <=? c) && (c <=? 102) then Some (c - 87)
  else None.

Fixpoint percent_decode (s : jsstring) : option (list Z) :=
  match s with
  | [] => Some []
  | 37 :: h :: l :: rest =>
      match hex_value h, hex_value l, percent_decode rest with
      | Some a, Some b, Some out => Some (16 * a + b :: out)
      | _, _, _ => None
      end
  | 37 :: _ => None
  | c :: rest => option_map (cons c) (percent_decode rest)
  end.

Fixpoint utf8_decode (fuel : nat) (bytes : list Z) : option jsstring :=
  match fuel with
  | O => match bytes with [] => Some [] | _ => None end
  | S fuel' =>
      match bytes with
      | [] => Some []
      | b :: rest =>
          if b <? 128 then option_map (cons b) (utf8_decode fuel' rest)
          else if (194 <=? b) && (b <? 224) then
            match rest with
            | b1 :: rest' =>
                option_map (cons ((b - 192) * 64 + (b1 - 128)))
                           (utf8_decode fuel' rest')
            | _ => None
            end
          else if (224 <=? b) && (b <? 240) then
            match rest with
            | b1 :: b2 :: rest' =>
                option_map
                  (cons ((b - 224) * 4096 + (b1 - 128) * 64 + (b2 - 128)))
                  (utf8_decode fuel' rest')
            | _ => None
            end
          else if (240 <=? b) && (b <? 245) then
            match rest with
            | b1 :: b2 :: b3 :: rest' =>
                let cp := (b - 240) * 262144 + (b1 - 128) * 4096
                          + (b2 - 128) * 64 + (b3 - 128) in
                option_map
                  (fun out => 55296 + (cp - 65536) / 1024
                              :: 56320 + (cp - 65536) mod 1024 :: out)
                  (utf8_decode fuel' rest')
            | _ => None
            end
          else None
      end
  end.

Definition decodeURIComponent (s : jsstring) : option jsstring :=
  match percent_decode s with
  | Some bytes => utf8_decode (List.length bytes) bytes
  | None => None
  end.

(* ================================================================== *)
(** * The WHATWG [URL] class *)
(* ================================================================== *)

(** The URL record of the URL Standard.  The parser below follows the
    standard's state machine for URLs whose scheme is not special and whose
    path is a list of segments, which covers [things:///] and everything
    resolved against it.  An input that names a special scheme ([http],
    [https], [ws], [wss], [ftp], [file]), that has an opaque path, or whose
    host is an IPv6 literal, is answered with [NotModelled]: domain and
    address parsing are left to the platform. *)
Record URLRecord : Type := mkURL {
  url_scheme : jsstring;
  url_username : jsstring;
  url_password : jsstring;
  url_host : option jsstring;
  url_port : option Z;
  url_path : list jsstring;
  url_query : option jsstring;
  url_fragment : option jsstring
}.

Definition with_credentials (u : URLRecord) (user pass : jsstring) :=
  mkURL (url_scheme u) user pass (url_host u) (url_port u) (url_path u)
        (url_query u) (url_fragment u).
Definition with_host (u : URLRecord) (h : option jsstring) :=
  mkURL (url_scheme u) (url_username u) (url_password u) h (url_port u)
        (url_path u) (url_query u) (url_fragment u).
Definition with_port (u : URLRecord) (p : option Z) :=
  mkURL (url_scheme u) (url_username u) (url_password u) (url_host u) p
        (url_path u) (url_query u) (url_fragment u).
Definition with_path (u : URLRecord) (p : list jsstring) :=
  mkURL (url_scheme u) (url_username u) (url_password u) (url_host u)
        (url_port u) p (url_query u) (url_fragment u).
Definition with_query (u : URLRecord) (q : option jsstring) :=
  mkURL (url_scheme u) (url_username u) (url_password u) (url_host u)
        (url_port u) (url_path u) q (url_fragment u).
Definition with_fragment (u : URLRecord) (f : option jsstring) :=
  mkURL (url_scheme u) (url_username u) (url_password u) (url_host u)
        (url_port u) (url_path u) (url_query u) f.

(** Conversion of a JavaScript string to scalar values (USVString): a
    surrogate pair is one code point, a lone surrogate becomes U+FFFD. *)
Fixpoint to_scalars (s : jsstring) : list Z :=
  match s with
  | [] => []
  | c :: rest =>
      if is_high_surrogate c then
        match rest with
        | d :: rest' =>
            if is_low_surrogate d then surrogate_pair c d :: to_scalars rest'
            else 65533 :: to_scalars rest
        | [] => [65533]
        end
      else if is_low_surrogate c then 65533 :: to_scalars rest
      else c :: to_scalars rest
  end.

(** ** Percent-encode sets *)

Definition member (c : Z) (l : list Z) : bool := existsb (Z.eqb c) l.

Definition c0_control_set (c : Z) : bool := (c <=? 31) || (126 <? c).
Definition fragment_set (c : Z) : bool :=
  c0_control_set c || member c [32; 34; 60; 62; 96].
Definition query_set (c : Z) : bool :=
  c0_control_set c || member c [32; 34; 35; 60; 62].
Definition special_query_set (c : Z) : bool := query_set c || (c =? 39).
Definition path_set (c : Z) : bool :=
  query_set c || member c [63; 94; 96; 123; 125].
Definition userinfo_set (c : Z) : bool :=
  path_set c || member c [47; 58; 59; 61; 64; 91; 92; 93; 124].

(** UTF-8 percent-encode a code point using a percent-encode set. *)
Definition percent_encode (set : Z -> bool) (cp : Z) : jsstring :=
  if set cp then percent_utf8 cp else [cp].

Definition forbidden_host_code_point (c : Z) : bool :=
  member c [0; 9; 10; 13; 32; 35; 47; 58; 60; 62; 63; 64; 91; 92; 93; 94; 124].

Definition special_schemes : list jsstring :=
  [lit "ftp"; lit "file"; lit "http"; lit "https"; lit "ws"; lit "wss"].

Definition is_special_scheme (s : jsstring) : bool :=
  existsb (str_eqb s) special_schemes.

Definition ascii_lower (c : Z) : Z :=
  if (65 <=? c) && (c <=? 90) then c + 32 else c.

(** ** Parser states *)

Inductive parse_result : Type :=
| Parsed (u : URLRecord)
| Failure
| Unsupported.

(** Fragment state: the rest of the input is the fragment. *)
Definition fragment_state (u : URLRecord) (input : list Z) : URLRecord :=
  with_fragment u (Some (flat_map (percent_encode fragment_set) input)).

(** Query state: up to a [#] the input is the query. *)
Fixpoint query_state (u : URLRecord) (buffer : jsstring) (input : list Z)
  : URLRecord :=
  match input with
  | [] => with_query u (Some buffer)
  | c :: rest =>
      if c =? 35 then fragment_state (with_query u (Some buffer)) rest
      else query_state u (buffer ++ percent_encode query_set c) rest
  end.

Definition is_single_dot (buffer : jsstring) : bool :=
  let b := map ascii_lower buffer in
  str_eqb b (lit ".") || str_eqb b (lit "%2e").

Definition is_double_dot (buffer : jsstring) : bool :=
  let b := map ascii_lower buffer in
  str_eqb b (lit "..") || str_eqb b (lit ".%2e")
  || str_eqb b (lit "%2e.") || str_eqb b (lit "%2e%2e").

(** Shorten a URL's path (the scheme is not [file]). *)
Definition shorten (path : list jsstring) : list jsstring := removelast path.

(** What the path state does with its buffer when a segment ends;
    [at_slash] tells whether the segment was ended by a [/]. *)
Definition end_segment (u : URLRecord) (buffer : jsstring) (at_slash : bool)
  : URLRecord :=
  if is_double_dot buffer then
    let p := shorten (url_path u) in
    with_path u (if at_slash then p else p ++ [[]])
  else if is_single_dot buffer then
    (if at_slash then u else with_path u (url_path u ++ [[]]))
  else with_path u (url_path u ++ [buffer]).

Fixpoint path_state (u : URLRecord) (buffer : jsstring) (input : list Z)
  : URLRecord :=
  match input with
  | [] => end_segment u buffer false
  | c :: rest =>
      if c =? 47 then path_state (end_segment u buffer true) [] rest
      else if c =? 63 then
        query_state (end_segment u buffer false) [] rest
      else if c =? 35 then
        fragment_state (end_segment u buffer false) rest
      else path_state u (buffer ++ percent_encode path_set c) rest
  end.

Definition path_start_state (u : URLRecord) (input : list Z) : URLRecord :=
  match input with
  | [] => u
  | c :: rest =>
      if c =? 63 then query_state u [] rest
      else if c =? 35 then fragment_state u rest
      else if c =? 47 then path_state u [] rest
      else path_state u [] input
  end.

(** The code points that end an authority, a host or a port. *)
Definition ends_authority (c : Z) : bool := member c [47; 63; 35].

Definition digits_value (buffer : jsstring) : Z :=
  fold_left (fun acc d => 10 * acc + (d - 48)) buffer 0.

Definition end_port (u : URLRecord) (buffer : jsstring) (input : list Z)
  : parse_result :=
  match buffer with
  | [] => Parsed (path_start_state u input)
  | _ =>
      let port := digits_value buffer in
      if 65535 <? port then Failure
      else Parsed (path_start_state (with_port u (Some port)) input)
  end.

Fixpoint port_state (u : URLRecord) (buffer : jsstring) (input : list Z)
  : parse_result :=
  match input with
  | [] => end_port u buffer []
  | c :: rest =>
      if is_ascii_digit c then port_state u (buffer ++ [c]) rest
      else if ends_authority c then end_port u buffer input
      else Failure
  end.

(** Host parsing for a URL that is not special: the opaque-host parser. *)
Definition host_parse (buffer : list Z) : completion jsstring :=
  match buffer with
  | 91 :: _ =>
      if last buffer 0 =? 93 then NotModelled else Throw []
  | _ =>
      if existsb forbidden_host_code_point buffer then Throw []
      else Return (flat_map (percent_encode c0_control_set) buffer)
  end.

Definition end_host (u : URLRecord) (buffer : list Z)
  (k : URLRecord -> parse_result) : parse_result :=
  match host_parse buffer with
  | Return h => k (with_host u (Some h))
  | Throw _ => Failure
  | NotModelled => Unsupported
  end.

Fixpoint host_state (u : URLRecord) (buffer : list Z) (inside : bool)
  (input : list Z) : parse_result :=
  match input with
  | [] => end_host u buffer (fun u' => Parsed (path_start_state u' []))
  | c :: rest =>
      if (c =? 58) && negb inside then
        match buffer with
        | [] => Failure
        | _ => end_host u buffer (fun u' => port_state u' [] rest)
        end
      else if ends_authority c then
        end_host u buffer (fun u' => Parsed (path_start_state u' input))
      else
        host_state u (buffer ++ [c])
          (if c =? 91 then true else if c =? 93 then false else inside)
          rest
  end.

(** The authority state's handling of the buffer gathered before an [@]. *)
Fixpoint credentials (u : URLRecord) (password_seen : bool)
  (buffer : list Z) : URLRecord * bool :=
  match buffer with
  | [] => (u, password_seen)
  | c :: rest =>
      if (c =? 58) && negb password_seen then credentials u true rest
      else
        let e := percent_encode userinfo_set c in
        if password_seen
        then credentials
               (with_credentials u (url_username u) (url_password u ++ e))
               true rest
        else credentials
               (with_credentials u (url_username u ++ e) (url_password u))
               false rest
  end.

Fixpoint authority_state (u : URLRecord) (buffer : list Z)
  (at_seen password_seen : bool) (input : list Z) : parse_result :=
  match input with
  | [] =>
      if at_seen && match buffer with [] => true | _ => false end
      then Failure
      else host_state u [] false buffer
  | c :: rest =>
      if c =? 64 then
        let buffer' := if at_seen then lit "%40" ++ buffer else buffer in
        let (u', seen) := credentials u password_seen buffer' in
        authority_state u' [] true seen rest
      else if ends_authority c then
        if at_seen && match buffer with [] => true | _ => false end
        then Failure
        else host_state u [] false (buffer ++ input)
      else authority_state u (buffer ++ [c]) at_seen password_seen rest
  end.

(** Scheme start state and scheme state: the scheme of an input that has
    one, in lower case, and what follows its colon. *)
Fixpoint scheme_state (buffer : jsstring) (input : list Z)
  : option (jsstring * list Z) :=
  match input with
  | [] => None
  | c :: rest =>
      if is_ascii_alpha c || is_ascii_digit c
         || (c =? 43) || (c =? 45) || (c =? 46)
      then scheme_state (buffer ++ [ascii_lower c]) rest
      else if c =? 58 then Some (buffer, rest)
      else None
  end.

Definition scheme_start_state (input : list Z) : option (jsstring * list Z) :=
  match input with
  | c :: rest =>
      if is_ascii_alpha c then scheme_state [ascii_lower c] rest else None
  | [] => None
  end.

Definition blank_url (scheme : jsstring) : URLRecord :=
  mkURL scheme [] [] None None [] None None.

(** Relative state and relative slash state, for a base that is not special
    and has a list path. *)
Definition relative_state (base : URLRecord) (input : list Z) : parse_result :=
  let inherit := with_fragment base None in
  match input with
  | [] => Parsed inherit
  | c :: rest =>
      if c =? 47 then
        match rest with
        | 47 :: rest' =>
            authority_state (blank_url (url_scheme base)) [] false false rest'
        | _ => Parsed (path_state (with_query (with_path inherit []) None)
                                  [] rest)
        end
      else if c =? 63 then Parsed (query_state inherit [] rest)
      else if c =? 35 then Parsed (fragment_state inherit rest)
      else Parsed (path_state
                     (with_query (with_path inherit (shorten (url_path base)))
                                 None)
                     [] input)
  end.

Definition is_c0_or_space (c : Z) : bool := c <=? 32.
Definition is_tab_or_newline (c : Z) : bool := member c [9; 10; 13].

Fixpoint strip_leading (s : list Z) : list Z :=
  match s with
  | c :: rest => if is_c0_or_space c then strip_leading rest else s
  | [] => []
  end.

Definition prepare_input (s : jsstring) : list Z :=
  filter (fun c => negb (is_tab_or_newline c))
    (rev (strip_leading (rev (strip_leading (to_scalars s))))).

(** The basic URL parser, without a state override. *)
Definition basic_URL_parse (input : jsstring) (base : option URLRecord)
  : parse_result :=
  let cps := prepare_input input in
  match scheme_start_state cps with
  | Some (scheme, rest) =>
      if is_special_scheme scheme then Unsupported
      else
        match rest with
        | 47 :: 47 :: rest' =>
            authority_state (blank_url scheme) [] false false rest'
        | 47 :: rest' => Parsed (path_state (blank_url scheme) [] rest')
        | _ => Unsupported
        end
  | None =>
      match base with
      | None => Failure
      | Some b => relative_state b cps
      end
  end.

(** [new URL(url, base)]. *)
Definition URL_new (url base : jsstring) : completion URLRecord :=
  match basic_URL_parse base None with
  | Failure => Throw (lit "Invalid URL")
  | Unsupported => NotModelled
  | Parsed b =>
      match basic_URL_parse url (Some b) with
      | Failure => Throw (lit "Invalid URL")
      | Unsupported => NotModelled
      | Parsed u => Return u
      end
  end.

(** ** The URL serializer and the [search] setter *)

Definition serialize_authority (u : URLRecord) : jsstring :=
  match url_host u with
  | Some h =>
      lit "//"
      ++ match url_username u, url_password u with
         | [], [] => []
         | user, [] => user ++ lit "@"
         | user, pass => user ++ lit ":" ++ pass ++ lit "@"
         end
      ++ h
      ++ match url_port u with
         | Some p => lit ":" ++ decimal p
         | None => []
         end
  | None =>
      match url_path u with
      | [] :: _ :: _ => lit "/."
      | _ => []
      end
  end.

Definition serialize_path (path : list jsstring) : jsstring :=
  flat_map (fun segment => lit "/" ++ segment) path.

(** The serialization up to the query, the query and the fragment. *)
Definition href_head (u : URLRecord) : jsstring :=
  url_scheme u ++ lit ":" ++ serialize_authority u
  ++ serialize_path (url_path u).

Definition href_query (u : URLRecord) : jsstring :=
  match url_query u with
  | Some q => lit "?" ++ q
  | None => []
  end.

Definition href_fragment (u : URLRecord) : jsstring :=
  match url_fragment u with
  | Some f => lit "#" ++ f
  | None => []
  end.

(** [url.toString()], the href. *)
Definition URL_toString (u : URLRecord) : jsstring :=
  href_head u ++ href_query u ++ href_fragment u.

(** [url.search = value]: an empty value removes the query; any other value,
    less one leading [?], is run through the query state with the URL's own
    encode set, the whole of it (a [#] included) becoming the query. *)
Definition URL_set_search (u : URLRecord) (value : jsstring) : URLRecord :=
  match value with
  | [] => with_query u None
  | _ =>
      let input := match value with 63 :: rest => rest | _ => value end in
      let set := if is_special_scheme (url_scheme u)
                 then special_query_set else query_set in
      with_query u
        (Some (flat_map (percent_encode set)
                 (filter (fun c => negb (is_tab_or_newline c))
                         (to_scalars input))))
  end.

(* ================================================================== *)
(** * Effects: the process, the world, and the monad of the async code *)
(* ================================================================== *)

(** What the code reads from its process: [os.platform()], the environment
    variable with the credential, and the [open] package, which is given the
    URLs opened so far and the URL to open, and either resolves ([None]) or
    rejects with a message. *)
Record Process : Type := mkProcess {
  platform : jsstring;
  THINGS_AUTHENTICATION_TOKEN : option jsstring;
  open : list jsstring -> jsstring -> option jsstring
}.

(** What the code leaves behind: the URLs handed to [open], oldest first,
    and the lines written with [console.error] and [console.warn]. *)
Record World : Type := mkWorld {
  opened : list jsstring;
  console : list jsstring
}.

Definition M (A : Type) : Type := World -> completion A * World.

Definition ret {A} (a : A) : M A := fun w => (Return a, w).
Definition throw {A} (message : jsstring) : M A := fun w => (Throw message, w).
Definition bind {A B} (m : M A) (k : A -> M B) : M B :=
  fun w =>
    match m w with
    | (Return a, w') => k a w'
    | (Throw e, w') => (Throw e, w')
    | (NotModelled, w') => (NotModelled, w')
    end.

(** [try { m } catch (error) { handler(error.message) }]. *)
Definition try_catch {A} (m : M A) (handler : jsstring -> M A) : M A :=
  fun w =>
    match m w with
    | (Throw e, w') => handler e w'
    | other => other
    end.

(** A computation without effects, run inside the monad. *)
Definition lift {A} (c : completion A) : M A := fun w => (c, w).

Definition console_log (line : jsstring) : M unit :=
  fun w => (Return tt, mkWorld (opened w) (console w ++ [line])).

Declare Scope js_scope.
Delimit Scope js_scope with js.
Notation "x <- m ;; k" := (bind m (fun x => k))
  (at level 61, m at next level, right associativity) : js_scope.
Notation "m ;;; k" := (bind m (fun _ => k))
  (at level 61, right associativity) : js_scope.

(** Sequencing of computations without effects. *)
Definition and_then {A B} (c : completion A) (k : A -> completion B)
  : completion B :=
  match c with
  | Return a => k a
  | Throw e => Throw e
  | NotModelled => NotModelled
  end.

Notation "'let!' x := c 'in' k" := (and_then c (fun x => k))
  (at level 61, x name, c at next level, right associativity).

(* ================================================================== *)
(** * [src/things-client.js] *)
(* ================================================================== *)

Module ThingsClient.

Record t : Type := mk {
  authToken : option jsstring;
  baseUrl : jsstring
}.




(** The client the constructor builds for a given credential. *)
Definition with_token (token : option jsstring) : t :=
  mk token (lit "things:///").

(** The [forEach] over [Object.entries(params)] of [buildUrl]: one
    [key=value] part for every entry that is neither [undefined] nor
    [null]. *)
Fixpoint entry_parts (params : list (jsstring * value))
  : completion (list jsstring) :=
  match params with
  | [] => Return []
  | (key, v) :: rest =>
      if nullish v then entry_parts rest
      else
        let! k := encodeURIComponent key in
        let! e := encodeURIComponent (toString v) in
        let! parts := entry_parts rest in
        Return ((k ++ lit "=" ++ e) :: parts)
  end.

(** The part pushed first, for the credential. *)
Definition token_parts (this : t) (command : jsstring)
  : completion (list jsstring) :=
  match authToken this with
  | Some (c :: token) =>
      if negb (str_eqb command (lit "show")) then
        let! e := encodeURIComponent (c :: token) in
        Return [lit "auth-token=" ++ e]
      else Return []
  | _ => Return []
  end.

(** [queryParts] at the end of [buildUrl]. *)
Definition queryParts (this : t) (command : jsstring)
  (params : list (jsstring * value)) : completion (list jsstring) :=
  let! first := token_parts this command in
  let! others := entry_parts params in
  Return (first ++ others).

(** [buildUrl(command, params)]. *)
Definition buildUrl (this : t) (command : jsstring)
  (params : list (jsstring * value)) : completion jsstring :=
  let body :=
    let! url := URL_new command (baseUrl this) in
    let! parts := queryParts this command params in
    match parts with
    | [] => Return (URL_toString url)
    | _ =>
        Return (URL_toString
                  (URL_set_search url (lit "?" ++ join (lit "&") parts)))
    end in
  match body with
  | Throw message => Throw (lit "Failed to build Things URL: " ++ message)
  | other => other
  end.

(** [executeCommand(command, params)]. *)
Definition executeCommand (P : Process) (this : t) (command : jsstring)
  (params : list (jsstring * value)) : M bool :=
  try_catch
    (thingsUrl <- lift (buildUrl this command params) ;;
     console_log (lit "Executing Things command: " ++ thingsUrl) ;;;
     (fun w =>
        let w' := mkWorld (opened w ++ [thingsUrl]) (console w) in
        match open P (opened w) thingsUrl with
        | None => (Return true, w')
        | Some message => (Throw message, w')
        end))%js
    (fun message =>
       console_log (lit "Failed to execute Things command: " ++ message) ;;;
       throw (lit "Things command execution failed: " ++ message))%js.

(** [o.name] where [o] is known not to be [undefined] or [null]. *)
Definition field (o : value) (name : string) : value :=
  match o with
  | Obj props => lookup (lit name) props
  | _ => Undefined
  end.

(** [if (data.name) params.name = data.name], for each name in turn. *)
Definition copy_truthy (data : value) (names : list string)
  : list (jsstring * value) :=
  flat_map (fun name =>
              if truthy (field data name)
              then [(lit name, field data name)] else [])
           names.

(** [if (data.name !== undefined) params.name = data.name]. *)
Definition copy_defined (data : value) (names : list string)
  : list (jsstring * value) :=
  flat_map (fun name =>
              if defined (field data name)
              then [(lit name, field data name)] else [])
           names.

(** [showList(id)]. *)
Definition showList (P : Process) (this : t) (id : value) : M bool :=
  executeCommand P this (lit "show") [(lit "id", id)].

Definition showTodayList (P : Process) (this : t) : M bool :=
  showList P this (Str (lit "today")).

(** The parameter object [addTodo] builds. *)
Definition addTodo_params (todoData : value)
  : completion (list (jsstring * value)) :=
  if negb (truthy todoData) || negb (truthy (field todoData "title")) then
    Throw (lit "Todo title is required")
  else
    Return ((lit "title", field todoData "title")
            :: copy_truthy todoData
                 ["notes"; "when"; "deadline"; "tags"; "checklist"; "list"]%string).

Definition addTodo (P : Process) (this : t) (todoData : value) : M bool :=
  (params <- lift (addTodo_params todoData) ;;
   executeCommand P this (lit "add") params)%js.

(** The parameter object [addProject] builds. *)
Definition addProject_params (projectData : value)
  : completion (list (jsstring * value)) :=
  if negb (truthy projectData) || negb (truthy (field projectData "title"))
  then Throw (lit "Project title is required")
  else
    Return ((lit "title", field projectData "title")
            :: copy_truthy projectData
                 ["notes"; "when"; "deadline"; "tags"; "area"]%string
            ++ match field projectData "todos" with
               | Arr todos => [(lit "todos", Str (array_join [10] todos))]
               | _ => []
               end).

Definition addProject (P : Process) (this : t) (projectData : value)
  : M bool :=
  (params <- lift (addProject_params projectData) ;;
   executeCommand P this (lit "add-project") params)%js.

(** The parameter object [updateTodo] builds. *)
Definition updateTodo_params (updateData : value)
  : completion (list (jsstring * value)) :=
  if negb (truthy updateData) || negb (truthy (field updateData "id")) then
    Throw (lit "Todo ID is required for updates")
  else
    Return ((lit "id", field updateData "id")
            :: copy_defined updateData
                 ["title"; "notes"; "when"; "deadline"; "tags"; "checklist";
                  "list"]%string).

Definition updateTodo (P : Process) (this : t) (updateData : value)
  : M bool :=
  (params <- lift (updateTodo_params updateData) ;;
   executeCommand P this (lit "update") params)%js.

(** [isThingsAvailable()]. *)
Definition isThingsAvailable (P : Process) : bool :=
  str_eqb (platform P) (lit "darwin").

(** [search(query)]. *)
Definition search (P : Process) (this : t) (query : value) : M bool :=
  let required :=
    lit "Search query is required and must be a non-empty string" in
  match query with
  | Str s =>
      if negb (truthy query) || str_eqb (trim s) [] then throw required
      else executeCommand P this (lit "search") [(lit "query", Str (trim s))]
  | _ => throw required
  end.

(** The parameter object [updateProject] builds. *)
Definition updateProject_params (updateData : value)
  : completion (list (jsstring * value)) :=
  if negb (truthy updateData) || negb (truthy (field updateData "id")) then
    Throw (lit "Project ID is required for updates")
  else
    Return ((lit "id", field updateData "id")
            :: copy_defined updateData
                 ["title"; "notes"; "when"; "deadline"; "tags"; "area"]%string).

Definition updateProject (P : Process) (this : t) (updateData : value)
  : M bool :=
  (params <- lift (updateProject_params updateData) ;;
   executeCommand P this (lit "update") params)%js.

(** The parameter object [completeTodo] builds. *)
Definition completeTodo_params (completeData : value)
  : completion (list (jsstring * value)) :=
  if negb (truthy completeData) || negb (truthy (field completeData "id"))
  then Throw (lit "Todo ID is required for completion")
  else Return [(lit "id", field completeData "id");
               (lit "completed", Bool true)].

Definition completeTodo (P : Process) (this : t) (completeData : value)
  : M bool :=
  (params <- lift (completeTodo_params completeData) ;;
   executeCommand P this (lit "update") params)%js.

End ThingsClient.

(* ================================================================== *)
(** * [src/tools/]: the tool handlers *)
(* ================================================================== *)

Module Tools.
Import ThingsClient.

Definition not_available : jsstring :=
  lit "Things app is not available. Make sure you're running on macOS and Things is installed.".

(** [!process.env.THINGS_AUTHENTICATION_TOKEN]. *)
Definition no_token (P : Process) : bool :=
  match THINGS_AUTHENTICATION_TOKEN P with
  | Some (_ :: _) => false
  | _ => true
  end.

(** The [catch] that ends every handler: log the message with its
    operation in front, and throw it again. *)
Definition rethrow {A} (context : string) (message : jsstring) : M A :=
  (let errorMessage := lit context ++ message in
   console_log errorMessage ;;; throw errorMessage)%js.

(** [if (o.name && o.name.trim()) data.name = o.name.trim()]. *)
Definition copy_trimmed (o : value) (expr : string) (name : string)
  : completion (list (jsstring * value)) :=
  if truthy (field o name) then
    let! s := call_trim (expr ++ "." ++ name) (field o name) in
    match s with
    | [] => Return []
    | _ => Return [(lit name, Str s)]
    end
  else Return [].

(** [!o.title || o.title.trim() === ''], and the trimmed title when the
    test is false. *)
Definition required_title (o : value) (expr : string) (message : jsstring)
  : completion jsstring :=
  let! title := get o "title" in
  if negb (truthy title) then Throw message
  else
    let! s := call_trim (expr ++ ".title") title in
    match s with
    | [] => Throw message
    | _ => Return s
    end.

(** ** [add-tools.js] *)

(** The [todoData] object the [add_todo] handler builds from its
    arguments. *)
Definition add_todo_todoData (args : value) : completion value :=
  let! title :=
    required_title args "args" (lit "Todo title is required and cannot be empty") in
  let! notes := copy_trimmed args "args" "notes" in
  let! tags := copy_trimmed args "args" "tags" in
  let! checklist := copy_trimmed args "args" "checklist" in
  let! list := copy_trimmed args "args" "list" in
  Return (Obj ((lit "title", Str title) :: notes
               ++ copy_truthy args ["when"; "deadline"]%string
               ++ tags ++ checklist ++ list)).

(** The [add_todo] handler.  The warning about a missing credential comes
    between the title check and the reading of the other fields. *)
Definition add_todo (P : Process) (client : t) (args : value) : M jsstring :=
  try_catch
    (if negb (isThingsAvailable P) then throw not_available
     else
       _ <- lift (required_title args "args"
                    (lit "Todo title is required and cannot be empty")) ;;
       (if no_token P
        then console_log (lit "Warning: THINGS_AUTHENTICATION_TOKEN not set. Add operations may fail without authentication.")
        else ret tt) ;;;
       todoData <- lift (add_todo_todoData args) ;;
       success <- addTodo P client todoData ;;
       if success : bool
       then ret (lit "Successfully created to-do: " ++ quote
                 ++ toString (field todoData "title") ++ quote)
       else throw (lit "Failed to create to-do in Things app"))%js
    (rethrow "Failed to add to-do: ").

(** ** [show-tools.js] *)

Inductive show_tool : Type :=
| show_today_list | show_inbox | show_upcoming | show_anytime
| show_someday | show_projects | show_areas | show_logbook.

(** The identifier each navigation handler passes to the client. *)
Definition show_target (tool : show_tool) : jsstring :=
  match tool with
  | show_today_list => lit "today"
  | show_inbox => lit "inbox"
  | show_upcoming => lit "upcoming"
  | show_anytime => lit "anytime"
  | show_someday => lit "someday"
  | show_projects => lit "projects"
  | show_areas => lit "areas"
  | show_logbook => lit "logbook"
  end.

(** The name of the view in the handler's messages. *)
Definition show_view (tool : show_tool) : jsstring :=
  match tool with
  | show_today_list => lit "Today list"
  | show_inbox => lit "Inbox"
  | show_upcoming => lit "Upcoming"
  | show_anytime => lit "Anytime"
  | show_someday => lit "Someday"
  | show_projects => lit "Projects"
  | show_areas => lit "Areas"
  | show_logbook => lit "Logbook"
  end.

(** The eight navigation handlers; they take no argument. *)
Definition show_handler (P : Process) (client : t) (tool : show_tool)
  : M jsstring :=
  try_catch
    (if negb (isThingsAvailable P) then throw not_available
     else
       success <- match tool with
                  | show_today_list => showTodayList P client
                  | _ => showList P client (Str (show_target tool))
                  end ;;
       if success : bool
       then ret (lit "Successfully opened Things app and navigated to "
                 ++ show_view tool)
       else throw (lit "Failed to open " ++ show_view tool
                   ++ lit " in Things app"))%js
    (fun message =>
       rethrow "Failed to show " (show_view tool ++ lit ": " ++ message)).

(** ** [batch-tools.js] *)

Definition batch_update_todos_maxItems : Z := 20.

(** The state of the loop: [results], [successCount], [failureCount]. *)
Record tally : Type := mkTally {
  results : list jsstring;
  successCount : Z;
  failureCount : Z
}.

Definition succeeded (st : tally) (line : jsstring) : tally :=
  mkTally (results st ++ [line]) (successCount st + 1) (failureCount st).
Definition failed (st : tally) (line : jsstring) : tally :=
  mkTally (results st ++ [line]) (successCount st) (failureCount st + 1).

Definition check_mark : jsstring := [9989; 32].
Definition cross_mark : jsstring := [10060; 32].

(** [Todo ${i + 1}: ] for the item at index [i]. *)
Definition todo_label (i : nat) : jsstring :=
  lit "Todo " ++ decimal (Z.of_nat i + 1) ++ lit ": ".

(** The [todoData] object built for one item of the batch. *)
Definition batch_todoData (i : nat) (todo : value) : completion value :=
  let! title :=
    required_title todo "todo" (todo_label i ++ lit "Title is required") in
  let! notes := copy_trimmed todo "todo" "notes" in
  let! tags := copy_trimmed todo "todo" "tags" in
  let! list := copy_trimmed todo "todo" "list" in
  Return (Obj ((lit "title", Str title) :: notes
               ++ copy_truthy todo ["when"; "deadline"]%string
               ++ tags ++ list)).

(** The [try] block of the loop body, up to the counting. *)
Definition batch_add_attempt (P : Process) (client : t) (i : nat)
  (todo : value) (st : tally) : M tally :=
  (todoData <- lift (batch_todoData i todo) ;;
   success <- addTodo P client todoData ;;
   let title := toString (field todoData "title") in
   ret (if success : bool
        then succeeded st (check_mark ++ todo_label i ++ quote ++ title
                           ++ quote ++ lit " - Created successfully")
        else failed st (cross_mark ++ todo_label i ++ quote ++ title
                        ++ quote ++ lit " - Failed to create")))%js.

(** The [catch] block of the loop body; reading [todo.title] again can
    itself throw, which leaves the loop. *)
Definition batch_add_recover (i : nat) (todo : value) (st : tally)
  (message : jsstring) : M tally :=
  (title <- lift (get todo "title") ;;
   ret (failed st (cross_mark ++ todo_label i ++ quote
                   ++ (if truthy title then toString title else lit "Unknown")
                   ++ quote ++ lit " - Error: " ++ message)))%js.

(** The [for] loop, from index [i] on; the pause between two items has no
    counterpart here. *)
Fixpoint batch_add_loop (P : Process) (client : t) (i : nat)
  (todos : list value) (st : tally) : M tally :=
  match todos with
  | [] => ret st
  | todo :: rest =>
      (st' <- try_catch (batch_add_attempt P client i todo st)
                        (batch_add_recover i todo st) ;;
       batch_add_loop P client (S i) rest st')%js
  end.

Definition batch_add_report (st : tally) : jsstring :=
  lit "Batch add todos completed: " ++ decimal (successCount st)
  ++ lit " successful, " ++ decimal (failureCount st) ++ lit " failed"
  ++ [10; 10] ++ lit "Detailed Results:" ++ [10]
  ++ join [10] (results st).

(** The [batch_add_todos] handler. *)
Definition batch_add_todos (P : Process) (client : t) (args : value)
  : M jsstring :=
  try_catch
    (if negb (isThingsAvailable P) then throw not_available
     else
       todos <- lift (get args "todos") ;;
       match todos with
       | Arr (first :: others) =>
           if no_token P then
             throw (lit "THINGS_AUTHENTICATION_TOKEN is required for batch add operations. Please set this environment variable.")
           else
             st <- batch_add_loop P client 0 (first :: others)
                     (mkTally [] 0 0) ;;
             ret (batch_add_report st)
       | _ =>
           throw (lit "Todos array is required and must contain at least one item")
       end)%js
    (rethrow "Failed to batch add todos: ").

(** [!o.name || o.name.trim() === ''], and the trimmed field when the test
    is false. *)
Definition required_field (o : value) (expr name : string)
  (message : jsstring) : completion jsstring :=
  let! v := get o name in
  if negb (truthy v) then Throw message
  else
    let! s := call_trim (expr ++ "." ++ name) v in
    match s with
    | [] => Throw message
    | _ => Return s
    end.

Definition warn_no_token (P : Process) : M unit :=
  if no_token P
  then console_log (lit "Warning: THINGS_AUTHENTICATION_TOKEN not set. Add operations may fail without authentication.")
  else ret tt.

(** [if (!process.env.THINGS_AUTHENTICATION_TOKEN) throw ...], for the kind
    of operation named in the message. *)
Definition require_token (P : Process) (operations : string) : M unit :=
  if no_token P
  then throw (lit "THINGS_AUTHENTICATION_TOKEN is required for "
              ++ lit operations
              ++ lit " operations. Please set this environment variable.")
  else ret tt.

(** ** [add-tools.js]: [add_project] *)

(** [todos.filter(todo => todo && todo.trim())]. *)
Fixpoint filter_nonblank (todos : list value) : completion (list value) :=
  match todos with
  | [] => Return []
  | todo :: rest =>
      let! keep :=
        (if truthy todo then
           let! s := call_trim "todo" todo in
           Return (match s with [] => false | _ => true end)
         else Return false) in
      let! kept := filter_nonblank rest in
      Return (if keep : bool then todo :: kept else kept)
  end.

(** [todos.map(todo => todo.trim())]. *)
Fixpoint map_trim (todos : list value) : completion (list value) :=
  match todos with
  | [] => Return []
  | todo :: rest =>
      let! s := call_trim "todo" todo in
      let! trimmed := map_trim rest in
      Return (Str s :: trimmed)
  end.

(** The [projectData] object the [add_project] handler builds. *)
Definition add_project_projectData (args : value) : completion value :=
  let! title :=
    required_field args "args" "title"
      (lit "Project title is required and cannot be empty") in
  let! notes := copy_trimmed args "args" "notes" in
  let! tags := copy_trimmed args "args" "tags" in
  let! area := copy_trimmed args "args" "area" in
  let! todos :=
    match field args "todos" with
    | Arr todos =>
        let! kept := filter_nonblank todos in
        let! trimmed := map_trim kept in
        Return [(lit "todos", Arr trimmed)]
    | _ => Return []
    end in
  Return (Obj ((lit "title", Str title) :: notes
               ++ copy_truthy args ["when"; "deadline"]%string
               ++ tags ++ area ++ todos)).

(** The message of [add_project] on success. *)
Definition add_project_message (projectData : value) : jsstring :=
  lit "Successfully created project: " ++ quote
  ++ toString (field projectData "title") ++ quote
  ++ match field projectData "todos" with
     | Arr (first :: others) =>
         lit " with "
         ++ decimal (Z.of_nat (List.length (first :: others)))
         ++ lit " initial to-do(s)"
     | _ => []
     end.

(** The [add_project] handler. *)
Definition add_project (P : Process) (client : t) (args : value)
  : M jsstring :=
  try_catch
    (if negb (isThingsAvailable P) then throw not_available
     else
       _ <- lift (required_field args "args" "title"
                    (lit "Project title is required and cannot be empty")) ;;
       warn_no_token P ;;;
       projectData <- lift (add_project_projectData args) ;;
       success <- addProject P client projectData ;;
       if success : bool
       then ret (add_project_message projectData)
       else throw (lit "Failed to create project in Things app"))%js
    (rethrow "Failed to add project: ").

(** ** [search-tools.js] *)

(** The [search] handler. *)
Definition search (P : Process) (client : t) (args : value) : M jsstring :=
  try_catch
    (if negb (isThingsAvailable P) then throw not_available
     else
       query <- lift (get args "query") ;;
       match query with
       | Str s =>
           if negb (truthy query) || str_eqb (trim s) [] then
             throw (lit "Search query is required and must be a non-empty string")
           else
             let searchQuery := trim s in
             success <- ThingsClient.search P client (Str searchQuery) ;;
             if success : bool
             then ret (lit "Successfully performed search for: " ++ quote
                       ++ searchQuery ++ quote
                       ++ lit ". Things app is now showing search results.")
             else throw (lit "Failed to perform search in Things app")
       | _ =>
           throw (lit "Search query is required and must be a non-empty string")
       end)%js
    (rethrow "Failed to search: ").

(** ** [update-tools.js] *)

(** The [updateData] object the [update_todo] handler builds. *)
Definition update_todo_updateData (args : value) : completion value :=
  let! id :=
    required_field args "args" "id"
      (lit "Todo ID is required and cannot be empty") in
  let! title := copy_trimmed args "args" "title" in
  let! list := copy_trimmed args "args" "list" in
  Return (Obj ((lit "id", Str id) :: title
               ++ copy_defined args ["notes"]%string
               ++ copy_truthy args ["when"]%string
               ++ copy_defined args ["deadline"; "tags"; "checklist"]%string
               ++ list)).

(** The [update_todo] handler. *)
Definition update_todo (P : Process) (client : t) (args : value)
  : M jsstring :=
  try_catch
    (if negb (isThingsAvailable P) then throw not_available
     else
       _ <- lift (required_field args "args" "id"
                    (lit "Todo ID is required and cannot be empty")) ;;
       require_token P "update" ;;;
       updateData <- lift (update_todo_updateData args) ;;
       success <- updateTodo P client updateData ;;
       if success : bool
       then ret (lit "Successfully updated to-do with ID: " ++ quote
                 ++ toString (field updateData "id") ++ quote)
       else throw (lit "Failed to update to-do in Things app"))%js
    (rethrow "Failed to update to-do: ").

(** The [updateData] object the [update_project] handler builds. *)
Definition update_project_updateData (args : value) : completion value :=
  let! id :=
    required_field args "args" "id"
      (lit "Project ID is required and cannot be empty") in
  let! title := copy_trimmed args "args" "title" in
  let! area := copy_trimmed args "args" "area" in
  Return (Obj ((lit "id", Str id) :: title
               ++ copy_defined args ["notes"]%string
               ++ copy_truthy args ["when"]%string
               ++ copy_defined args ["deadline"; "tags"]%string
               ++ area)).

(** The [update_project] handler. *)
Definition update_project (P : Process) (client : t) (args : value)
  : M jsstring :=
  try_catch
    (if negb (isThingsAvailable P) then throw not_available
     else
       _ <- lift (required_field args "args" "id"
                    (lit "Project ID is required and cannot be empty")) ;;
       require_token P "update" ;;;
       updateData <- lift (update_project_updateData args) ;;
       success <- updateProject P client updateData ;;
       if success : bool
       then ret (lit "Successfully updated project with ID: " ++ quote
                 ++ toString (field updateData "id") ++ quote)
       else throw (lit "Failed to update project in Things app"))%js
    (rethrow "Failed to update project: ").

(** The [complete_todo] handler. *)
Definition complete_todo (P : Process) (client : t) (args : value)
  : M jsstring :=
  try_catch
    (if negb (isThingsAvailable P) then throw not_available
     else
       id <- lift (required_field args "args" "id"
                     (lit "Todo ID is required and cannot be empty")) ;;
       require_token P "completion" ;;;
       let completeData := Obj [(lit "id", Str id)] in
       success <- completeTodo P client completeData ;;
       if success : bool
       then ret (lit "Successfully marked to-do as completed: " ++ quote
                 ++ id ++ quote)
       else throw (lit "Failed to complete to-do in Things app"))%js
    (rethrow "Failed to complete to-do: ").

(** ** [batch-tools.js]: [batch_complete_todos] and [batch_update_todos] *)

(** [!id || id.trim() === ''] on an element of [args.ids], and the trimmed
    identifier when the test is false. *)
Definition required_id (i : nat) (id : value) : completion jsstring :=
  let empty := lit "ID " ++ decimal (Z.of_nat i + 1)
               ++ lit ": ID cannot be empty" in
  if negb (truthy id) then Throw empty
  else
    let! s := call_trim "id" id in
    match s with
    | [] => Throw empty
    | _ => Return s
    end.

(** The [catch] block of the two loops over identifiers. *)
Definition batch_id_recover (i : nat) (id : value) (st : tally)
  (message : jsstring) : M tally :=
  ret (failed st (cross_mark ++ todo_label i ++ quote
                  ++ (if truthy id then toString id else lit "Unknown")
                  ++ quote ++ lit " - Error: " ++ message)).

Definition batch_complete_attempt (P : Process) (client : t) (i : nat)
  (id : value) (st : tally) : M tally :=
  (s <- lift (required_id i id) ;;
   let completeData := Obj [(lit "id", Str s)] in
   success <- completeTodo P client completeData ;;
   ret (if success : bool
        then succeeded st (check_mark ++ todo_label i ++ quote ++ s
                           ++ quote ++ lit " - Marked as completed")
        else failed st (cross_mark ++ todo_label i ++ quote ++ s
                        ++ quote ++ lit " - Failed to complete")))%js.

Fixpoint batch_complete_loop (P : Process) (client : t) (i : nat)
  (ids : list value) (st : tally) : M tally :=
  match ids with
  | [] => ret st
  | id :: rest =>
      (st' <- try_catch (batch_complete_attempt P client i id st)
                        (batch_id_recover i id st) ;;
       batch_complete_loop P client (S i) rest st')%js
  end.

Definition batch_complete_report (st : tally) : jsstring :=
  lit "Batch complete todos finished: " ++ decimal (successCount st)
  ++ lit " successful, " ++ decimal (failureCount st) ++ lit " failed"
  ++ [10; 10] ++ lit "Detailed Results:" ++ [10]
  ++ join [10] (results st).

(** The [batch_complete_todos] handler. *)
Definition batch_complete_todos (P : Process) (client : t) (args : value)
  : M jsstring :=
  try_catch
    (if negb (isThingsAvailable P) then throw not_available
     else
       ids <- lift (get args "ids") ;;
       match ids with
       | Arr (first :: others) =>
           require_token P "batch completion" ;;;
           st <- batch_complete_loop P client 0 (first :: others)
                   (mkTally [] 0 0) ;;
           ret (batch_complete_report st)
       | _ =>
           throw (lit "IDs array is required and must contain at least one item")
       end)%js
    (rethrow "Failed to batch complete todos: ").

(** [Object.entries(v)] for an object or an array. *)
Definition entries (v : value) : list (jsstring * value) :=
  match v with
  | Obj props => props
  | Arr items =>
      combine (map (fun i => decimal (Z.of_nat i)) (seq 0 (List.length items)))
              items
  | _ => []
  end.

(** [v[key]] for a key of [Object.keys(v)]. *)
Definition element (v : value) (key : jsstring) : value :=
  lookup key (entries v).

(** [Object.keys(updates).filter(key => updates[key] !== undefined)]. *)
Definition updateKeys (updates : value) : list jsstring :=
  filter (fun key => defined (element updates key))
         (map fst (entries updates)).

(** The [updateData] object built for one identifier of the batch. *)
Definition batch_updateData (id : jsstring) (updates : value) : value :=
  Obj ((lit "id", Str id)
       :: copy_defined updates
            ["title"; "notes"; "when"; "deadline"; "tags"; "list"]%string).

Definition batch_update_attempt (P : Process) (client : t) (updates : value)
  (i : nat) (id : value) (st : tally) : M tally :=
  (s <- lift (required_id i id) ;;
   success <- updateTodo P client (batch_updateData s updates) ;;
   ret (if success : bool
        then succeeded st (check_mark ++ todo_label i ++ quote ++ s
                           ++ quote ++ lit " - Updated successfully")
        else failed st (cross_mark ++ todo_label i ++ quote ++ s
                        ++ quote ++ lit " - Failed to update")))%js.

Fixpoint batch_update_loop (P : Process) (client : t) (updates : value)
  (i : nat) (ids : list value) (st : tally) : M tally :=
  match ids with
  | [] => ret st
  | id :: rest =>
      (st' <- try_catch (batch_update_attempt P client updates i id st)
                        (batch_id_recover i id st) ;;
       batch_update_loop P client updates (S i) rest st')%js
  end.

(** [Object.entries(updates).filter(...).map(...).join(', ')]. *)
Definition appliedUpdates (updates : value) : jsstring :=
  join (lit ", ")
       (map (fun kv => fst kv ++ lit ": " ++ toString (snd kv))
            (filter (fun kv => defined (snd kv)) (entries updates))).

Definition batch_update_report (updates : value) (st : tally) : jsstring :=
  lit "Batch update todos completed: " ++ decimal (successCount st)
  ++ lit " successful, " ++ decimal (failureCount st) ++ lit " failed"
  ++ [10; 10] ++ lit "Applied Updates: " ++ appliedUpdates updates
  ++ [10; 10] ++ lit "Detailed Results:" ++ [10]
  ++ join [10] (results st).

(** The [batch_update_todos] handler. *)
Definition batch_update_todos (P : Process) (client : t) (args : value)
  : M jsstring :=
  try_catch
    (if negb (isThingsAvailable P) then throw not_available
     else
       ids <- lift (get args "ids") ;;
       match ids with
       | Arr (first :: others) =>
           updates <- lift (get args "updates") ;;
           if negb (truthy updates) || negb (is_object updates) then
             throw (lit "Updates object is required")
           else
             match updateKeys updates with
             | [] => throw (lit "At least one update field must be provided")
             | _ =>
                 require_token P "batch update" ;;;
                 st <- batch_update_loop P client updates 0
                         (first :: others) (mkTally [] 0 0) ;;
                 ret (batch_update_report updates st)
             end
       | _ =>
           throw (lit "IDs array is required and must contain at least one item")
       end)%js
    (rethrow "Failed to batch update todos: ").

End Tools.

(* ================================================================== *)
(** * [src/utils/validation.js] *)
(* ================================================================== *)

Module Validation.


Definition validListIds : list jsstring :=
  [lit "today"; lit "inbox"; lit "upcoming"; lit "anytime"; lit "someday";
   lit "projects"; lit "areas"; lit "logbook"].

Section ListId.

(** [String.prototype.toLowerCase], the Unicode case mapping of the
    platform. *)
Variable toLowerCase : jsstring -> jsstring.

(** [validateListId(listId)]. *)
Definition validateListId (listId : value) : completion jsstring :=
  match listId with
  | Str s =>
      match trim s with
      | [] => Throw (lit "List ID is required")
      | _ =>
          let cleanListId := toLowerCase (trim s) in
          if existsb (str_eqb cleanListId) validListIds
          then Return cleanListId
          else Throw (lit "Invalid list ID. Must be one of: "
                      ++ join (lit ", ") validListIds)
      end
  | _ => Throw (lit "List ID is required")
  end.

End ListId.

(** [validateItemId(id, itemType)]; the default of [itemType] is
    ['item']. *)
Definition validateItemId (id : value) (itemType : jsstring)
  : completion jsstring :=
  let required :=
    itemType ++ lit " ID is required and must be a non-empty string" in
  match id with
  | Str s =>
      if negb (truthy id) || str_eqb (trim s) [] then Throw required
      else
        let cleanId := trim s in
        if 1000 <? Z.of_nat (List.length cleanId) then
          Throw (itemType ++ lit " ID is too long (max 1000 characters)")
        else Return cleanId
  | _ => Throw required
  end.

(** [validateSearchQuery(query)]. *)
Definition validateSearchQuery (query : value) : completion jsstring :=
  let required :=
    lit "Search query is required and must be a non-empty string" in
  match query with
  | Str s =>
      if negb (truthy query) || str_eqb (trim s) [] then Throw required
      else
        let cleanQuery := trim s in
        if 500 <? Z.of_nat (List.length cleanQuery) then
          Throw (lit "Search query is too long (max 500 characters)")
        else Return cleanQuery
  | _ => Throw required
  end.

Definition validWhenValues : list jsstring :=
  [lit "today"; lit "tomorrow"; lit "evening"; lit "anytime"; lit "someday"].

(** The title of the data, checked and trimmed: required unless
    [isUpdate]. *)
Definition validated_title (kind : string) (data : value) (isUpdate : bool)
  : completion (list (jsstring * value)) :=
  let title := ThingsClient.field data "title" in
  if negb isUpdate then
    let required :=
      lit kind ++ lit " title is required and must be a non-empty string" in
    match title with
    | Str s =>
        if negb (truthy title) || str_eqb (trim s) [] then Throw required
        else Return [(lit "title", Str (trim s))]
    | _ => Throw required
    end
  else
    match title with
    | Undefined => Return []
    | Str s => Return [(lit "title", Str (trim s))]
    | _ => Throw (lit kind ++ lit " title must be a string")
    end.

(** An optional field that has to be a string; [clean] is [trim] or
    nothing. *)
Definition validated_string (data : value) (name : string)
  (clean : jsstring -> jsstring) (message : jsstring)
  : completion (list (jsstring * value)) :=
  match ThingsClient.field data name with
  | Undefined => Return []
  | Str s => Return [(lit name, Str (clean s))]
  | _ => Throw message
  end.

(** [when], one of [validWhenValues] if it is there. *)
Definition validated_when (kind : string) (data : value)
  : completion (list (jsstring * value)) :=
  match ThingsClient.field data "when" with
  | Undefined => Return []
  | v =>
      if match v with
         | Str s => existsb (str_eqb s) validWhenValues
         | _ => false
         end
      then Return [(lit "when", v)]
      else Throw (lit kind ++ lit " 'when' must be one of: "
                  ++ join (lit ", ") validWhenValues)
  end.

Definition unchanged (s : jsstring) : jsstring := s.

(** [validateTodoData(todoData, isUpdate)]. *)
Definition validateTodoData (todoData : value) (isUpdate : bool)
  : completion value :=
  if negb (truthy todoData) || negb (is_object todoData) then
    Throw (lit "Todo data must be an object")
  else
    let! title := validated_title "Todo" todoData isUpdate in
    let! notes :=
      validated_string todoData "notes" unchanged
        (lit "Todo notes must be a string") in
    let! when := validated_when "Todo" todoData in
    let! deadline :=
      validated_string todoData "deadline" trim
        (lit "Todo deadline must be a string (date format)") in
    let! tags :=
      validated_string todoData "tags" trim
        (lit "Todo tags must be a string (comma-separated)") in
    let! checklist :=
      validated_string todoData "checklist" unchanged
        (lit "Todo checklist must be a string (line-separated)") in
    let! list :=
      validated_string todoData "list" trim
        (lit "Todo list must be a string") in
    Return (Obj (title ++ notes ++ when ++ deadline ++ tags ++ checklist
                 ++ list)).

(** [todos.filter(todo => todo && typeof todo === 'string' && todo.trim())]. *)
Definition filter_strings (todos : list value) : list value :=
  filter (fun todo =>
            match todo with
            | Str s => truthy todo && negb (str_eqb (trim s) [])
            | _ => false
            end)
         todos.

(** [validateProjectData(projectData, isUpdate)]. *)
Definition validateProjectData (projectData : value) (isUpdate : bool)
  : completion value :=
  if negb (truthy projectData) || negb (is_object projectData) then
    Throw (lit "Project data must be an object")
  else
    let! title := validated_title "Project" projectData isUpdate in
    let! notes :=
      validated_string projectData "notes" unchanged
        (lit "Project notes must be a string") in
    let! when := validated_when "Project" projectData in
    let! deadline :=
      validated_string projectData "deadline" trim
        (lit "Project deadline must be a string (date format)") in
    let! tags :=
      validated_string projectData "tags" trim
        (lit "Project tags must be a string (comma-separated)") in
    let! area :=
      validated_string projectData "area" trim
        (lit "Project area must be a string") in
    let! todos :=
      match ThingsClient.field projectData "todos" with
      | Undefined => Return []
      | Arr todos =>
          let! trimmed := Tools.map_trim (filter_strings todos) in
          Return [(lit "todos", Arr trimmed)]
      | _ => Throw (lit "Project todos must be an array")
      end in
    Return (Obj (title ++ notes ++ when ++ deadline ++ tags ++ area
                 ++ todos)).

End Validation.

(* ================================================================== *)
(** * Vocabulary of the properties *)
(* ================================================================== *)

Import ThingsClient Tools Validation.

(** ** Strings *)



(** A string [encodeURIComponent] accepts: every surrogate is half of a
    pair. *)
Fixpoint well_formed (s : jsstring) : bool :=
  match s with
  | [] => true
  | c :: rest =>
      if is_high_surrogate c then
        match rest with
        | d :: rest' => is_low_surrogate d && well_formed rest'
        | [] => false
        end
      else negb (is_low_surrogate c) && well_formed rest
  end.

(** The credential, the live entries of a mapping, and every field the
    program can read from an input, print as well-formed strings. *)
Definition token_well_formed (token : option jsstring) : Prop :=
  match token with
  | Some t => well_formed t = true
  | None => True
  end.


Definition fields_well_formed (data : value) : Prop :=
  forall name, well_formed (toString (field data name)) = true.

(** ** The alphabet of the encoder *)

(** What the encoder can put out: an unreserved character or the percent
    sign. *)
Definition component_char (c : Z) : bool := uri_unreserved c || (c =? 37).

(** A key or value as the encoder writes it. *)
Definition encoded (s : jsstring) : Prop :=
  Forall (fun c => component_char c = true) s.

Definition encoded_pair (p : jsstring * jsstring) : Prop :=
  encoded (fst p) /\ encoded (snd p).

(** The alphabet of a joined query string: the encoder's own, with [&] and
    [=]. *)
Definition query_char (c : Z) : bool :=
  component_char c || (c =? 38) || (c =? 61).

Definition query_string (s : jsstring) : Prop :=
  Forall (fun c => query_char c = true) s.

(** ** URLs *)

(** [new URL(url, base).href]. *)
Definition URL_href (url base : jsstring) : completion jsstring :=
  let! u := URL_new url base in Return (URL_toString u).

(** The URL [buildUrl] returns for a parsed command and its query parts. *)
Definition href_with (u : URLRecord) (parts : list jsstring) : jsstring :=
  href_head u
  ++ match parts with
     | [] => href_query u
     | _ => lit "?" ++ join (lit "&") parts
     end
  ++ href_fragment u.

(** A command whose URL has a plain head and neither query nor fragment of
    its own: the commands the client issues are such. *)
Definition plain_command (command base : jsstring) (head : jsstring) : Prop :=
  exists u, URL_new command base = Return u
            /\ href_head u = head
            /\ url_query u = None /\ url_fragment u = None
            /\ ~ In 63 head /\ ~ In 35 head.

(** The code points of a URL record all lie in a set [ok]. *)
Definition within_opt (ok : Z -> Prop) (o : option jsstring) : Prop :=
  match o with
  | Some s => Forall ok s
  | None => True
  end.

Record url_within (ok : Z -> Prop) (u : URLRecord) : Prop := mk_within {
  within_scheme : Forall ok (url_scheme u);
  within_username : Forall ok (url_username u);
  within_password : Forall ok (url_password u);
  within_host : within_opt ok (url_host u);
  within_path : Forall (Forall ok) (url_path u);
  within_query : within_opt ok (url_query u);
  within_fragment : within_opt ok (url_fragment u)
}.

(** What a parser state does to a record: it keeps the scheme, and stays
    within the set. *)
Definition kept (ok : Z -> Prop) (u u' : URLRecord) : Prop :=
  url_scheme u' = url_scheme u /\ (url_within ok u -> url_within ok u').

Definition kept_result (ok : Z -> Prop) (u : URLRecord) (r : parse_result)
  : Prop :=
  forall u', r = Parsed u' -> kept ok u u'.

(** ** Reading the parameters of a URL back *)

Fixpoint take_until (c : Z) (s : jsstring) : jsstring :=
  match s with
  | [] => []
  | x :: rest => if x =? c then [] else x :: take_until c rest
  end.

Fixpoint drop_until (c : Z) (s : jsstring) : option jsstring :=
  match s with
  | [] => None
  | x :: rest => if x =? c then Some rest else drop_until c rest
  end.

Fixpoint split_on (c : Z) (s : jsstring) : list jsstring :=
  match s with
  | [] => [[]]
  | x :: rest =>
      if x =? c then [] :: split_on c rest
      else match split_on c rest with
           | piece :: pieces => (x :: piece) :: pieces
           | [] => [[x]]
           end
  end.

(** A [name=value] piece of a query, split at its first [=]. *)
Definition parse_pair (piece : jsstring) : jsstring * jsstring :=
  (take_until 61 piece,
   match drop_until 61 piece with Some v => v | None => [] end).

(** The parameters written in a URL, still percent-encoded and in order:
    what stands between the first [?] and the [#] is cut at every [&], and
    the pieces that are not empty are cut at their first [=]. *)
Definition searchParams (href : jsstring) : list (jsstring * jsstring) :=
  match drop_until 63 (take_until 35 href) with
  | Some query =>
      map parse_pair
          (filter (fun piece => match piece with [] => false | _ => true end)
                  (split_on 38 query))
  | None => []
  end.

(** [URLSearchParams.prototype.get] without the decoding, and with it. *)
Fixpoint param (name : jsstring) (pairs : list (jsstring * jsstring))
  : option jsstring :=
  match pairs with
  | [] => None
  | (k, v) :: rest => if str_eqb k name then Some v else param name rest
  end.

Definition decoded_param (name : string) (href : jsstring) : option jsstring :=
  match param (lit name) (searchParams href) with
  | Some v => decodeURIComponent v
  | None => None
  end.

(** ** The pairs behind the query parts *)

Definition glue (pair : jsstring * jsstring) : jsstring :=
  fst pair ++ lit "=" ++ snd pair.

(** [encodeURIComponent] of each live entry's key and value, and of the
    credential: [entry_parts], [token_parts] and [queryParts] before the
    key and the value are glued together. *)
Fixpoint entry_pairs (params : list (jsstring * value))
  : completion (list (jsstring * jsstring)) :=
  match params with
  | [] => Return []
  | (key, v) :: rest =>
      if nullish v then entry_pairs rest
      else
        let! k := encodeURIComponent key in
        let! e := encodeURIComponent (toString v) in
        let! pairs := entry_pairs rest in
        Return ((k, e) :: pairs)
  end.

Definition token_pairs (this : t) (command : jsstring)
  : completion (list (jsstring * jsstring)) :=
  match authToken this with
  | Some (c :: token) =>
      if negb (str_eqb command (lit "show")) then
        let! e := encodeURIComponent (c :: token) in
        Return [(lit "auth-token", e)]
      else Return []
  | _ => Return []
  end.

Definition queryPairs (this : t) (command : jsstring)
  (params : list (jsstring * value))
  : completion (list (jsstring * jsstring)) :=
  let! first := token_pairs this command in
  let! others := entry_pairs params in
  Return (first ++ others).

(** ** Inputs that differ by an empty string *)



(** ** The batch report *)

(** The [try] block of the batch loop runs to its end for an item and
    counts it as created, whatever the tally and the world it starts
    from. *)
Definition attempt_succeeds (P : Process) (client : t) (i : nat)
  (todo : value) : Prop :=
  forall st w, exists line w',
    batch_add_attempt P client i todo st w = (Return (succeeded st line), w').

(** The line reported for an item whose title is missing or blank. *)
Definition title_required_line (i : nat) (title : jsstring) : jsstring :=
  cross_mark ++ todo_label i ++ quote
  ++ match title with [] => lit "Unknown" | _ => title end
  ++ quote ++ lit " - Error: " ++ todo_label i ++ lit "Title is required".

(** A line reporting a created item. *)
Definition created_line (i : nat) (line : jsstring) : Prop :=
  exists title,
    line = check_mark ++ todo_label i ++ quote ++ title ++ quote
           ++ lit " - Created successfully".

(** A code point that is neither [?] nor [#]. *)
Definition no_mark (c : Z) : Prop := c <> 63 /\ c <> 35.

(** The part of a record that is serialized before the query holds neither
    a [?] nor a [#]. *)
Record head_plain (u : URLRecord) : Prop := mk_head_plain {
  plain_scheme : Forall no_mark (url_scheme u);
  plain_username : Forall no_mark (url_username u);
  plain_password : Forall no_mark (url_password u);
  plain_host : within_opt no_mark (url_host u);
  plain_path : Forall (Forall no_mark) (url_path u)
}.

Definition head_plain_result (r : parse_result) : Prop :=
  forall u, r = Parsed u -> head_plain u.

(** Code units: what a JavaScript string is made of. *)
Definition utf16 (s : jsstring) : Prop := Forall (fun c => 0 <= c < 65536) s.

(** The code units of a code point. *)
Definition units (cp : Z) : jsstring :=
  if cp <? 65536 then [cp]
  else [55296 + (cp - 65536) / 1024; 56320 + (cp - 65536) mod 1024].

(** The entries of a mapping that [buildUrl] writes, and what it writes for
    them before encoding: the key and [String(value)]. *)
Definition live (params : list (jsstring * value)) : list (jsstring * value) :=
  filter (fun kv => negb (nullish (snd kv))) params.

Definition printed (params : list (jsstring * value))
  : list (jsstring * jsstring) :=
  map (fun kv => (fst kv, toString (snd kv))) (live params).

(** The credential entry, where [buildUrl] adds one. *)
Definition credential (this : t) (command : jsstring)
  : list (jsstring * jsstring) :=
  match authToken this with
  | Some (c :: token) =>
      if negb (str_eqb command (lit "show"))
      then [(lit "auth-token", c :: token)] else []
  | _ => []
  end.

(** Everything [buildUrl] sends, in order. *)
Definition sent (this : t) (command : jsstring)
  (params : list (jsstring * value)) : list (jsstring * jsstring) :=
  credential this command ++ printed params.

(** The names and values of the parameters of a URL, decoded. *)
Definition decoded_pairs (href : jsstring)
  : list (option jsstring * option jsstring) :=
  map (fun p => (decodeURIComponent (fst p), decodeURIComponent (snd p)))
      (searchParams href).

Definition all_utf16 (pairs : list (jsstring * jsstring)) : Prop :=
  Forall (fun p => utf16 (fst p) /\ utf16 (snd p)) pairs.

Definition all_well_formed (pairs : list (jsstring * jsstring)) : bool :=
  forallb (fun p => well_formed (fst p) && well_formed (snd p)) pairs.
(** [encodeURIComponent] of every name and value of a list, as [buildUrl]
    applies it from left to right. *)
Fixpoint encode_pairs (printed : list (jsstring * jsstring))
  : completion (list (jsstring * jsstring)) :=
  match printed with
  | [] => Return []
  | (key, s) :: rest =>
      let! k := encodeURIComponent key in
      let! e := encodeURIComponent s in
      let! pairs := encode_pairs rest in
      Return ((k, e) :: pairs)
  end.



(** The operations of the client that end in [executeCommand]. *)
Inductive operation : Type :=
| ShowList | AddTodo | AddProject | Search | UpdateTodo | UpdateProject
| CompleteTodo.

Definition run (P : Process) (this : t) (op : operation) (data : value)
  : M bool :=
  match op with
  | ShowList => showList P this data
  | AddTodo => addTodo P this data
  | AddProject => addProject P this data
  | Search => ThingsClient.search P this data
  | UpdateTodo => updateTodo P this data
  | UpdateProject => updateProject P this data
  | CompleteTodo => completeTodo P this data
  end.

(** The command an operation issues. *)
Definition command_of (op : operation) : jsstring :=
  match op with
  | ShowList => lit "show"
  | AddTodo => lit "add"
  | AddProject => lit "add-project"
  | Search => lit "search"
  | UpdateTodo | UpdateProject | CompleteTodo => lit "update"
  end.

(** A string that neither begins nor ends with white space. *)
Definition no_lead (s : jsstring) : Prop :=
  match s with
  | [] => True
  | c :: _ => is_js_space c = false
  end.

Definition trimmed (s : jsstring) : Prop := no_lead s /\ no_lead (rev s).
(** What an operation that got as far as [executeCommand] comes to. *)
Definition dispatched (P : Process) (op : operation) (w : World)
  (r : completion bool) (w' : World) : Prop :=
  (exists query,
      let url := lit "things:///" ++ command_of op ++ query in
      opened w' = opened w ++ [url]
      /\ ((open P (opened w) url = None /\ r = Return true)
          \/ exists message,
               open P (opened w) url = Some message
               /\ r = Throw (lit "Things command execution failed: "
                             ++ message)))
  \/ (opened w' = opened w
      /\ r = Throw (lit "Things command execution failed: Failed to build Things URL: URI malformed")).

(** A Mac with a given credential in its environment, on which [open]
    resolves, or rejects with a message; and a world in which nothing has
    happened yet. *)
Definition mac (token : option jsstring) : Process :=
  mkProcess (lit "darwin") token (fun _ _ => None).


Definition fresh : World := mkWorld [] [].

(** [open] resolves, whatever it is given. *)
Definition resolves (P : Process) : Prop :=
  forall before url, open P before url = None.

Definition token_utf16 (token : option jsstring) : Prop :=
  match token with
  | Some t => utf16 t
  | None => True
  end.

(** The line [executeCommand] writes before it calls [open]. *)
Definition executing (url : jsstring) : jsstring :=
  lit "Executing Things command: " ++ url.
(** Names and values that all decode. *)
Definition all_decoded (pairs : list (jsstring * jsstring))
  : list (option jsstring * option jsstring) :=
  map (fun p => (Some (fst p), Some (snd p))) pairs.

(** The messages of the [search] tool. *)
Definition search_required : jsstring :=
  lit "Search query is required and must be a non-empty string".

Definition search_done (searchQuery : jsstring) : jsstring :=
  lit "Successfully performed search for: " ++ quote ++ searchQuery ++ quote
  ++ lit ". Things app is now showing search results.".

(** The tools that ask for the credential before they do anything. *)
Inductive guarded_tool : Type :=
| update_todo_tool | update_project_tool | complete_todo_tool
| batch_add_todos_tool | batch_complete_todos_tool | batch_update_todos_tool.

Definition guarded_handler (tool : guarded_tool)
  : Process -> t -> value -> M jsstring :=
  match tool with
  | update_todo_tool => update_todo
  | update_project_tool => update_project
  | complete_todo_tool => complete_todo
  | batch_add_todos_tool => batch_add_todos
  | batch_complete_todos_tool => batch_complete_todos
  | batch_update_todos_tool => batch_update_todos
  end.

(** The shape of the three batch loops: [step] is the [try] block with its
    [catch]. *)
Fixpoint batch_loop (step : nat -> value -> tally -> M tally) (i : nat)
  (items : list value) (st : tally) : M tally :=
  match items with
  | [] => ret st
  | item :: rest =>
      (st' <- step i item st ;; batch_loop step (S i) rest st')%js
  end.

Definition batch_add_step (P : Process) (client : t) (i : nat)
  (todo : value) (st : tally) : M tally :=
  try_catch (batch_add_attempt P client i todo st)
            (batch_add_recover i todo st).


Definition batch_update_step (P : Process) (client : t) (updates : value)
  (i : nat) (id : value) (st : tally) : M tally :=
  try_catch (batch_update_attempt P client updates i id st)
            (batch_id_recover i id st).



(** A name is one of a list of names. *)
Definition among (name : string) (names : list string) : bool :=
  existsb (String.eqb name) names.

(** A key that [encodeURIComponent] leaves as it is. *)
Definition plain_key (key : jsstring) : Prop :=
  Forall (fun c => uri_unreserved c = true) key.

(** The parameter object an operation hands to [executeCommand]. *)
Definition params_of (op : operation) (data : value)
  : completion (list (jsstring * value)) :=
  match op with
  | ShowList => Return [(lit "id", data)]
  | AddTodo => addTodo_params data
  | AddProject => addProject_params data
  | Search =>
      match data with
      | Str s =>
          if negb (truthy data) || str_eqb (trim s) []
          then Throw search_required
          else Return [(lit "query", Str (trim s))]
      | _ => Throw search_required
      end
  | UpdateTodo => updateTodo_params data
  | UpdateProject => updateProject_params data
  | CompleteTodo => completeTodo_params data
  end.

(** The names of the parameters an operation can send, in the order in
    which they are written. *)
Definition names_of (op : operation) : list string :=
  match op with
  | ShowList => ["id"]
  | AddTodo =>
      ["auth-token"; "title"; "notes"; "when"; "deadline"; "tags";
       "checklist"; "list"]
  | AddProject =>
      ["auth-token"; "title"; "notes"; "when"; "deadline"; "tags"; "area";
       "todos"]
  | Search => ["auth-token"; "query"]
  | UpdateTodo =>
      ["auth-token"; "id"; "title"; "notes"; "when"; "deadline"; "tags";
       "checklist"; "list"]
  | UpdateProject =>
      ["auth-token"; "id"; "title"; "notes"; "when"; "deadline"; "tags";
       "area"]
  | CompleteTodo => ["auth-token"; "id"; "completed"]
  end%string.

(** A list got from another by leaving elements out. *)
Inductive subsequence {A : Type} : list A -> list A -> Prop :=
| sub_nil : forall l, subsequence [] l
| sub_take : forall x a b, subsequence a b -> subsequence (x :: a) (x :: b)
| sub_skip : forall x a b, subsequence a b -> subsequence a (x :: b).

(** A value of which the handlers can take the [trim]: a falsy value, past
    which they go, or a string. *)
Definition trimmable (v : value) : bool := negb (truthy v) || is_string v.

(** What the handlers keep of a field they trim: the trimmed string, unless
    nothing is left of it. *)
Definition trimmed_value (v : value) : value :=
  match v with
  | Str s => match trim s with [] => Undefined | t => Str t end
  | _ => Undefined
  end.

(** What they keep of a field they copy when it is truthy. *)
Definition truthy_value (v : value) : value :=
  if truthy v then v else Undefined.

(** An object written field by field, the fields that are [undefined] left
    out. *)
Definition entry (name : string) (v : value) : list (jsstring * value) :=
  if defined v then [(lit name, v)] else [].

Definition record (fields : list (string * value))
  : list (jsstring * value) :=
  flat_map (fun nv => entry (fst nv) (snd nv)) fields.

(** How a value shows in a URL under a name: not at all when it is
    [undefined] or [null], and otherwise as a parameter that decodes to
    [String(value)]. *)
Definition sent_as (name : string) (v : value) (url : jsstring) : Prop :=
  if nullish v then param (lit name) (searchParams url) = None
  else utf16 (toString v) -> decoded_param name url = Some (toString v).

(** The value of a field in a list of fields. *)
Fixpoint assoc (name : string) (fields : list (string * value)) : value :=
  match fields with
  | [] => Undefined
  | (n, v) :: rest => if String.eqb n name then v else assoc name rest
  end.

(** The fields [update_todo] passes on, as it reads them from its
    arguments. *)
Definition update_todo_fields (args : value) : list (string * value) :=
  [("id", trimmed_value (field args "id"));
   ("title", trimmed_value (field args "title"));
   ("notes", field args "notes");
   ("when", truthy_value (field args "when"));
   ("deadline", field args "deadline");
   ("tags", field args "tags");
   ("checklist", field args "checklist");
   ("list", trimmed_value (field args "list"))]%string.

(** The to-dos the [add_project] handler keeps: the strings that are not
    blank, trimmed. *)
Definition kept_todos (todos : list value) : list jsstring :=
  flat_map (fun todo => match trimmed_value todo with
                        | Str t => [t]
                        | _ => []
                        end)
           todos.

(** The fields [add_project] passes on, as it reads them from its
    arguments. *)
Definition add_project_fields (args : value) : list (string * value) :=
  [("title", trimmed_value (field args "title"));
   ("notes", trimmed_value (field args "notes"));
   ("when", truthy_value (field args "when"));
   ("deadline", truthy_value (field args "deadline"));
   ("tags", trimmed_value (field args "tags"));
   ("area", trimmed_value (field args "area"));
   ("todos", match field args "todos" with
             | Arr todos => Arr (map Str (kept_todos todos))
             | _ => Undefined
             end)]%string.

(** What the client makes of them. *)
Definition addProject_fields (fields : list (string * value))
  : list (string * value) :=
  [("title", assoc "title" fields);
   ("notes", truthy_value (assoc "notes" fields));
   ("when", truthy_value (assoc "when" fields));
   ("deadline", truthy_value (assoc "deadline" fields));
   ("tags", truthy_value (assoc "tags" fields));
   ("area", truthy_value (assoc "area" fields));
   ("todos", match assoc "todos" fields with
             | Arr todos => Str (array_join [10] todos)
             | _ => Undefined
             end)]%string.

(** The end of the message of [add_project]. *)
Definition with_todos (n : nat) : jsstring :=
  match n with
  | O => []
  | _ => lit " with " ++ decimal (Z.of_nat n) ++ lit " initial to-do(s)"
  end.

(** The fields [add_todo] passes on, as it reads them from its arguments. *)
Definition add_todo_fields (args : value) : list (string * value) :=
  [("title", trimmed_value (field args "title"));
   ("notes", trimmed_value (field args "notes"));
   ("when", truthy_value (field args "when"));
   ("deadline", truthy_value (field args "deadline"));
   ("tags", trimmed_value (field args "tags"));
   ("checklist", trimmed_value (field args "checklist"));
   ("list", trimmed_value (field args "list"))]%string.

(** What the client makes of them. *)
Definition addTodo_fields (fields : list (string * value))
  : list (string * value) :=
  ("title"%string, assoc "title" fields)
  :: map (fun n => (n, truthy_value (assoc n fields)))
         ["notes"; "when"; "deadline"; "tags"; "checklist"; "list"]%string.

(** The credential as a value: [undefined] when there is none to send. *)
Definition credential_value (token : option jsstring) : value :=
  match token with
  | Some (c :: t) => Str (c :: t)
  | _ => Undefined
  end.

Definition no_token_warning : jsstring :=
  lit "Warning: THINGS_AUTHENTICATION_TOKEN not set. Add operations may fail without authentication.".

(** The lines [batch_complete_todos] reports for identifiers that were all
    completed, the first of them at index [i]. *)
Fixpoint completed_lines (i : nat) (ids : list jsstring) : list jsstring :=
  match ids with
  | [] => []
  | s :: rest =>
      (check_mark ++ todo_label i ++ quote ++ trim s ++ quote
       ++ lit " - Marked as completed")
      :: completed_lines (S i) rest
  end.

(** The URL that completes the to-do with the identifier [s], and what is
    read back from it. *)
Definition completes (token : option jsstring) (s : jsstring)
  (url : jsstring) : Prop :=
  buildUrl (with_token token) (lit "update")
    [(lit "id", Str (trim s)); (lit "completed", Bool true)] = Return url
  /\ (token_utf16 token -> utf16 s ->
      decoded_pairs url
      = all_decoded (credential (with_token token) (lit "update")
                     ++ [(lit "id", trim s); (lit "completed", lit "true")])).

(** What the validators keep of a string field: the string cleaned, and
    nothing for a field that is not there. *)
Definition cleaned_string (clean : jsstring -> jsstring) (v : value) : value :=
  match v with
  | Str s => Str (clean s)
  | _ => Undefined
  end.

(** The strings [validateProjectData] keeps of its [todos], trimmed. *)
Fixpoint clean_todos (todos : list value) : list jsstring :=
  match todos with
  | [] => []
  | Str s :: rest =>
      match trim s with
      | [] => clean_todos rest
      | _ => trim s :: clean_todos rest
      end
  | _ :: rest => clean_todos rest
  end.

(** The names the two validators may copy, in the order they write them. *)
Definition todo_names : list string :=
  ["title"; "notes"; "when"; "deadline"; "tags"; "checklist"; "list"]%string.

Definition project_names : list string :=
  ["title"; "notes"; "when"; "deadline"; "tags"; "area"; "todos"]%string.

(** A string that is not empty and has no white space at either end. *)
Definition clean_string (s : jsstring) : Prop := s <> [] /\ trimmed s.

(** What [validateProjectData] keeps of its [todos] field. *)
Definition cleaned_todos (v : value) : value :=
  match v with
  | Arr todos => Arr (map Str (clean_todos todos))
  | _ => Undefined
  end.

(** A computation hands [open] only URLs of which [Q] holds, whatever it
    comes to. *)
Definition opens {A : Type} (Q : jsstring -> Prop) (m : M A) : Prop :=
  forall w r w',
    m w = (r, w') ->
    exists urls, opened w' = opened w ++ urls /\ Forall Q urls.

(** The names of the parameters of a URL are among [names], in the order
    of [names]. *)
Definition names_among (names : list string) (url : jsstring) : Prop :=
  subsequence (map fst (searchParams url)) (map lit names).

(** The names the two batches that send fields can put into a URL. *)
Definition batch_add_names : list string :=
  ["auth-token"; "title"; "notes"; "when"; "deadline"; "tags"; "list"]%string.

Definition batch_update_names : list string :=
  ["auth-token"; "id"; "title"; "notes"; "when"; "deadline"; "tags";
   "list"]%string.

(** The seventeen tools of the four tool files. *)
Inductive tool : Type :=
| navigation (view : show_tool)
| adding_todo
| adding_project
| searching
| guarded (which : guarded_tool).

Definition handler (tl : tool) (P : Process) (client : t) (args : value)
  : M jsstring :=
  match tl with
  | navigation view => show_handler P client view
  | adding_todo => add_todo P client args
  | adding_project => add_project P client args
  | searching => Tools.search P client args
  | guarded which => guarded_handler which P client args
  end.

(** What the [catch] block of each handler puts before the message of the
    error it caught. *)
Definition failure_prefix (tl : tool) : jsstring :=
  match tl with
  | navigation view => lit "Failed to show " ++ show_view view ++ lit ": "
  | adding_todo => lit "Failed to add to-do: "
  | adding_project => lit "Failed to add project: "
  | searching => lit "Failed to search: "
  | guarded update_todo_tool => lit "Failed to update to-do: "
  | guarded update_project_tool => lit "Failed to update project: "
  | guarded complete_todo_tool => lit "Failed to complete to-do: "
  | guarded batch_add_todos_tool => lit "Failed to batch add todos: "
  | guarded batch_complete_todos_tool => lit "Failed to batch complete todos: "
  | guarded batch_update_todos_tool => lit "Failed to batch update todos: "
  end.

(* ================================================================== *)
(** * Properties of strings and of the encoder *)
(* ================================================================== *)

Lemma str_eqb_eq (a b : jsstring) : str_eqb a b = true <-> a = b.
Proof.
  revert b; induction a as [|x a IH]; intros [|y b]; simpl;
    try (split; [discriminate | discriminate]); try tauto.
  rewrite andb_true_iff, Z.eqb_eq, IH.
  split; [intros [-> ->]; reflexivity | intros H; inversion H; auto].
Qed.

Lemma str_eqb_refl (a : jsstring) : str_eqb a a = true.
Proof. apply str_eqb_eq; reflexivity. Qed.

Lemma str_eqb_neq (a b : jsstring) : str_eqb a b = false <-> a <> b.
Proof.
  rewrite <- str_eqb_eq. destruct (str_eqb a b); split; congruence.
Qed.

Lemma join_cons (sep p : jsstring) (rest : list jsstring) :
  rest <> [] -> join sep (p :: rest) = p ++ sep ++ join sep rest.
Proof. destruct rest; [congruence | reflexivity]. Qed.


Lemma Forall_join (P : Z -> Prop) (sep : jsstring) (parts : list jsstring) :
  Forall P sep -> Forall (Forall P) parts -> Forall P (join sep parts).
Proof.
  intros Hsep; induction 1 as [|p parts Hp Hparts IH]; [constructor|].
  destruct parts as [|q parts]; [exact Hp|].
  change (Forall P (p ++ sep ++ join sep (q :: parts))).
  rewrite !Forall_app; auto.
Qed.

(** ** The encoder and [trim] at work *)

Example encode_title :
  encodeURIComponent (lit "Temp Add From MCP")
  = Return (lit "Temp%20Add%20From%20MCP").
Proof. reflexivity. Qed.

Example encode_reserved :
  encodeURIComponent (lit "a+b&c=d?e#f/g")
  = Return (lit "a%2Bb%26c%3Dd%3Fe%23f%2Fg").
Proof. reflexivity. Qed.

(** U+00E9, U+20AC and the pair for U+1F600. *)
Example encode_beyond_ascii :
  encodeURIComponent [233; 8364; 55357; 56832]
  = Return (lit "%C3%A9%E2%82%AC%F0%9F%98%80").
Proof. reflexivity. Qed.

Example encode_lone_surrogate :
  encodeURIComponent [97; 55357; 98] = Throw (lit "URI malformed").
Proof. reflexivity. Qed.

Example decode_joined_titles :
  decodeURIComponent (lit "Create%20wireframes%0ADesign%20mockups")
  = Some (lit "Create wireframes" ++ [10] ++ lit "Design mockups").
Proof. reflexivity. Qed.

Example trim_blank : trim [32; 9; 160; 10] = [].
Proof. reflexivity. Qed.

Example trim_inner : trim (lit "  a b  ") = lit "a b".
Proof. reflexivity. Qed.

(** ** The alphabet of [encodeURIComponent] *)

Ltac bool_to_Z :=
  repeat match goal with
         | H : _ || _ = true |- _ => apply orb_true_iff in H
         | H : _ && _ = true |- _ => apply andb_true_iff in H
         | H : _ || _ = false |- _ => apply orb_false_iff in H
         | H : _ && _ = false |- _ => apply andb_false_iff in H
         | H : negb _ = true |- _ => apply negb_true_iff in H
         | H : negb _ = false |- _ => apply negb_false_iff in H
         | H : _ /\ _ |- _ => destruct H
         | H : _ \/ _ |- _ => destruct H
         | H : (_ =? _) = true |- _ => apply Z.eqb_eq in H
         | H : (_ =? _) = false |- _ => apply Z.eqb_neq in H
         | H : (_ <=? _) = true |- _ => apply Z.leb_le in H
         | H : (_ <=? _) = false |- _ => apply Z.leb_gt in H
         | H : (_ <? _) = true |- _ => apply Z.ltb_lt in H
         | H : (_ <? _) = false |- _ => apply Z.ltb_ge in H
         end.

Ltac Z_to_bool :=
  repeat match goal with
         | |- _ || _ = true => apply orb_true_iff
         | |- _ && _ = true => apply andb_true_iff
         | |- _ || _ = false => apply orb_false_iff
         | |- _ && _ = false => apply andb_false_iff
         | |- negb _ = true => apply negb_true_iff
         | |- negb _ = false => apply negb_false_iff
         | |- (_ =? _) = true => apply Z.eqb_eq
         | |- (_ =? _) = false => apply Z.eqb_neq
         | |- (_ <=? _) = true => apply Z.leb_le
         | |- (_ <=? _) = false => apply Z.leb_gt
         | |- (_ <? _) = true => apply Z.ltb_lt
         | |- (_ <? _) = false => apply Z.ltb_ge
         end.

(** The code points the encoder's alphabet is made of. *)
Lemma component_char_range (c : Z) :
  component_char c = true ->
  (65 <= c <= 90) \/ (97 <= c <= 122) \/ (48 <= c <= 57)
  \/ c = 45 \/ c = 95 \/ c = 46 \/ c = 33 \/ c = 126 \/ c = 42 \/ c = 39
  \/ c = 40 \/ c = 41 \/ c = 37.
Proof.
  unfold component_char, uri_unreserved, is_ascii_alpha, is_ascii_digit.
  intros H. bool_to_Z; lia.
Qed.

Lemma hex_digit_range (n : Z) :
  (48 <= hex_digit n <= 57) \/ (65 <= hex_digit n <= 70).
Proof.
  unfold hex_digit.
  pose proof (Z.mod_pos_bound n 16 ltac:(lia)).
  destruct (n mod 16 <? 10) eqn:E; bool_to_Z; lia.
Qed.

Lemma hex_digit_component (n : Z) : component_char (hex_digit n) = true.
Proof.
  unfold component_char, uri_unreserved, is_ascii_alpha, is_ascii_digit.
  destruct (hex_digit_range n) as [H|H].
  - replace ((48 <=? hex_digit n) && (hex_digit n <=? 57)) with true.
    + now rewrite !orb_true_r.
    + symmetry. Z_to_bool. split; Z_to_bool; lia.
  - replace ((65 <=? hex_digit n) && (hex_digit n <=? 90)) with true.
    + reflexivity.
    + symmetry. Z_to_bool. split; Z_to_bool; lia.
Qed.

Lemma percent_byte_component (b : Z) :
  Forall (fun c => component_char c = true) (percent_byte b).
Proof.
  unfold percent_byte. repeat constructor; apply hex_digit_component.
Qed.

Lemma percent_utf8_component (cp : Z) :
  Forall (fun c => component_char c = true) (percent_utf8 cp).
Proof.
  unfold percent_utf8. apply Forall_flat_map.
  apply Forall_forall. intros b _. apply percent_byte_component.
Qed.

(** Induction on a string two code units at a time, the way the encoder
    consumes a surrogate pair. *)
Lemma pair_induction (P : jsstring -> Prop) :
  P [] ->
  (forall c rest, P rest -> (forall d rest', rest = d :: rest' -> P rest') ->
                  P (c :: rest)) ->
  forall s, P s.
Proof.
  intros H0 Hstep s.
  assert (H : P s /\ (forall d rest', s = d :: rest' -> P rest')).
  { induction s as [|c s [IH1 IH2]].
    - split; [exact H0 | discriminate].
    - split.
      + apply Hstep; assumption.
      + intros d rest' E. inversion E; subst. exact IH1. }
  exact (proj1 H).
Qed.

Lemma encodeURIComponent_alphabet (s out : jsstring) :
  encodeURIComponent s = Return out ->
  Forall (fun c => component_char c = true) out.
Proof.
  revert out. induction s as [|c rest IH IH2] using pair_induction;
    intros out; simpl.
  - intros E; inversion E; constructor.
  - destruct (uri_unreserved c) eqn:Hu.
    + destruct (encodeURIComponent rest) eqn:E; try discriminate.
      intros H; inversion H; subst. constructor.
      * unfold component_char. now rewrite Hu.
      * now apply IH.
    + destruct (is_low_surrogate c); [discriminate|].
      destruct (is_high_surrogate c).
      * destruct rest as [|d rest']; [discriminate|].
        destruct (is_low_surrogate d); [|discriminate].
        destruct (encodeURIComponent rest') eqn:E; try discriminate.
        intros H; inversion H; subst. apply Forall_app. split.
        -- apply percent_utf8_component.
        -- now apply (IH2 d rest').
      * destruct (encodeURIComponent rest) eqn:E; try discriminate.
        intros H; inversion H; subst. apply Forall_app. split.
        -- apply percent_utf8_component.
        -- now apply IH.
Qed.


(* ================================================================== *)
(** * The URL constructor at work *)
(* ================================================================== *)

Example href_of_empty :
  URL_href [] (lit "things:///") = Return (lit "things:///").
Proof. reflexivity. Qed.

Example href_of_add :
  URL_href (lit "add") (lit "things:///") = Return (lit "things:///add").
Proof. reflexivity. Qed.

Example href_of_padded :
  URL_href (lit " show ") (lit "things:///") = Return (lit "things:///show").
Proof. reflexivity. Qed.

Example href_of_dot_segments :
  URL_href (lit "/x/../y/./z") (lit "things:///")
  = Return (lit "things:///y/z").
Proof. reflexivity. Qed.

Example href_of_space :
  URL_href (lit "a b") (lit "things:///") = Return (lit "things:///a%20b").
Proof. reflexivity. Qed.

Example href_of_query_and_fragment :
  URL_href (lit "add?x y#z w") (lit "things:///")
  = Return (lit "things:///add?x%20y#z%20w").
Proof. reflexivity. Qed.

Example href_of_authority :
  URL_href (lit "//user:pw@host:80/p") (lit "things:///")
  = Return (lit "things://user:pw@host:80/p").
Proof. reflexivity. Qed.

Example href_of_own_scheme :
  URL_href (lit "Other://h/p") (lit "things:///")
  = Return (lit "other://h/p").
Proof. reflexivity. Qed.

Example href_of_bad_host :
  URL_href (lit "//a b") (lit "things:///") = Throw (lit "Invalid URL").
Proof. reflexivity. Qed.

Example href_of_bad_port :
  URL_href (lit "//h:65536/") (lit "things:///") = Throw (lit "Invalid URL").
Proof. reflexivity. Qed.

Example href_of_special_scheme :
  URL_href (lit "http://example.com/") (lit "things:///") = NotModelled.
Proof. reflexivity. Qed.

Example href_without_base :
  URL_href (lit "add") [] = Throw (lit "Invalid URL").
Proof. reflexivity. Qed.

(* ================================================================== *)
(** * Invariants of the URL parser *)
(* ================================================================== *)

(** The parser and the serializer only ever write code points of the input,
    percent signs, hexadecimal digits, decimal digits and the delimiters of
    the URL syntax.  The section follows the state machine once for any set
    of code points [ok] closed under that; it is used for "anything" (which
    leaves the fact that the scheme is kept) and for "anything but a plus
    sign". *)
Section Alphabet.

Variable ok : Z -> Prop.
Hypothesis ok_percent : ok 37.
Hypothesis ok_hex : forall n, ok (hex_digit n).
Hypothesis ok_lower : forall c, ok c -> ok (ascii_lower c).
Hypothesis ok_beyond_ascii : forall c, 128 <= c -> ok c.
Hypothesis ok_digit : forall c, 48 <= c <= 57 -> ok c.
Hypothesis ok_delimiters : Forall ok (lit "-:/.@").
Hypothesis ok_marks : Forall ok (lit "?#").

Local Abbreviation within_opt := (within_opt ok).
Local Abbreviation url_within := (url_within ok).
Local Abbreviation kept := (kept ok).
Local Abbreviation kept_result := (kept_result ok).

Lemma percent_utf8_within (cp : Z) : Forall ok (percent_utf8 cp).
Proof.
  unfold percent_utf8. apply Forall_flat_map, Forall_forall.
  intros b _. unfold percent_byte. repeat constructor; auto.
Qed.

Lemma percent_encode_within (set : Z -> bool) (c : Z) :
  ok c -> Forall ok (percent_encode set c).
Proof.
  intros H. unfold percent_encode. destruct (set c).
  - apply percent_utf8_within.
  - repeat constructor; exact H.
Qed.

Lemma percent_encode_all_within (set : Z -> bool) (s : list Z) :
  Forall ok s -> Forall ok (flat_map (percent_encode set) s).
Proof.
  intros H. apply Forall_flat_map. revert H. apply Forall_impl.
  intros c. apply percent_encode_within.
Qed.

Lemma to_scalars_within (s : jsstring) :
  Forall ok s -> Forall ok (to_scalars s).
Proof.
  induction s as [|c rest IH IH2] using pair_induction; intros H.
  - constructor.
  - inversion H as [|? ? Hc Hrest]; subst. simpl.
    destruct (is_high_surrogate c) eqn:Hh.
    + destruct rest as [|d rest'].
      * repeat constructor. apply ok_beyond_ascii; lia.
      * destruct (is_low_surrogate d) eqn:Hl.
        -- constructor.
           ++ apply ok_beyond_ascii. unfold surrogate_pair.
              unfold is_high_surrogate, is_low_surrogate in *.
              bool_to_Z; lia.
           ++ apply (IH2 d rest' eq_refl). now inversion Hrest.
        -- constructor; [apply ok_beyond_ascii; lia | now apply IH].
    + destruct (is_low_surrogate c).
      * constructor; [apply ok_beyond_ascii; lia | now apply IH].
      * constructor; [exact Hc | now apply IH].
Qed.

Lemma strip_leading_within (s : list Z) :
  Forall ok s -> Forall ok (strip_leading s).
Proof.
  induction 1 as [|c s Hc Hs IH]; simpl; [constructor|].
  destruct (is_c0_or_space c); [exact IH | now constructor].
Qed.

Lemma filter_within (f : Z -> bool) (s : list Z) :
  Forall ok s -> Forall ok (filter f s).
Proof.
  intros H. apply Forall_forall. intros c Hin.
  apply filter_In in Hin. rewrite Forall_forall in H. now apply H.
Qed.

Lemma prepare_input_within (s : jsstring) :
  Forall ok s -> Forall ok (prepare_input s).
Proof.
  intros H. unfold prepare_input.
  apply filter_within, Forall_rev, strip_leading_within, Forall_rev,
    strip_leading_within, to_scalars_within, H.
Qed.

Lemma kept_refl (u : URLRecord) : kept u u.
Proof. split; auto. Qed.

Lemma kept_trans (u v t : URLRecord) : kept u v -> kept v t -> kept u t.
Proof. intros [E1 W1] [E2 W2]. split; [congruence | auto]. Qed.

Lemma fragment_state_kept (u : URLRecord) (input : list Z) :
  Forall ok input -> kept u (fragment_state u input).
Proof.
  intros Hin. split; [reflexivity|]. intros [].
  constructor; simpl; auto. now apply percent_encode_all_within.
Qed.

Lemma with_query_kept (u : URLRecord) (buffer : jsstring) :
  Forall ok buffer -> kept u (with_query u (Some buffer)).
Proof. intros Hb. split; [reflexivity|]. intros []. constructor; simpl; auto. Qed.

Lemma query_state_kept (input : list Z) :
  forall u buffer,
    Forall ok input -> Forall ok buffer -> kept u (query_state u buffer input).
Proof.
  induction input as [|c rest IH]; intros u buffer Hin Hb; simpl.
  - now apply with_query_kept.
  - inversion Hin; subst. destruct (c =? 35).
    + apply kept_trans with (with_query u (Some buffer));
        [now apply with_query_kept | now apply fragment_state_kept].
    + apply IH; auto. apply Forall_app. split; auto.
      now apply percent_encode_within.
Qed.

Lemma Forall_removelast {A} (P : A -> Prop) (l : list A) :
  Forall P l -> Forall P (removelast l).
Proof.
  induction 1 as [|x l Hx Hl IH]; simpl; [constructor|].
  destruct l; [constructor | constructor; auto].
Qed.

Lemma with_path_kept (u : URLRecord) (p : list jsstring) :
  (Forall (Forall ok) (url_path u) -> Forall (Forall ok) p) ->
  kept u (with_path u p).
Proof. intros Hp. split; [reflexivity|]. intros []. constructor; simpl; auto. Qed.

Lemma end_segment_kept (u : URLRecord) (buffer : jsstring) (at_slash : bool) :
  Forall ok buffer -> kept u (end_segment u buffer at_slash).
Proof.
  intros Hb. unfold end_segment, shorten.
  destruct (is_double_dot buffer); [|destruct (is_single_dot buffer)].
  - apply with_path_kept. intros Hp. destruct at_slash.
    + now apply Forall_removelast.
    + apply Forall_app. split; [now apply Forall_removelast|].
      repeat constructor.
  - destruct at_slash; [apply kept_refl|]. apply with_path_kept. intros Hp.
    apply Forall_app. split; [auto | repeat constructor].
  - apply with_path_kept. intros Hp. apply Forall_app. split; auto.
Qed.

Lemma path_state_kept (input : list Z) :
  forall u buffer,
    Forall ok input -> Forall ok buffer -> kept u (path_state u buffer input).
Proof.
  induction input as [|c rest IH]; intros u buffer Hin Hb; simpl.
  - now apply end_segment_kept.
  - inversion Hin; subst.
    destruct (c =? 47); [|destruct (c =? 63); [|destruct (c =? 35)]].
    + apply kept_trans with (end_segment u buffer true);
        [now apply end_segment_kept | apply IH; auto].
    + apply kept_trans with (end_segment u buffer false);
        [now apply end_segment_kept | apply query_state_kept; auto].
    + apply kept_trans with (end_segment u buffer false);
        [now apply end_segment_kept | now apply fragment_state_kept].
    + apply IH; auto. apply Forall_app. split; auto.
      now apply percent_encode_within.
Qed.

Lemma path_start_state_kept (u : URLRecord) (input : list Z) :
  Forall ok input -> kept u (path_start_state u input).
Proof.
  intros Hin. unfold path_start_state.
  destruct input as [|c rest]; [apply kept_refl|].
  inversion Hin; subst.
  destruct (c =? 63); [|destruct (c =? 35); [|destruct (c =? 47)]].
  - apply query_state_kept; auto.
  - now apply fragment_state_kept.
  - apply path_state_kept; auto.
  - apply path_state_kept; [exact Hin | constructor].
Qed.

Lemma end_port_kept (u : URLRecord) (buffer : jsstring) (input : list Z) :
  Forall ok input -> kept_result u (end_port u buffer input).
Proof.
  intros Hin u' E. unfold end_port in E. destruct buffer as [|d buffer].
  - inversion E; subst. now apply path_start_state_kept.
  - destruct (65535 <? digits_value (d :: buffer)); [discriminate|].
    inversion E; subst.
    apply kept_trans
      with (with_port u (Some (digits_value (d :: buffer))));
      [|now apply path_start_state_kept].
    split; [reflexivity|]. intros []. constructor; simpl; auto.
Qed.

Lemma port_state_kept (input : list Z) :
  forall u buffer, Forall ok input -> kept_result u (port_state u buffer input).
Proof.
  induction input as [|c rest IH]; intros u buffer Hin; simpl.
  - now apply end_port_kept.
  - inversion Hin; subst. destruct (is_ascii_digit c).
    + now apply IH.
    + destruct (ends_authority c); [now apply end_port_kept|].
      intros u' E; discriminate.
Qed.

Lemma end_host_kept (u : URLRecord) (buffer : list Z)
  (k : URLRecord -> parse_result) :
  Forall ok buffer -> (forall v, kept_result v (k v)) ->
  kept_result u (end_host u buffer k).
Proof.
  intros Hb Hk u' E. unfold end_host in E.
  destruct (host_parse buffer) as [h| |] eqn:Eh; try discriminate.
  apply kept_trans with (with_host u (Some h)); [|exact (Hk _ _ E)].
  split; [reflexivity|]. intros []. constructor; simpl; auto.
  unfold host_parse in Eh.
  assert (Hh : h = flat_map (percent_encode c0_control_set) buffer).
  { destruct buffer as [|c b].
    - simpl in Eh. now inversion Eh.
    - destruct (c =? 91) eqn:E91.
      + apply Z.eqb_eq in E91; subst c.
        destruct (last (91 :: b) 0 =? 93); discriminate.
      + assert (Eh' : (if existsb forbidden_host_code_point (c :: b)
                       then Throw []
                       else Return (flat_map (percent_encode c0_control_set)
                                             (c :: b))) = Return h).
        { destruct c as [|p|p]; try exact Eh.
          do 7 (destruct p as [p|p|]; try exact Eh).
          discriminate. }
        destruct (existsb forbidden_host_code_point (c :: b));
          [discriminate | now inversion Eh']. }
  subst h. now apply percent_encode_all_within.
Qed.

Lemma host_state_kept (input : list Z) :
  forall u buffer inside,
    Forall ok input -> Forall ok buffer ->
    kept_result u (host_state u buffer inside input).
Proof.
  induction input as [|c rest IH]; intros u buffer inside Hin Hb; simpl.
  - apply end_host_kept; auto. intros v u' E. inversion E; subst.
    apply kept_refl.
  - inversion Hin; subst. destruct ((c =? 58) && negb inside).
    + destruct buffer; [intros u' E; discriminate|].
      apply end_host_kept; auto. intros v. now apply port_state_kept.
    + destruct (ends_authority c).
      * apply end_host_kept; auto. intros v u' E. inversion E; subst.
        exact (path_start_state_kept v (c :: rest) Hin).
      * apply IH; auto. apply Forall_app. split; auto.
Qed.

Lemma credentials_kept (buffer : list Z) :
  forall u seen, Forall ok buffer -> kept u (fst (credentials u seen buffer)).
Proof.
  induction buffer as [|c rest IH]; intros u seen Hb; simpl.
  - apply kept_refl.
  - inversion Hb; subst. destruct ((c =? 58) && negb seen).
    + now apply IH.
    + destruct seen.
      * eapply kept_trans; [|apply IH; assumption].
        split; [reflexivity|]. intros []. constructor; simpl; auto.
        apply Forall_app. split; auto. now apply percent_encode_within.
      * eapply kept_trans; [|apply IH; assumption].
        split; [reflexivity|]. intros []. constructor; simpl; auto.
        apply Forall_app. split; auto. now apply percent_encode_within.
Qed.

Lemma authority_state_kept (input : list Z) :
  forall u buffer at_seen seen,
    Forall ok input -> Forall ok buffer ->
    kept_result u (authority_state u buffer at_seen seen input).
Proof.
  induction input as [|c rest IH]; intros u buffer at_seen seen Hin Hb; simpl.
  - destruct (at_seen && match buffer with [] => true | _ => false end);
      [intros u' E; discriminate|].
    apply host_state_kept; auto.
  - inversion Hin; subst. destruct (c =? 64).
    + intros u' E.
      match type of E with
      | context [credentials u seen ?b] =>
          pose proof (credentials_kept b u seen) as Hc;
          destruct (credentials u seen b) as [v seen']
      end.
      apply kept_trans with v.
      * apply Hc. destruct at_seen; auto.
        repeat constructor; auto; apply ok_digit; lia.
      * exact (IH v [] true seen' ltac:(auto) ltac:(constructor) u' E).
    + destruct (ends_authority c).
      * destruct (at_seen && match buffer with [] => true | _ => false end);
          [intros u' E; discriminate|].
        apply host_state_kept; auto. apply Forall_app. split; auto.
      * apply IH; auto. apply Forall_app. split; auto.
Qed.

Lemma scheme_state_within (input : list Z) :
  forall buffer scheme rest,
    Forall ok input -> Forall ok buffer ->
    scheme_state buffer input = Some (scheme, rest) ->
    Forall ok scheme /\ Forall ok rest.
Proof.
  induction input as [|c input IH]; intros buffer scheme rest Hin Hb; simpl;
    [discriminate|].
  inversion Hin; subst.
  destruct (is_ascii_alpha c || is_ascii_digit c || (c =? 43) || (c =? 45)
            || (c =? 46)).
  - apply IH; auto. apply Forall_app. split; auto.
  - destruct (c =? 58); [|discriminate].
    intros E; inversion E; subst. auto.
Qed.

Lemma scheme_start_state_within (input : list Z) (scheme : jsstring)
  (rest : list Z) :
  Forall ok input -> scheme_start_state input = Some (scheme, rest) ->
  Forall ok scheme /\ Forall ok rest.
Proof.
  intros Hin. destruct input as [|c input]; simpl; [discriminate|].
  inversion Hin; subst. destruct (is_ascii_alpha c); [|discriminate].
  apply scheme_state_within; auto.
Qed.

Lemma blank_url_within (scheme : jsstring) :
  Forall ok scheme -> url_within (blank_url scheme).
Proof. intros H. constructor; simpl; auto. Qed.

Lemma relative_state_kept (base : URLRecord) (input : list Z) :
  Forall ok input -> kept_result base (relative_state base input).
Proof.
  intros Hin u E. unfold relative_state in E.
  assert (Hi : kept base (with_fragment base None)).
  { split; [reflexivity|]. intros []. constructor; simpl; auto. }
  destruct input as [|c rest]; [injection E as <-; exact Hi|].
  inversion Hin; subst.
  destruct (c =? 47).
  - assert (Hp : kept base
                   (with_query (with_path (with_fragment base None) []) None)).
    { split; [reflexivity|]. intros []. constructor; simpl; auto. }
    destruct rest as [|d rest'].
    + injection E as <-. eapply kept_trans; [exact Hp|].
      apply (path_state_kept []); auto.
    + destruct (d =? 47) eqn:Ed.
      * apply Z.eqb_eq in Ed; subst d.
        assert (Hr : Forall ok rest') by now inversion H2.
        pose proof (authority_state_kept rest' (blank_url (url_scheme base))
                      [] false false Hr ltac:(constructor) u E) as [Es Hw].
        split; [exact Es|]. intros []. apply Hw. now apply blank_url_within.
      * assert (E' : Parsed (path_state
                       (with_query (with_path (with_fragment base None) [])
                                   None) [] (d :: rest')) = Parsed u).
        { destruct d as [|q|q]; try exact E.
          do 6 (destruct q as [q|q|]; try exact E). discriminate. }
        injection E' as <-. eapply kept_trans; [exact Hp|].
        apply (path_state_kept (d :: rest')); auto.
  - destruct (c =? 63); [|destruct (c =? 35)]; injection E as <-.
    + eapply kept_trans; [exact Hi|]. apply (query_state_kept rest); auto.
    + eapply kept_trans; [exact Hi|]. now apply fragment_state_kept.
    + apply kept_trans
        with (with_query (with_path (with_fragment base None)
                                    (shorten (url_path base))) None).
      * split; [reflexivity|]. intros []. constructor; simpl; auto.
        now apply Forall_removelast.
      * apply (path_state_kept (c :: rest)); auto.
Qed.

Lemma basic_URL_parse_kept (input : jsstring) (base : option URLRecord)
  (u : URLRecord) :
  Forall ok input ->
  basic_URL_parse input base = Parsed u ->
  (is_special_scheme (url_scheme u) = false
   \/ exists b, base = Some b /\ url_scheme u = url_scheme b)
  /\ ((forall b, base = Some b -> url_within b) -> url_within u).
Proof.
  intros Hin E. unfold basic_URL_parse in E.
  pose proof (prepare_input_within input Hin) as Hp.
  destruct (scheme_start_state (prepare_input input)) as [[scheme rest]|] eqn:Es.
  - destruct (scheme_start_state_within _ _ _ Hp Es) as [Hs Hr].
    destruct (is_special_scheme scheme) eqn:Esp; [discriminate|].
    assert (K : kept (blank_url scheme) u).
    { destruct rest as [|c rest]; [discriminate|].
      destruct (c =? 47) eqn:Ec.
      - apply Z.eqb_eq in Ec; subst c. inversion Hr; subst.
        destruct rest as [|d rest'].
        + injection E as <-. apply (path_state_kept []); auto.
        + destruct (d =? 47) eqn:Ed.
          * apply Z.eqb_eq in Ed; subst d.
            apply (authority_state_kept rest' (blank_url scheme) [] false
                     false); auto. now inversion H2.
          * assert (E' : Parsed (path_state (blank_url scheme) []
                                            (d :: rest')) = Parsed u).
            { destruct d as [|q|q]; try exact E.
              do 6 (destruct q as [q|q|]; try exact E). discriminate. }
            injection E' as <-. apply (path_state_kept (d :: rest')); auto.
      - exfalso. destruct c as [|q|q]; try discriminate.
        do 6 (destruct q as [q|q|]; try discriminate). }
    destruct K as [Ek Hw]. split.
    + left. now rewrite Ek.
    + intros _. apply Hw. now apply blank_url_within.
  - destruct base as [b|]; [|discriminate].
    destruct (relative_state_kept b _ Hp u E) as [Ek Hw]. split.
    + right. exists b. auto.
    + intros Hb. apply Hw, Hb. reflexivity.
Qed.

Lemma URL_new_kept (url base : jsstring) (u : URLRecord) :
  Forall ok url -> Forall ok base ->
  URL_new url base = Return u ->
  is_special_scheme (url_scheme u) = false /\ url_within u.
Proof.
  intros Hu Hb E. unfold URL_new in E.
  destruct (basic_URL_parse base None) as [b| |] eqn:Eb; try discriminate.
  destruct (basic_URL_parse url (Some b)) as [v| |] eqn:Ev; try discriminate.
  inversion E; subst v.
  destruct (basic_URL_parse_kept base None b Hb Eb) as [Sb Wb].
  destruct (basic_URL_parse_kept url (Some b) u Hu Ev) as [Su Wu].
  assert (Nb : is_special_scheme (url_scheme b) = false).
  { destruct Sb as [H|(x & Hx & _)]; [exact H | discriminate]. }
  split.
  - destruct Su as [H|(x & Hx & Ex)]; [exact H|].
    inversion Hx; subst x. now rewrite Ex.
  - apply Wu. intros x Hx. inversion Hx; subst x. apply Wb.
    intros y Hy; discriminate.
Qed.

(** The serializer stays within the alphabet too. *)
Lemma lit_within (s : string) :
  (forall c, In c (lit s) -> ok c) -> Forall ok (lit s).
Proof. intros H. now apply Forall_forall. Qed.

Lemma decimal_within (n : Z) : Forall ok (decimal n).
Proof.
  assert (Hd : forall d, Forall ok (lit (NilEmpty.string_of_uint d))).
  { induction d; simpl; try constructor; auto; apply ok_digit; simpl; lia. }
  assert (Hz : forall d, Forall ok (lit (NilZero.string_of_uint d))).
  { intros d. destruct d; try apply Hd.
    simpl. repeat constructor. apply ok_digit; simpl; lia. }
  unfold decimal. destruct (Z.to_int n) as [d|d]; simpl.
  - apply Hz.
  - constructor; [|apply Hz].
    now inversion ok_delimiters.
Qed.

Lemma href_head_within (u : URLRecord) :
  url_within u -> Forall ok (href_head u).
Proof.
  intros [Hs Hu Hp Hh Hpath Hq Hf].
  assert (D : forall c, In c (lit "-:/.@") -> ok c).
  { now apply Forall_forall. }
  unfold href_head. rewrite !Forall_app. repeat split.
  - exact Hs.
  - repeat constructor. apply D. simpl. tauto.
  - unfold serialize_authority. destruct (url_host u) as [h|].
    + rewrite !Forall_app. repeat split.
      * repeat constructor; apply D; simpl; tauto.
      * destruct (url_username u) as [|a user], (url_password u) as [|b pass];
          rewrite ?Forall_app; repeat split; auto;
          repeat constructor; apply D; simpl; tauto.
      * exact Hh.
      * destruct (url_port u); [|constructor].
        apply Forall_app. split; [|apply decimal_within].
        repeat constructor; apply D; simpl; tauto.
    + destruct (url_path u) as [|[|] [|]]; try constructor;
        repeat constructor; apply D; simpl; tauto.
  - unfold serialize_path. apply Forall_flat_map.
    revert Hpath. apply Forall_impl. intros seg Hseg.
    apply Forall_app. split; auto.
    repeat constructor; apply D; simpl; tauto.
Qed.


End Alphabet.

(** The constructor never hands back a record with a special scheme: such
    inputs are outside this development. *)
Lemma URL_new_not_special (url base : jsstring) (u : URLRecord) :
  URL_new url base = Return u -> is_special_scheme (url_scheme u) = false.
Proof.
  intros E.
  eapply (URL_new_kept (fun _ : Z => True)); [.. | exact E];
    auto; apply Forall_forall; auto.
Qed.



(** ** The [search] setter on what [buildUrl] gives it *)

Lemma query_char_range (c : Z) :
  query_char c = true ->
  33 <= c <= 126 /\ c <> 34 /\ c <> 35 /\ c <> 43 /\ c <> 60 /\ c <> 62
  /\ c <> 63.
Proof.
  unfold query_char. intros H. apply orb_true_iff in H.
  destruct H as [H|H]; [apply orb_true_iff in H; destruct H as [H|H]|].
  - apply component_char_range in H. lia.
  - apply Z.eqb_eq in H. lia.
  - apply Z.eqb_eq in H. lia.
Qed.

Lemma to_scalars_ascii (s : jsstring) :
  Forall (fun c => query_char c = true) s -> to_scalars s = s.
Proof.
  induction 1 as [|c s Hc Hs IH]; [reflexivity|].
  apply query_char_range in Hc.
  destruct s as [|d s'].
  - simpl. replace (is_high_surrogate c) with false;
      [replace (is_low_surrogate c) with false; [reflexivity|]|];
      symmetry; unfold is_high_surrogate, is_low_surrogate; Z_to_bool; lia.
  - change (to_scalars (c :: d :: s'))
      with (if is_high_surrogate c
            then if is_low_surrogate d
                 then surrogate_pair c d :: to_scalars s'
                 else 65533 :: to_scalars (d :: s')
            else if is_low_surrogate c then 65533 :: to_scalars (d :: s')
                 else c :: to_scalars (d :: s')).
    replace (is_high_surrogate c) with false;
      [replace (is_low_surrogate c) with false; [now rewrite IH|]|];
      symmetry; unfold is_high_surrogate, is_low_surrogate; Z_to_bool; lia.
Qed.

Lemma query_state_stable (s : jsstring) :
  Forall (fun c => query_char c = true) s ->
  flat_map (percent_encode query_set)
    (filter (fun c => negb (is_tab_or_newline c)) (to_scalars s)) = s.
Proof.
  intros H. rewrite (to_scalars_ascii s H).
  induction H as [|c s Hc Hs IH]; [reflexivity|].
  apply query_char_range in Hc. simpl.
  replace (is_tab_or_newline c) with false.
  - simpl. rewrite IH. unfold percent_encode.
    replace (query_set c) with false; [reflexivity|].
    symmetry. unfold query_set, c0_control_set, member. simpl.
    Z_to_bool. repeat split; Z_to_bool; lia.
  - symmetry. unfold is_tab_or_newline, member. simpl.
    Z_to_bool. repeat split; Z_to_bool; lia.
Qed.

Lemma URL_set_search_stable (u : URLRecord) (q : jsstring) :
  is_special_scheme (url_scheme u) = false ->
  Forall (fun c => query_char c = true) q ->
  URL_set_search u (lit "?" ++ q) = with_query u (Some q).
Proof.
  intros Hs Hq. unfold URL_set_search.
  change (lit "?" ++ q) with (63 :: q). cbv iota. rewrite Hs.
  now rewrite query_state_stable.
Qed.

Lemma URL_toString_with_query (u : URLRecord) (q : jsstring) :
  URL_toString (with_query u (Some q)) =
  href_head u ++ lit "?" ++ q ++ href_fragment u.
Proof.
  unfold URL_toString, href_query, href_head, href_fragment,
    serialize_authority. simpl. now rewrite <- !app_assoc.
Qed.

(* ================================================================== *)
(** * Properties of [buildUrl] *)
(* ================================================================== *)

Lemma component_is_query_char (s : jsstring) :
  Forall (fun c => component_char c = true) s -> query_string s.
Proof.
  apply Forall_impl. intros c H. unfold query_char. now rewrite H.
Qed.

Lemma encoded_query_string (s out : jsstring) :
  encodeURIComponent s = Return out -> query_string out.
Proof.
  intros E. apply component_is_query_char.
  exact (encodeURIComponent_alphabet s out E).
Qed.

Lemma pair_query_string (k e : jsstring) :
  query_string k -> query_string e -> query_string (k ++ lit "=" ++ e).
Proof.
  intros Hk He. unfold query_string. rewrite !Forall_app.
  repeat split; auto. repeat constructor.
Qed.

Lemma entry_parts_alphabet (params : list (jsstring * value)) :
  forall parts, entry_parts params = Return parts ->
                Forall query_string parts.
Proof.
  induction params as [|[key v] rest IH]; intros parts; simpl.
  - intros E; inversion E; constructor.
  - destruct (nullish v); [apply IH|].
    destruct (encodeURIComponent key) as [k| |] eqn:Ek; try discriminate.
    destruct (encodeURIComponent (toString v)) as [e| |] eqn:Ee;
      try discriminate.
    destruct (entry_parts rest) as [ps| |]; try discriminate.
    cbn [and_then]. intros E; inversion E; subst.
    constructor; [|now apply IH].
    apply pair_query_string; eapply encoded_query_string; eauto.
Qed.

Lemma token_parts_alphabet (this : t) (command : jsstring) :
  forall parts, token_parts this command = Return parts ->
                Forall query_string parts.
Proof.
  intros parts. unfold token_parts.
  destruct (authToken this) as [[|c token]|];
    try (intros E; inversion E; constructor).
  destruct (negb (str_eqb command (lit "show")));
    [|intros E; inversion E; constructor].
  destruct (encodeURIComponent (c :: token)) as [e| |] eqn:Ee;
    try discriminate.
  simpl. intros E; inversion E; subst. constructor; [|constructor].
  apply (pair_query_string (lit "auth-token") e).
  - repeat constructor.
  - eapply encoded_query_string; eauto.
Qed.

Lemma queryParts_alphabet (this : t) (command : jsstring)
  (params : list (jsstring * value)) (parts : list jsstring) :
  queryParts this command params = Return parts ->
  query_string (join (lit "&") parts).
Proof.
  unfold queryParts.
  destruct (token_parts this command) as [first| |] eqn:Et; try discriminate.
  destruct (entry_parts params) as [others| |] eqn:Ee; try discriminate.
  simpl. intros E; inversion E; subst.
  apply Forall_join; [repeat constructor|].
  apply Forall_app. split.
  - eapply token_parts_alphabet; eauto.
  - eapply entry_parts_alphabet; eauto.
Qed.

(** [buildUrl] in one equation, once the constructor has accepted the
    command. *)
Lemma buildUrl_parsed (this : t) (command : jsstring)
  (params : list (jsstring * value)) (u : URLRecord) :
  URL_new command (baseUrl this) = Return u ->
  buildUrl this command params =
  match queryParts this command params with
  | Return parts => Return (href_with u parts)
  | Throw message => Throw (lit "Failed to build Things URL: " ++ message)
  | NotModelled => NotModelled
  end.
Proof.
  intros Eu. unfold buildUrl. rewrite Eu. cbn [and_then].
  destruct (queryParts this command params) as [parts| |] eqn:Eq;
    cbn [and_then]; try reflexivity.
  destruct parts as [|p parts]; [reflexivity|].
  rewrite URL_set_search_stable.
  - now rewrite URL_toString_with_query.
  - eapply URL_new_not_special; eauto.
  - eapply queryParts_alphabet; eauto.
Qed.

(** What a returned URL is made of. *)
Lemma buildUrl_shape (this : t) (command : jsstring)
  (params : list (jsstring * value)) (url : jsstring) :
  buildUrl this command params = Return url ->
  exists u parts,
    URL_new command (baseUrl this) = Return u
    /\ queryParts this command params = Return parts
    /\ url = href_with u parts.
Proof.
  intros E.
  destruct (URL_new command (baseUrl this)) as [u| |] eqn:Eu.
  - rewrite (buildUrl_parsed this command params u Eu) in E.
    destruct (queryParts this command params) as [parts| |]; try discriminate.
    exists u, parts. inversion E; auto.
  - unfold buildUrl in E. rewrite Eu in E. discriminate.
  - unfold buildUrl in E. rewrite Eu in E. discriminate.
Qed.





(** ** Reading the parameters back *)

Lemma take_until_stop (c : Z) (a b : jsstring) :
  ~ In c a -> take_until c (a ++ c :: b) = a.
Proof.
  induction a as [|x a IH]; simpl; intros H.
  - now rewrite Z.eqb_refl.
  - destruct (x =? c) eqn:E; [apply Z.eqb_eq in E; tauto|].
    rewrite IH; tauto.
Qed.

Lemma take_until_none (c : Z) (a : jsstring) :
  ~ In c a -> take_until c a = a.
Proof.
  induction a as [|x a IH]; simpl; intros H; [reflexivity|].
  destruct (x =? c) eqn:E; [apply Z.eqb_eq in E; tauto|].
  rewrite IH; tauto.
Qed.

Lemma drop_until_stop (c : Z) (a b : jsstring) :
  ~ In c a -> drop_until c (a ++ c :: b) = Some b.
Proof.
  induction a as [|x a IH]; simpl; intros H.
  - now rewrite Z.eqb_refl.
  - destruct (x =? c) eqn:E; [apply Z.eqb_eq in E; tauto|].
    apply IH; tauto.
Qed.

Lemma drop_until_none (c : Z) (a : jsstring) :
  ~ In c a -> drop_until c a = None.
Proof.
  induction a as [|x a IH]; simpl; intros H; [reflexivity|].
  destruct (x =? c) eqn:E; [apply Z.eqb_eq in E; tauto|].
  apply IH; tauto.
Qed.

Lemma split_on_none (c : Z) (a : jsstring) :
  ~ In c a -> split_on c a = [a].
Proof.
  induction a as [|x a IH]; simpl; intros H; [reflexivity|].
  destruct (x =? c) eqn:E; [apply Z.eqb_eq in E; tauto|].
  rewrite IH; tauto.
Qed.

Lemma split_on_app (c : Z) (a b : jsstring) :
  ~ In c a -> split_on c (a ++ c :: b) = a :: split_on c b.
Proof.
  induction a as [|x a IH]; simpl; intros H.
  - now rewrite Z.eqb_refl.
  - destruct (x =? c) eqn:E; [apply Z.eqb_eq in E; tauto|].
    rewrite IH; tauto.
Qed.

Lemma split_on_join (c : Z) (parts : list jsstring) :
  parts <> [] -> Forall (fun p => ~ In c p) parts ->
  split_on c (join [c] parts) = parts.
Proof.
  intros Hne H. revert Hne.
  induction H as [|p parts Hp Hparts IH]; intros Hne;
    [exfalso; now apply Hne|].
  destruct parts as [|q parts].
  - simpl. now apply split_on_none.
  - change (join [c] (p :: q :: parts)) with (p ++ c :: join [c] (q :: parts)).
    rewrite split_on_app by assumption. f_equal. apply IH. discriminate.
Qed.

Lemma parse_pair_glue (k e : jsstring) :
  ~ In 61 k -> parse_pair (glue (k, e)) = (k, e).
Proof.
  intros H. unfold parse_pair, glue. simpl fst. simpl snd.
  change (lit "=" ++ e) with (61 :: e).
  now rewrite take_until_stop, drop_until_stop.
Qed.

Lemma encoded_not_In (s : jsstring) (c : Z) :
  encoded s -> component_char c = false -> ~ In c s.
Proof.
  intros H Hc Hin. unfold encoded in H. rewrite Forall_forall in H.
  specialize (H c Hin). congruence.
Qed.

Lemma glue_pieces (k e : jsstring) :
  encoded k -> encoded e ->
  glue (k, e) <> [] /\ ~ In 38 (glue (k, e)) /\ ~ In 35 (glue (k, e)).
Proof.
  intros Hk He. unfold glue. simpl fst. simpl snd.
  change (lit "=" ++ e) with (61 :: e). split; [destruct k; discriminate|].
  split; intros Hin; apply in_app_or in Hin;
    destruct Hin as [Hin|[Hin|Hin]]; try discriminate;
    revert Hin; now apply encoded_not_In.
Qed.

Lemma searchParams_of_pairs (head : jsstring)
  (pairs : list (jsstring * jsstring)) :
  ~ In 63 head -> ~ In 35 head ->
  Forall (fun p => encoded (fst p) /\ encoded (snd p)) pairs ->
  searchParams (head ++ match map glue pairs with
                        | [] => []
                        | parts => lit "?" ++ join (lit "&") parts
                        end) = pairs.
Proof.
  intros H63 H35 Hp. unfold searchParams.
  destruct pairs as [|p pairs].
  - simpl. rewrite app_nil_r, take_until_none, drop_until_none; auto.
  - assert (Hparts : Forall (fun s => s <> [] /\ ~ In 38 s /\ ~ In 35 s)
                            (map glue (p :: pairs))).
    { apply Forall_map. revert Hp. apply Forall_impl.
      intros [k e] [Hk He]. now apply glue_pieces. }
    cbn [map] in *. set (parts := glue p :: map glue pairs) in *.
    change (lit "?" ++ join (lit "&") parts)
      with (63 :: join (lit "&") parts).
    assert (N35 : ~ In 35 (head ++ 63 :: join (lit "&") parts)).
    { intros Hin. apply in_app_or in Hin. destruct Hin as [Hin|[Hin|Hin]].
      - tauto.
      - discriminate.
      - assert (F : Forall (fun c => c <> 35) (join (lit "&") parts)).
        { apply Forall_join; [repeat constructor; discriminate|].
          revert Hparts. apply Forall_impl. intros s (_ & _ & Hs).
          apply Forall_forall. intros c Hc ->. tauto. }
        rewrite Forall_forall in F. exact (F 35 Hin eq_refl). }
    rewrite take_until_none by exact N35.
    rewrite drop_until_stop by exact H63.
    change (lit "&") with [38].
    rewrite split_on_join.
    + rewrite forallb_filter_id.
      * unfold parts. change (glue p :: map glue pairs)
          with (map glue (p :: pairs)). rewrite map_map.
        rewrite <- (map_id (p :: pairs)) at 2.
        apply map_ext_in. intros [k e] Hin.
        rewrite Forall_forall in Hp. destruct (Hp _ Hin) as [Hk _].
        apply parse_pair_glue. simpl in Hk.
        now apply encoded_not_In.
      * apply forallb_forall. intros s Hin. rewrite Forall_forall in Hparts.
        destruct (Hparts s Hin) as [Hs _]. destruct s; congruence.
    + discriminate.
    + revert Hparts. apply Forall_impl. tauto.
Qed.

Lemma unreserved_not_surrogate (c : Z) :
  uri_unreserved c = true ->
  is_high_surrogate c = false /\ is_low_surrogate c = false.
Proof.
  intros H.
  assert (R : component_char c = true)
    by (unfold component_char; now rewrite H).
  apply component_char_range in R.
  unfold is_high_surrogate, is_low_surrogate.
  split; Z_to_bool; lia.
Qed.

Lemma encodeURIComponent_total (s : jsstring) :
  well_formed s = true -> exists out, encodeURIComponent s = Return out.
Proof.
  induction s as [|c rest IH IH2] using pair_induction; intros H.
  - exists []. reflexivity.
  - simpl in H. simpl. destruct (uri_unreserved c) eqn:Hu.
    + destruct (unreserved_not_surrogate c Hu) as [Hh Hl].
      rewrite Hh, Hl in H. simpl in H.
      destruct (IH H) as [out ->]. eauto.
    + destruct (is_high_surrogate c) eqn:Hh.
      * assert (Hl : is_low_surrogate c = false).
        { unfold is_high_surrogate, is_low_surrogate in *.
          bool_to_Z. Z_to_bool. lia. }
        rewrite Hl. destruct rest as [|d rest']; [discriminate|].
        apply andb_true_iff in H. destruct H as [Hd H].
        rewrite Hd. destruct (IH2 d rest' eq_refl H) as [out ->]. eauto.
      * apply andb_true_iff in H. destruct H as [Hl H].
        apply negb_true_iff in Hl. rewrite Hl.
        destruct (IH H) as [out ->]. eauto.
Qed.

(** The encoder writes a percent sign for every code unit it does not
    copy, so an output without one is the input. *)
Lemma percent_utf8_head (cp : Z) : exists rest, percent_utf8 cp = 37 :: rest.
Proof.
  unfold percent_utf8, utf8.
  destruct (cp <? 128); [|destruct (cp <? 2048); [|destruct (cp <? 65536)]];
    simpl; eauto.
Qed.

Lemma encodeURIComponent_plain (s out : jsstring) :
  encodeURIComponent s = Return out -> ~ In 37 out -> s = out.
Proof.
  revert out. induction s as [|c rest IH IH2] using pair_induction;
    intros out; simpl.
  - intros E _. now inversion E.
  - destruct (uri_unreserved c).
    + destruct (encodeURIComponent rest) as [o| |]; try discriminate.
      intros E Hn. inversion E; subst. f_equal. apply IH; auto.
      intros Hin. apply Hn. now right.
    + destruct (is_low_surrogate c); [discriminate|].
      destruct (is_high_surrogate c).
      * destruct rest as [|d rest']; [discriminate|].
        destruct (is_low_surrogate d); [|discriminate].
        destruct (encodeURIComponent rest') as [o| |]; try discriminate.
        intros E Hn. inversion E; subst. exfalso. apply Hn.
        destruct (percent_utf8_head (surrogate_pair c d)) as [r ->].
        now left.
      * destruct (encodeURIComponent rest) as [o| |]; try discriminate.
        intros E Hn. inversion E; subst. exfalso. apply Hn.
        destruct (percent_utf8_head c) as [r ->]. now left.
Qed.

(** ** Query parts and query pairs *)

Lemma entry_parts_pairs (params : list (jsstring * value)) :
  entry_parts params =
  let! pairs := entry_pairs params in Return (map glue pairs).
Proof.
  induction params as [|[key v] rest IH]; [reflexivity|].
  cbn [entry_parts entry_pairs]. destruct (nullish v); [exact IH|].
  destruct (encodeURIComponent key) as [k| |]; try reflexivity.
  destruct (encodeURIComponent (toString v)) as [e| |]; try reflexivity.
  cbn [and_then]. rewrite IH.
  destruct (entry_pairs rest); reflexivity.
Qed.

Lemma token_parts_pairs (this : t) (command : jsstring) :
  token_parts this command =
  let! pairs := token_pairs this command in Return (map glue pairs).
Proof.
  unfold token_parts, token_pairs.
  destruct (authToken this) as [[|c token]|]; try reflexivity.
  destruct (negb (str_eqb command (lit "show"))); [|reflexivity].
  destruct (encodeURIComponent (c :: token)); reflexivity.
Qed.

Lemma queryParts_pairs (this : t) (command : jsstring)
  (params : list (jsstring * value)) :
  queryParts this command params =
  let! pairs := queryPairs this command params in Return (map glue pairs).
Proof.
  unfold queryParts, queryPairs.
  rewrite token_parts_pairs, entry_parts_pairs.
  destruct (token_pairs this command) as [first| |]; try reflexivity.
  destruct (entry_pairs params) as [others| |]; try reflexivity.
  cbn [and_then]. now rewrite map_app.
Qed.

Lemma entry_pairs_encoded (params : list (jsstring * value)) :
  forall pairs, entry_pairs params = Return pairs ->
                Forall encoded_pair pairs.
Proof.
  induction params as [|[key v] rest IH]; intros pairs;
    cbn [entry_pairs].
  - intros E; inversion E; constructor.
  - destruct (nullish v); [apply IH|].
    destruct (encodeURIComponent key) as [k| |] eqn:Ek; try discriminate.
    destruct (encodeURIComponent (toString v)) as [e| |] eqn:Ee;
      try discriminate.
    destruct (entry_pairs rest) as [ps| |]; try discriminate.
    cbn [and_then]. intros E; inversion E; subst.
    constructor; [|now apply IH].
    split; simpl; eapply encodeURIComponent_alphabet; eauto.
Qed.

Lemma token_pairs_encoded (this : t) (command : jsstring) :
  forall pairs, token_pairs this command = Return pairs ->
                Forall encoded_pair pairs.
Proof.
  intros pairs. unfold token_pairs.
  destruct (authToken this) as [[|c token]|];
    try (intros E; inversion E; constructor).
  destruct (negb (str_eqb command (lit "show")));
    [|intros E; inversion E; constructor].
  destruct (encodeURIComponent (c :: token)) as [e| |] eqn:Ee;
    try discriminate.
  cbn [and_then]. intros E; inversion E; subst.
  constructor; [|constructor]. split; simpl.
  - repeat constructor.
  - eapply encodeURIComponent_alphabet; eauto.
Qed.

Lemma queryPairs_encoded (this : t) (command : jsstring)
  (params : list (jsstring * value)) (pairs : list (jsstring * jsstring)) :
  queryPairs this command params = Return pairs -> Forall encoded_pair pairs.
Proof.
  unfold queryPairs.
  destruct (token_pairs this command) as [first| |] eqn:Et; try discriminate.
  destruct (entry_pairs params) as [others| |] eqn:Ee; try discriminate.
  cbn [and_then]. intros E; inversion E; subst. apply Forall_app. split.
  - eapply token_pairs_encoded; eauto.
  - eapply entry_pairs_encoded; eauto.
Qed.

(** [buildUrl] for such a command, pair by pair. *)
Lemma buildUrl_plain (this : t) (command head : jsstring)
  (params : list (jsstring * value)) :
  plain_command command (baseUrl this) head ->
  buildUrl this command params =
  match queryPairs this command params with
  | Return pairs =>
      Return (head ++ match map glue pairs with
                      | [] => []
                      | parts => lit "?" ++ join (lit "&") parts
                      end)
  | Throw message => Throw (lit "Failed to build Things URL: " ++ message)
  | NotModelled => NotModelled
  end.
Proof.
  intros (u & Eu & Eh & Eq & Ef & _).
  rewrite (buildUrl_parsed this command params u Eu), queryParts_pairs.
  destruct (queryPairs this command params) as [pairs| |]; try reflexivity.
  cbn [and_then]. unfold href_with, href_query, href_fragment.
  rewrite Eh, Eq, Ef, app_nil_r. destruct (map glue pairs); reflexivity.
Qed.

Lemma buildUrl_searchParams (this : t) (command head : jsstring)
  (params : list (jsstring * value)) (url : jsstring) :
  plain_command command (baseUrl this) head ->
  buildUrl this command params = Return url ->
  queryPairs this command params = Return (searchParams url).
Proof.
  intros Hplain E. rewrite (buildUrl_plain _ _ _ _ Hplain) in E.
  destruct Hplain as (u & _ & _ & _ & _ & H63 & H35).
  destruct (queryPairs this command params) as [pairs| |] eqn:Ep;
    try discriminate.
  inversion E; subst. f_equal. symmetry.
  apply searchParams_of_pairs; auto.
  eapply queryPairs_encoded; eauto.
Qed.


Lemma entry_pairs_origin (params : list (jsstring * value)) :
  forall pairs k e,
    entry_pairs params = Return pairs -> In (k, e) pairs ->
    exists key v,
      In (key, v) params /\ nullish v = false
      /\ encodeURIComponent key = Return k
      /\ encodeURIComponent (toString v) = Return e.
Proof.
  induction params as [|[key' v'] rest IH]; intros pairs k e E Hin;
    cbn [entry_pairs] in E.
  - inversion E; subst. contradiction.
  - destruct (nullish v') eqn:Hv.
    + destruct (IH pairs k e E Hin) as (key & v & ? & ? & ? & ?).
      exists key, v. simpl. auto.
    + destruct (encodeURIComponent key') as [k'| |] eqn:Ek; try discriminate.
      destruct (encodeURIComponent (toString v')) as [e'| |] eqn:Ee;
        try discriminate.
      destruct (entry_pairs rest) as [ps| |] eqn:Er; try discriminate.
      cbn [and_then] in E. inversion E; subst.
      destruct Hin as [Heq|Hin].
      * inversion Heq; subst. exists key', v'. simpl. auto.
      * destruct (IH ps k e eq_refl Hin) as (key & v & ? & ? & ? & ?).
        exists key, v. simpl. auto.
Qed.



(** ** The head of a parsed URL holds no [?] and no [#] *)

Lemma percent_utf8_no_mark (cp : Z) : Forall no_mark (percent_utf8 cp).
Proof.
  apply (percent_utf8_within no_mark).
  - split; lia.
  - intros n. destruct (hex_digit_range n); split; lia.
Qed.

Lemma percent_encode_no_mark (set : Z -> bool) (c : Z) :
  set c = true \/ no_mark c -> Forall no_mark (percent_encode set c).
Proof.
  intros H. unfold percent_encode. destruct (set c) eqn:E.
  - apply percent_utf8_no_mark.
  - destruct H as [H|H]; [discriminate|]. repeat constructor; apply H.
Qed.

Lemma fragment_state_head (u : URLRecord) (input : list Z) :
  head_plain u -> head_plain (fragment_state u input).
Proof. intros []. constructor; assumption. Qed.

Lemma with_query_head (u : URLRecord) (q : option jsstring) :
  head_plain u -> head_plain (with_query u q).
Proof. intros []. constructor; assumption. Qed.

Lemma query_state_head (input : list Z) :
  forall u buffer, head_plain u -> head_plain (query_state u buffer input).
Proof.
  induction input as [|c rest IH]; intros u buffer H; simpl.
  - now apply with_query_head.
  - destruct (c =? 35).
    + now apply fragment_state_head, with_query_head.
    + now apply IH.
Qed.

Lemma with_path_head (u : URLRecord) (p : list jsstring) :
  head_plain u -> Forall (Forall no_mark) p -> head_plain (with_path u p).
Proof. intros [] Hp. constructor; assumption. Qed.

Lemma end_segment_head (u : URLRecord) (buffer : jsstring) (at_slash : bool) :
  head_plain u -> Forall no_mark buffer ->
  head_plain (end_segment u buffer at_slash).
Proof.
  intros H Hb. pose proof (plain_path u H) as Hp.
  unfold end_segment, shorten.
  destruct (is_double_dot buffer); [|destruct (is_single_dot buffer)].
  - apply with_path_head; auto. destruct at_slash.
    + now apply Forall_removelast.
    + apply Forall_app. split; [now apply Forall_removelast|].
      repeat constructor.
  - destruct at_slash; auto. apply with_path_head; auto.
    apply Forall_app. split; [auto | repeat constructor].
  - apply with_path_head; auto. apply Forall_app. split; auto.
Qed.

Lemma path_state_head (input : list Z) :
  forall u buffer,
    head_plain u -> Forall no_mark buffer ->
    head_plain (path_state u buffer input).
Proof.
  induction input as [|c rest IH]; intros u buffer H Hb; simpl.
  - now apply end_segment_head.
  - destruct (c =? 47);
      [|destruct (c =? 63) eqn:E63; [|destruct (c =? 35) eqn:E35]].
    + apply IH; [now apply end_segment_head | constructor].
    + apply query_state_head. now apply end_segment_head.
    + apply fragment_state_head. now apply end_segment_head.
    + apply IH; auto. apply Forall_app. split; auto.
      apply percent_encode_no_mark. right.
      apply Z.eqb_neq in E63, E35. split; assumption.
Qed.

Lemma path_start_state_head (u : URLRecord) (input : list Z) :
  head_plain u -> head_plain (path_start_state u input).
Proof.
  intros H. unfold path_start_state. destruct input as [|c rest]; auto.
  destruct (c =? 63); [|destruct (c =? 35); [|destruct (c =? 47)]].
  - now apply query_state_head.
  - now apply fragment_state_head.
  - apply path_state_head; [auto | constructor].
  - apply path_state_head; [auto | constructor].
Qed.

Lemma with_port_head (u : URLRecord) (p : option Z) :
  head_plain u -> head_plain (with_port u p).
Proof. intros []. constructor; assumption. Qed.

Lemma end_port_head (u : URLRecord) (buffer : jsstring) (input : list Z) :
  head_plain u -> head_plain_result (end_port u buffer input).
Proof.
  intros H v E. unfold end_port in E. destruct buffer as [|d buffer].
  - injection E as <-. now apply path_start_state_head.
  - destruct (65535 <? digits_value (d :: buffer)); [discriminate|].
    injection E as <-. now apply path_start_state_head, with_port_head.
Qed.

Lemma port_state_head (input : list Z) :
  forall u buffer, head_plain u -> head_plain_result (port_state u buffer input).
Proof.
  induction input as [|c rest IH]; intros u buffer H; simpl.
  - now apply end_port_head.
  - destruct (is_ascii_digit c); [now apply IH|].
    destruct (ends_authority c); [now apply end_port_head|].
    intros v E; discriminate.
Qed.

Lemma forbidden_mark (c : Z) :
  forbidden_host_code_point c = false -> no_mark c.
Proof.
  unfold forbidden_host_code_point, member. simpl. intros H.
  repeat (apply orb_false_iff in H; destruct H as [? H]).
  split; intros ->; discriminate.
Qed.

Lemma host_parse_no_mark (buffer : list Z) (h : jsstring) :
  host_parse buffer = Return h -> Forall no_mark h.
Proof.
  intros Eh. unfold host_parse in Eh.
  assert (Hh : existsb forbidden_host_code_point buffer = false
               /\ h = flat_map (percent_encode c0_control_set) buffer).
  { destruct buffer as [|c b].
    - simpl in Eh. injection Eh as <-. auto.
    - destruct (c =? 91) eqn:E91.
      + apply Z.eqb_eq in E91; subst c.
        destruct (last (91 :: b) 0 =? 93); discriminate.
      + assert (Eh' : (if existsb forbidden_host_code_point (c :: b)
                       then Throw []
                       else Return (flat_map (percent_encode c0_control_set)
                                             (c :: b))) = Return h).
        { destruct c as [|p|p]; try exact Eh.
          do 7 (destruct p as [p|p|]; try exact Eh).
          discriminate. }
        destruct (existsb forbidden_host_code_point (c :: b));
          [discriminate | injection Eh' as <-; auto]. }
  destruct Hh as [Hf ->]. apply Forall_flat_map, Forall_forall.
  intros c Hin. apply percent_encode_no_mark. right.
  apply forbidden_mark.
  destruct (forbidden_host_code_point c) eqn:E; [|reflexivity].
  assert (existsb forbidden_host_code_point buffer = true)
    by (apply existsb_exists; eauto).
  congruence.
Qed.

Lemma end_host_head (u : URLRecord) (buffer : list Z)
  (k : URLRecord -> parse_result) :
  head_plain u -> (forall v, head_plain v -> head_plain_result (k v)) ->
  head_plain_result (end_host u buffer k).
Proof.
  intros H Hk v E. unfold end_host in E.
  destruct (host_parse buffer) as [h| |] eqn:Eh; try discriminate.
  apply (Hk (with_host u (Some h))); auto.
  destruct H. constructor; auto. simpl.
  eapply host_parse_no_mark; eauto.
Qed.

Lemma host_state_head (input : list Z) :
  forall u buffer inside,
    head_plain u -> head_plain_result (host_state u buffer inside input).
Proof.
  induction input as [|c rest IH]; intros u buffer inside H; simpl.
  - apply end_host_head; auto. intros v Hv x E. injection E as <-. exact Hv.
  - destruct ((c =? 58) && negb inside).
    + destruct buffer; [intros v E; discriminate|].
      apply end_host_head; auto. intros v Hv. now apply port_state_head.
    + destruct (ends_authority c).
      * apply end_host_head; auto. intros v Hv x E. injection E as <-.
        exact (path_start_state_head v (c :: rest) Hv).
      * now apply IH.
Qed.

Lemma userinfo_marks (c : Z) : userinfo_set c = true \/ no_mark c.
Proof.
  destruct (c =? 63) eqn:E63; [|destruct (c =? 35) eqn:E35].
  - apply Z.eqb_eq in E63; subst. now left.
  - apply Z.eqb_eq in E35; subst. now left.
  - right. apply Z.eqb_neq in E63, E35. split; assumption.
Qed.

Lemma credentials_head (buffer : list Z) :
  forall u seen, head_plain u -> head_plain (fst (credentials u seen buffer)).
Proof.
  induction buffer as [|c rest IH]; intros u seen H; simpl; auto.
  destruct ((c =? 58) && negb seen); [now apply IH|].
  pose proof (percent_encode_no_mark userinfo_set c (userinfo_marks c)) as He.
  destruct seen; apply IH; destruct H; constructor; simpl; auto;
    apply Forall_app; split; auto.
Qed.

Lemma authority_state_head (input : list Z) :
  forall u buffer at_seen seen,
    head_plain u ->
    head_plain_result (authority_state u buffer at_seen seen input).
Proof.
  induction input as [|c rest IH]; intros u buffer at_seen seen H; simpl.
  - destruct (at_seen && match buffer with [] => true | _ => false end);
      [intros v E; discriminate|].
    now apply host_state_head.
  - destruct (c =? 64).
    + intros v E.
      match type of E with
      | context [credentials u seen ?b] =>
          pose proof (credentials_head b u seen H) as Hc;
          destruct (credentials u seen b) as [x seen']
      end.
      exact (IH x [] true seen' Hc v E).
    + destruct (ends_authority c).
      * destruct (at_seen && match buffer with [] => true | _ => false end);
          [intros v E; discriminate|].
        now apply host_state_head.
      * now apply IH.
Qed.

Lemma scheme_state_no_mark (input : list Z) :
  forall buffer scheme rest,
    Forall no_mark buffer ->
    scheme_state buffer input = Some (scheme, rest) ->
    Forall no_mark scheme.
Proof.
  induction input as [|c input IH]; intros buffer scheme rest Hb; simpl;
    [discriminate|].
  destruct (is_ascii_alpha c || is_ascii_digit c || (c =? 43) || (c =? 45)
            || (c =? 46)) eqn:E.
  - apply IH. apply Forall_app. split; auto. repeat constructor.
    + unfold ascii_lower, is_ascii_alpha, is_ascii_digit in *.
      destruct ((65 <=? c) && (c <=? 90)) eqn:Eu; bool_to_Z; lia.
    + unfold ascii_lower, is_ascii_alpha, is_ascii_digit in *.
      destruct ((65 <=? c) && (c <=? 90)) eqn:Eu; bool_to_Z; lia.
  - destruct (c =? 58); [|discriminate].
    intros H; injection H as <- _. exact Hb.
Qed.

Lemma scheme_start_state_no_mark (input : list Z) (scheme : jsstring)
  (rest : list Z) :
  scheme_start_state input = Some (scheme, rest) -> Forall no_mark scheme.
Proof.
  destruct input as [|c input]; simpl; [discriminate|].
  destruct (is_ascii_alpha c) eqn:E; [|discriminate].
  apply scheme_state_no_mark. repeat constructor;
    unfold ascii_lower, is_ascii_alpha in *;
    destruct ((65 <=? c) && (c <=? 90)) eqn:Eu; bool_to_Z; lia.
Qed.

Lemma blank_url_head (scheme : jsstring) :
  Forall no_mark scheme -> head_plain (blank_url scheme).
Proof. intros H. constructor; simpl; auto. Qed.

Lemma relative_state_head (base : URLRecord) (input : list Z) :
  head_plain base -> head_plain_result (relative_state base input).
Proof.
  intros H u E. unfold relative_state in E.
  assert (Hi : head_plain (with_fragment base None))
    by (destruct H; constructor; assumption).
  assert (Hp : forall p, Forall (Forall no_mark) p ->
                         head_plain (with_query
                                       (with_path (with_fragment base None) p)
                                       None))
    by (intros p Hpp; destruct H; constructor; assumption).
  destruct input as [|c rest]; [injection E as <-; exact Hi|].
  destruct (c =? 47).
  - destruct rest as [|d rest'].
    + injection E as <-.
      apply (path_state_head []); [apply Hp; constructor | constructor].
    + destruct (d =? 47) eqn:Ed.
      * apply Z.eqb_eq in Ed; subst d.
        refine (authority_state_head rest' _ [] false false _ u E).
        apply blank_url_head. apply (plain_scheme base H).
      * assert (E' : Parsed (path_state
                       (with_query (with_path (with_fragment base None) [])
                                   None) [] (d :: rest')) = Parsed u).
        { destruct d as [|q|q]; try exact E.
          do 6 (destruct q as [q|q|]; try exact E). discriminate. }
        injection E' as <-.
        apply (path_state_head (d :: rest'));
          [apply Hp; constructor | constructor].
  - destruct (c =? 63); [|destruct (c =? 35)]; injection E as <-.
    + now apply (query_state_head rest).
    + now apply fragment_state_head.
    + apply (path_state_head (c :: rest)); [|constructor].
      apply Hp. apply Forall_removelast. apply (plain_path base H).
Qed.

Lemma basic_URL_parse_head (input : jsstring) (base : option URLRecord) :
  (forall b, base = Some b -> head_plain b) ->
  head_plain_result (basic_URL_parse input base).
Proof.
  intros Hb u E. unfold basic_URL_parse in E.
  destruct (scheme_start_state (prepare_input input)) as [[scheme rest]|] eqn:Es.
  - pose proof (scheme_start_state_no_mark _ _ _ Es) as Hs.
    destruct (is_special_scheme scheme); [discriminate|].
    destruct rest as [|c rest]; [discriminate|].
    destruct (c =? 47) eqn:Ec.
    + apply Z.eqb_eq in Ec; subst c. destruct rest as [|d rest'].
      * injection E as <-. apply (path_state_head []); [|constructor].
        now apply blank_url_head.
      * destruct (d =? 47) eqn:Ed.
        -- apply Z.eqb_eq in Ed; subst d.
           refine (authority_state_head rest' _ [] false false _ u E).
           now apply blank_url_head.
        -- assert (E' : Parsed (path_state (blank_url scheme) []
                                           (d :: rest')) = Parsed u).
           { destruct d as [|q|q]; try exact E.
             do 6 (destruct q as [q|q|]; try exact E). discriminate. }
           injection E' as <-. apply (path_state_head (d :: rest'));
             [|constructor]. now apply blank_url_head.
    + exfalso. destruct c as [|q|q]; try discriminate.
      do 6 (destruct q as [q|q|]; try discriminate).
  - destruct base as [b|]; [|discriminate].
    exact (relative_state_head b _ (Hb b eq_refl) u E).
Qed.

Lemma URL_new_head (url base : jsstring) (u : URLRecord) :
  URL_new url base = Return u -> head_plain u.
Proof.
  intros E. unfold URL_new in E.
  destruct (basic_URL_parse base None) as [b| |] eqn:Eb; try discriminate.
  destruct (basic_URL_parse url (Some b)) as [v| |] eqn:Ev; try discriminate.
  injection E as <-.
  apply (basic_URL_parse_head url (Some b)); auto.
  intros x Hx. injection Hx as <-.
  apply (basic_URL_parse_head base None); auto.
  intros y Hy; discriminate.
Qed.

Lemma href_head_no_mark (u : URLRecord) :
  head_plain u -> Forall no_mark (href_head u).
Proof.
  intros [Hs Hu Hp Hh Hpath].
  change (href_head u)
    with (href_head (mkURL (url_scheme u) (url_username u) (url_password u)
                           (url_host u) (url_port u) (url_path u) None None)).
  apply (href_head_within no_mark).
  - intros c Hc. split; lia.
  - repeat constructor; simpl; lia.
  - constructor; simpl; auto.
Qed.

(** The head of the URL of an accepted command is free of [?] and [#]. *)
Lemma URL_new_head_marks (url base : jsstring) (u : URLRecord) :
  URL_new url base = Return u ->
  ~ In 63 (href_head u) /\ ~ In 35 (href_head u).
Proof.
  intros E. pose proof (href_head_no_mark u (URL_new_head _ _ _ E)) as H.
  rewrite Forall_forall in H. split; intros Hin; destruct (H _ Hin); congruence.
Qed.

(** ** The parameters of any URL that [buildUrl] returns *)

Lemma searchParams_cut (y f : jsstring) :
  ~ In 35 y -> searchParams (y ++ 35 :: f) = searchParams y.
Proof.
  intros H. unfold searchParams.
  now rewrite take_until_stop, take_until_none.
Qed.

Lemma joined_pairs_no_hash (pairs : list (jsstring * jsstring)) :
  Forall encoded_pair pairs ->
  ~ In 35 (join (lit "&") (map glue pairs)).
Proof.
  intros Hp Hin.
  assert (F : Forall (fun c => c <> 35) (join (lit "&") (map glue pairs))).
  { apply Forall_join; [repeat constructor; discriminate|].
    apply Forall_map. revert Hp. apply Forall_impl.
    intros [k e] [Hk He]. destruct (glue_pieces k e Hk He) as (_ & _ & H).
    apply Forall_forall. intros c Hc ->. tauto. }
  rewrite Forall_forall in F. exact (F 35 Hin eq_refl).
Qed.

(** Whatever the command, the parameters written in a returned URL are the
    pairs [buildUrl] encoded, in their order, as soon as there is one. *)
Lemma buildUrl_searchParams_live (this : t) (command : jsstring)
  (params : list (jsstring * value)) (url : jsstring)
  (pairs : list (jsstring * jsstring)) :
  buildUrl this command params = Return url ->
  queryPairs this command params = Return pairs ->
  pairs <> [] ->
  searchParams url = pairs.
Proof.
  intros E Ep Hne.
  destruct (buildUrl_shape _ _ _ _ E) as (u & parts & Eu & Eq & ->).
  rewrite queryParts_pairs, Ep in Eq. cbn [and_then] in Eq.
  injection Eq as <-.
  destruct (URL_new_head_marks _ _ _ Eu) as [H63 H35].
  pose proof (queryPairs_encoded _ _ _ _ Ep) as Henc.
  pose proof (searchParams_of_pairs (href_head u) pairs H63 H35 Henc) as Hs.
  unfold href_with.
  destruct pairs as [|p pairs]; [congruence|].
  cbn [map] in *.
  unfold href_fragment. destruct (url_fragment u) as [f|].
  - change (lit "#" ++ f) with (35 :: f).
    rewrite app_assoc, searchParams_cut; [exact Hs|].
    intros Hin. apply in_app_or in Hin. destruct Hin as [Hin|[Hin|Hin]].
    + tauto.
    + discriminate.
    + exact (joined_pairs_no_hash (p :: pairs) Henc Hin).
  - rewrite app_nil_r. exact Hs.
Qed.

Lemma queryPairs_of_buildUrl (this : t) (command : jsstring)
  (params : list (jsstring * value)) (url : jsstring) :
  buildUrl this command params = Return url ->
  exists pairs, queryPairs this command params = Return pairs.
Proof.
  intros E. destruct (buildUrl_shape _ _ _ _ E) as (u & parts & _ & Eq & _).
  rewrite queryParts_pairs in Eq.
  destruct (queryPairs this command params) as [pairs| |]; try discriminate.
  eauto.
Qed.


(** The commands of the client. *)
Lemma plain_show : plain_command (lit "show") (lit "things:///") (lit "things:///show").
Proof.
  eexists. split; [reflexivity|]. repeat split; try reflexivity;
    intros H; simpl in H; repeat (destruct H as [H|H]; [discriminate|]); exact H.
Qed.



(** The one way a [+] reaches a URL: the command is resolved by the URL
    parser, which leaves a [+] of a path alone, while the [+] of a value
    is written [%2B]. *)
Example buildUrl_keeps_plus_of_command :
  buildUrl (with_token None) (lit "a+b") [(lit "title", Str (lit "x+y z"))]
  = Return (lit "things:///a+b?title=x%2By%20z").
Proof. reflexivity. Qed.

(** C2, as the code has it.  With a non-empty credential configured, a URL
    returned for a command other than [show] has [auth-token=] and the
    encoded credential at the start of its query, before every parameter of
    the mapping: the URL is the head of the parsed command, [?auth-token=],
    the encoded credential, the other parameters and the fragment, and its
    query, split at [&] and [=], begins with the pair of [auth-token] and
    the encoded credential.  For [show] the builder adds nothing: the URL
    is the one built with no credential at all, so it carries an
    [auth-token] parameter only if the mapping itself has a live entry
    under that key. *)
Theorem buildUrl_credential_first_except_show :
  (forall (c : Z) (token command : jsstring)
          (params : list (jsstring * value)) (url : jsstring),
      command <> lit "show" ->
      buildUrl (with_token (Some (c :: token))) command params = Return url ->
      exists u e rest,
        URL_new command (lit "things:///") = Return u
        /\ encodeURIComponent (c :: token) = Return e
        /\ url = href_head u ++ lit "?auth-token=" ++ e ++ rest
                 ++ href_fragment u
        /\ (rest = [] \/ exists r, rest = lit "&" ++ r)
        /\ exists others, searchParams url = (lit "auth-token", e) :: others)
  /\ (forall (token : option jsstring) (params : list (jsstring * value)),
         buildUrl (with_token token) (lit "show") params
         = buildUrl (with_token None) (lit "show") params)
  /\ (forall (token : option jsstring) (params : list (jsstring * value))
             (url : jsstring),
         buildUrl (with_token token) (lit "show") params = Return url ->
         (forall v, In (lit "auth-token", v) params -> nullish v = true) ->
         ~ In (lit "auth-token") (map fst (searchParams url))).
Proof.
  split; [|split].
  - intros c token command params url Hc E.
    destruct (queryPairs_of_buildUrl _ _ _ _ E) as [pairs Epairs].
    pose proof (fun H => buildUrl_searchParams_live _ _ _ _ _ E Epairs H)
      as Hread.
    destruct (buildUrl_shape _ _ _ _ E) as (u & parts & Eu & Eq & ->).
    unfold queryParts, token_parts, with_token in Eq. cbn [authToken] in Eq.
    unfold queryPairs, token_pairs, with_token in Epairs.
    cbn [authToken] in Epairs.
    apply str_eqb_neq in Hc. rewrite Hc in Eq, Epairs.
    cbn [negb] in Eq, Epairs.
    destruct (encodeURIComponent (c :: token)) as [e| |] eqn:Ee;
      try discriminate.
    cbn [and_then] in Eq, Epairs.
    destruct (entry_parts params) as [others| |]; try discriminate.
    cbn [and_then] in Eq. inversion Eq; subst parts.
    destruct (entry_pairs params) as [ps| |]; try discriminate.
    cbn [and_then app] in Epairs. injection Epairs as <-.
    exists u, e.
    exists (match others with [] => [] | _ => lit "&" ++ join (lit "&") others end).
    repeat split; auto.
    + unfold href_with. f_equal.
      destruct others as [|o others].
      * simpl. reflexivity.
      * change (join (lit "&") ((lit "auth-token=" ++ e) :: o :: others))
          with ((lit "auth-token=" ++ e) ++ lit "&"
                ++ join (lit "&") (o :: others)).
        simpl. now rewrite <- !app_assoc.
    + destruct others; [now left | right; eauto].
    + exists ps. apply Hread. discriminate.
  - intros token params. unfold buildUrl, queryParts, token_parts, with_token.
    cbn [authToken baseUrl]. destruct token as [[|c token]|]; reflexivity.
  - intros token params url E Hlive Hin.
    pose proof (buildUrl_searchParams (with_token token) _ _ _ _
                  plain_show E) as Ep.
    unfold queryPairs, token_pairs, with_token in Ep. cbn [authToken] in Ep.
    assert (Eo : entry_pairs params = Return (searchParams url)).
    { destruct token as [[|c token]|];
        change (negb (str_eqb (lit "show") (lit "show"))) with false in Ep;
        cbn iota in Ep; cbn [and_then] in Ep;
        destruct (entry_pairs params); try discriminate;
        cbn [and_then app] in Ep; exact Ep. }
    apply in_map_iff in Hin. destruct Hin as ([k e] & Hk & Hin).
    simpl in Hk. subst k.
    destruct (entry_pairs_origin _ _ _ _ Eo Hin) as (key & v & Hp & Hv & Ek & _).
    apply encodeURIComponent_plain in Ek.
    + subst key. rewrite (Hlive v Hp) in Hv. discriminate.
    + intros H. simpl in H.
      repeat (destruct H as [H|H]; [discriminate|]). exact H.
Qed.

(** C2 at work: [add] with a credential, and [show] with and without. *)
Lemma buildUrl_credential_first_except_show_witness :
  (exists u e rest,
      URL_new (lit "add") (lit "things:///") = Return u
      /\ encodeURIComponent (lit "tok") = Return e
      /\ lit "things:///add?auth-token=tok&title=x"
         = href_head u ++ lit "?auth-token=" ++ e ++ rest ++ href_fragment u
      /\ (rest = [] \/ exists r, rest = lit "&" ++ r)
      /\ exists others,
           searchParams (lit "things:///add?auth-token=tok&title=x")
           = (lit "auth-token", e) :: others)
  /\ ~ In (lit "auth-token")
       (map fst (searchParams (lit "things:///show?id=today"))).
Proof.
  destruct buildUrl_credential_first_except_show as (A & _ & C). split.
  - apply (A 116 (lit "ok") (lit "add") [(lit "title", Str (lit "x"))]).
    + discriminate.
    + reflexivity.
  - apply (C (Some (lit "tok")) [(lit "id", Str (lit "today"))]).
    + reflexivity.
    + intros v [H|[]]. discriminate.
Defined.

(** A mapping with an [auth-token] key of its own puts that parameter into
    a [show] URL. *)
Lemma show_url_with_auth_token_entry :
  buildUrl (with_token (Some (lit "tok"))) (lit "show")
           [(lit "auth-token", Str (lit "x"))]
  = Return (lit "things:///show?auth-token=x")
  /\ In (lit "auth-token")
        (map fst (searchParams (lit "things:///show?auth-token=x"))).
Proof. split; [reflexivity | simpl; auto]. Qed.

Lemma plain_update :
  plain_command (lit "update") (lit "things:///") (lit "things:///update").
Proof.
  eexists. split; [reflexivity|]. repeat split; try reflexivity;
    intros H; simpl in H; repeat (destruct H as [H|H]; [discriminate|]);
    exact H.
Qed.

Lemma plain_add :
  plain_command (lit "add") (lit "things:///") (lit "things:///add").
Proof.
  eexists. split; [reflexivity|]. repeat split; try reflexivity;
    intros H; simpl in H; repeat (destruct H as [H|H]; [discriminate|]);
    exact H.
Qed.

Lemma plain_add_project :
  plain_command (lit "add-project") (lit "things:///")
                (lit "things:///add-project").
Proof.
  eexists. split; [reflexivity|]. repeat split; try reflexivity;
    intros H; simpl in H; repeat (destruct H as [H|H]; [discriminate|]);
    exact H.
Qed.

























(** ** The dispatcher *)

(** [executeCommand] hands the URL to [open] whenever [buildUrl] returns
    one, and to nothing else. *)
Lemma executeCommand_opened (P : Process) (this : t) (command : jsstring)
  (params : list (jsstring * value)) (w : World) :
  opened (snd (executeCommand P this command params w))
  = match buildUrl this command params with
    | Return url => opened w ++ [url]
    | _ => opened w
    end.
Proof.
  unfold executeCommand, try_catch, bind, lift, console_log, throw.
  destruct (buildUrl this command params) as [url| |]; simpl; try reflexivity.
  destruct (open P (opened w) url); reflexivity.
Qed.

Lemma executeCommand_returns (P : Process) (this : t) (command : jsstring)
  (params : list (jsstring * value)) (w w' : World) (b : bool) :
  executeCommand P this command params w = (Return b, w') ->
  exists url,
    buildUrl this command params = Return url
    /\ opened w' = opened w ++ [url].
Proof.
  unfold executeCommand, try_catch, bind, lift, console_log, throw.
  destruct (buildUrl this command params) as [url| |]; simpl;
    try discriminate.
  destruct (open P (opened w) url); simpl; try discriminate.
  intros E; inversion E; subst. exists url. auto.
Qed.

(** A completed attempt of the batch loop has dispatched one URL. *)
Lemma attempt_dispatches (P : Process) (client : t) (i : nat) (todo : value)
  (st st' : tally) (w w' : World) :
  batch_add_attempt P client i todo st w = (Return st', w') ->
  exists url, opened w' = opened w ++ [url].
Proof.
  unfold batch_add_attempt, addTodo, bind, lift.
  destruct (batch_todoData i todo) as [todoData| |]; try discriminate.
  destruct (addTodo_params todoData) as [params| |]; try discriminate.
  destruct (executeCommand P client (lit "add") params w) as [[b| |] w1]
    eqn:Ex; try discriminate.
  destruct (executeCommand_returns _ _ _ _ _ _ _ Ex) as (url & _ & Ho).
  unfold ret. intros E; inversion E; subst. eauto.
Qed.

(** An item with a blank title is caught before anything is built. *)
Lemma blank_title_recorded (P : Process) (client : t) (i : nat)
  (todo : value) (s : jsstring) (st : tally) (w : World) :
  field todo "title" = Str s -> trim s = [] ->
  try_catch (batch_add_attempt P client i todo st)
            (batch_add_recover i todo st) w
  = (Return (failed st (title_required_line i s)), w).
Proof.
  intros Ht Hs.
  assert (Hg : get todo "title" = Return (Str s)).
  { destruct todo; try discriminate. simpl in *. now rewrite Ht. }
  unfold try_catch, batch_add_attempt, batch_add_recover, bind, lift, ret.
  unfold batch_todoData, required_title. rewrite Hg. cbn [and_then].
  destruct s as [|c s].
  - simpl. reflexivity.
  - cbn [truthy negb call_trim and_then]. rewrite Hs. simpl. reflexivity.
Qed.

(** ** The loop *)

Lemma batch_add_loop_app (P : Process) (client : t)
  (before after : list value) :
  forall i st w,
    batch_add_loop P client i (before ++ after) st w
    = bind (batch_add_loop P client i before st)
           (batch_add_loop P client (i + List.length before) after) w.
Proof.
  induction before as [|todo before IH]; intros i st w.
  - simpl. unfold bind, ret. now rewrite Nat.add_0_r.
  - cbn [app batch_add_loop List.length]. unfold bind.
    destruct (try_catch (batch_add_attempt P client i todo st)
                        (batch_add_recover i todo st) w) as [[st1| |] w1];
      try reflexivity.
    rewrite IH. unfold bind. replace (i + S (List.length before))%nat
      with (S i + List.length before)%nat by lia.
    reflexivity.
Qed.

(** A run of items that all succeed: one line and one dispatch each. *)
Lemma batch_add_loop_all_succeed (P : Process) (client : t)
  (todos : list value) :
  forall i st w,
    (forall j todo, nth_error todos j = Some todo ->
                    attempt_succeeds P client (i + j) todo) ->
    exists lines w',
      batch_add_loop P client i todos st w
      = (Return (mkTally (results st ++ lines)
                         (successCount st + Z.of_nat (List.length todos))
                         (failureCount st)), w')
      /\ List.length lines = List.length todos
      /\ (forall j line, nth_error lines j = Some line ->
                         created_line (i + j) line)
      /\ List.length (opened w')
         = (List.length (opened w) + List.length todos)%nat.
Proof.
  induction todos as [|todo todos IH]; intros i st w H.
  - exists [], w. simpl. unfold ret. rewrite app_nil_r, Z.add_0_r.
    destruct st. repeat split; auto; try lia.
    intros [|j] line E; discriminate.
  - cbn [batch_add_loop]. unfold bind, try_catch.
    pose proof (H 0%nat todo eq_refl) as H0. rewrite Nat.add_0_r in H0.
    destruct (H0 st w) as (line & w1 & E1). rewrite E1.
    assert (Hline : created_line i line).
    { revert E1. unfold batch_add_attempt, addTodo, bind, lift.
      destruct (batch_todoData i todo) as [todoData| |]; try discriminate.
      destruct (addTodo_params todoData) as [params| |]; try discriminate.
      destruct (executeCommand P client (lit "add") params w)
        as [[[|] | |] w2]; try discriminate; unfold ret, succeeded, failed;
        intros E; inversion E; try lia.
      match goal with
      | Hr : results st ++ _ = results st ++ _ |- _ =>
          apply app_inv_head in Hr; inversion Hr; eexists; reflexivity
      end. }
    destruct (attempt_dispatches _ _ _ _ _ _ _ _ E1) as (url & Ho).
    destruct (IH (S i) (succeeded st line) w1) as (lines & w' & E & Hl & Hc & Hd).
    { intros j t' Hj. replace (S i + j)%nat with (i + S j)%nat by lia.
      now apply H. }
    exists (line :: lines), w'. rewrite E. unfold succeeded. simpl.
    repeat split.
    + rewrite <- app_assoc. cbn [app].
      replace (successCount st + 1 + Z.of_nat (List.length todos))
        with (successCount st + Z.pos (Pos.of_succ_nat (List.length todos)))
        by lia.
      reflexivity.
    + now rewrite Hl.
    + intros [|j] l' Hj; simpl in Hj.
      * inversion Hj; subst. now rewrite Nat.add_0_r.
      * replace (i + S j)%nat with (S i + j)%nat by lia. now apply Hc.
    + rewrite Hd, Ho, length_app. simpl. lia.
Qed.

(** C5.  In a batch of to-dos whose item [k] has an empty or blank title
    and whose other items all succeed, the handler returns its report: as
    many successes as there are other items and one failure, one line per
    item in the order of the items, the line at [k] being the failure with
    its reason, every other line a creation; and every other item, those
    after [k] included, has been dispatched. *)
Theorem batch_add_todos_isolates_blank_title :
  forall (P : Process) (client : t) (args : value) (todos : list value)
         (k : nat) (bad : value) (s : jsstring) (w : World),
    isThingsAvailable P = true ->
    no_token P = false ->
    get args "todos" = Return (Arr todos) ->
    nth_error todos k = Some bad ->
    field bad "title" = Str s -> trim s = [] ->
    (forall i todo, i <> k -> nth_error todos i = Some todo ->
                    attempt_succeeds P client i todo) ->
    exists lines w',
      batch_add_todos P client args w
      = (Return (batch_add_report
                   (mkTally lines (Z.of_nat (List.length todos) - 1) 1)), w')
      /\ List.length lines = List.length todos
      /\ nth_error lines k = Some (title_required_line k s)
      /\ (forall i, i <> k -> (i < List.length todos)%nat ->
                    exists line, nth_error lines i = Some line
                                 /\ created_line i line)
      /\ List.length (opened w')
         = (List.length (opened w) + (List.length todos - 1))%nat.
Proof.
  intros P client args todos k bad s w Hav Htok Hargs Hk Ht Hs Hothers.
  destruct (nth_error_split todos k Hk) as (before & after & -> & Hlen).
  subst k.
  assert (Hb : forall j todo, nth_error before j = Some todo ->
                              attempt_succeeds P client (0 + j) todo).
  { intros j todo Hj.
    assert (Hlt : (j < List.length before)%nat)
      by (apply nth_error_Some; congruence).
    apply Hothers.
    - simpl. lia.
    - simpl. rewrite nth_error_app1; auto. }
  assert (Ha : forall j todo, nth_error after j = Some todo ->
                              attempt_succeeds P client
                                (S (List.length before) + j) todo).
  { intros j todo Hj. apply Hothers; [lia|].
    rewrite nth_error_app2 by lia.
    replace (S (List.length before) + j - List.length before)%nat
      with (S j) by lia.
    exact Hj. }
  destruct (batch_add_loop_all_succeed P client before 0 (mkTally [] 0 0) w Hb)
    as (lines1 & w1 & E1 & Hl1 & Hc1 & Hd1).
  cbn [results successCount failureCount app] in E1.
  set (k := List.length before) in *.
  destruct (batch_add_loop_all_succeed P client after (S k)
              (failed (mkTally lines1 (0 + Z.of_nat k) 0)
                      (title_required_line k s)) w1 Ha)
    as (lines2 & w2 & E2 & Hl2 & Hc2 & Hd2).
  exists (lines1 ++ title_required_line k s :: lines2), w2.
  repeat split.
  - unfold batch_add_todos, try_catch. rewrite Hav, Hargs.
    cbn [negb]. unfold bind at 1. unfold lift. rewrite Htok.
    assert (Eloop : batch_add_loop P client 0 (before ++ bad :: after)
                      (mkTally [] 0 0) w
                    = (Return (mkTally
                                 (lines1 ++ title_required_line k s :: lines2)
                                 (Z.of_nat (List.length
                                              (before ++ bad :: after)) - 1)
                                 1), w2)).
    { rewrite batch_add_loop_app. unfold bind at 1. rewrite E1.
      cbn [batch_add_loop Nat.add]. fold k. unfold bind at 1.
      rewrite (blank_title_recorded P client k bad s _ w1 Ht Hs).
      rewrite E2. cbn [results successCount failureCount failed].
      rewrite <- app_assoc. cbn [app].
      replace (0 + Z.of_nat k + Z.of_nat (List.length after))
        with (Z.of_nat (List.length (before ++ bad :: after)) - 1)
        by (rewrite length_app; simpl; fold k; lia).
      reflexivity. }
    destruct (before ++ bad :: after) as [|first others] eqn:El.
    + destruct before; discriminate.
    + unfold bind. rewrite Eloop. reflexivity.
  - rewrite !length_app. simpl. fold k. lia.
  - rewrite nth_error_app2 by lia.
    replace (k - List.length lines1)%nat with 0%nat by lia. reflexivity.
  - intros i Hi Hlt. rewrite length_app in Hlt. simpl in Hlt. fold k in Hlt.
    destruct (Nat.lt_ge_cases i k) as [Hik|Hik].
    + destruct (nth_error lines1 i) as [line|] eqn:El.
      * exists line. split.
        -- rewrite nth_error_app1 by lia. exact El.
        -- exact (Hc1 i line El).
      * apply nth_error_None in El. lia.
    + destruct (nth_error lines2 (i - S k)) as [line|] eqn:El.
      * exists line. split.
        -- rewrite nth_error_app2 by lia.
           replace (i - List.length lines1)%nat with (S (i - S k)) by lia.
           exact El.
        -- replace i with (S k + (i - S k))%nat at 1 by lia.
           exact (Hc2 _ line El).
      * apply nth_error_None in El. lia.
  - rewrite Hd2, Hd1, length_app. simpl. fold k. lia.
Qed.

(** C5 on a batch of three whose second title is blank. *)
Lemma batch_add_todos_isolates_blank_title_witness :
  exists lines w',
    batch_add_todos
      (mkProcess (lit "darwin") (Some (lit "tok")) (fun _ _ => None))
      (with_token (Some (lit "tok")))
      (Obj [(lit "todos",
             Arr [Obj [(lit "title", Str (lit "Buy milk"))];
                  Obj [(lit "title", Str (lit "  "))];
                  Obj [(lit "title", Str (lit "Call Ann"))]])])
      (mkWorld [] [])
    = (Return (batch_add_report (mkTally lines (Z.of_nat 3 - 1) 1)), w')
    /\ List.length lines = 3%nat
    /\ nth_error lines 1 = Some (title_required_line 1 (lit "  "))
    /\ (forall i, i <> 1%nat -> (i < 3)%nat ->
                  exists line, nth_error lines i = Some line
                               /\ created_line i line)
    /\ List.length (opened w') = (0 + (3 - 1))%nat.
Proof.
  apply (batch_add_todos_isolates_blank_title
           (mkProcess (lit "darwin") (Some (lit "tok")) (fun _ _ => None))
           (with_token (Some (lit "tok")))
           (Obj [(lit "todos",
                  Arr [Obj [(lit "title", Str (lit "Buy milk"))];
                       Obj [(lit "title", Str (lit "  "))];
                       Obj [(lit "title", Str (lit "Call Ann"))]])])
           [Obj [(lit "title", Str (lit "Buy milk"))];
            Obj [(lit "title", Str (lit "  "))];
            Obj [(lit "title", Str (lit "Call Ann"))]]
           1%nat (Obj [(lit "title", Str (lit "  "))]) (lit "  ")
           (mkWorld [] []));
    try reflexivity.
  intros i todo Hi Hn st w.
  destruct i as [|[|[|i]]]; simpl in Hn;
    [ | congruence | | destruct i; discriminate];
    injection Hn as <-; do 2 eexists; reflexivity.
Defined.





(** ** Navigation *)

Lemma buildUrl_show_any_token (token : option jsstring)
  (params : list (jsstring * value)) :
  buildUrl (with_token token) (lit "show") params
  = buildUrl (with_token None) (lit "show") params.
Proof.
  unfold buildUrl, queryParts, token_parts, with_token.
  cbn [authToken baseUrl]. destruct token as [[|c token]|]; reflexivity.
Qed.

(** C4, as the code has it.  [validateListId] returns only identifiers of
    the enumerated set and raises for every identifier whose trimmed,
    lower-cased form is outside it (and for what is not a string); it calls
    nothing.  [showList] does not use it: whatever the identifier, the
    [show] URL built for it is handed to [open].  The eight navigation
    tools take no identifier and each dispatches one of the set. *)
Theorem navigation_identifiers_checked_by_validator_not_by_showList :
  (forall (toLowerCase : jsstring -> jsstring) (listId : value) (c : jsstring),
      validateListId toLowerCase listId = Return c -> In c validListIds)
  /\ (forall (toLowerCase : jsstring -> jsstring) (listId : value),
         (forall s, listId = Str s ->
                    ~ In (toLowerCase (trim s)) validListIds) ->
         exists message, validateListId toLowerCase listId = Throw message)
  /\ (forall (P : Process) (client : t) (id : value) (w : World)
             (url : jsstring),
         buildUrl client (lit "show") [(lit "id", id)] = Return url ->
         opened (snd (showList P client id w)) = opened w ++ [url])
  /\ (forall (P : Process) (token : option jsstring) (tool : show_tool)
             (w : World),
         isThingsAvailable P = true ->
         In (show_target tool) validListIds
         /\ opened (snd (show_handler P (with_token token) tool w))
            = opened w ++ [lit "things:///show?id=" ++ show_target tool]).
Proof.
  split; [|split; [|split]].
  - intros toLowerCase listId c. unfold validateListId.
    destruct listId as [| | | |s| |]; try discriminate.
    destruct (trim s) as [|c0 r]; [discriminate|].
    destruct (existsb (str_eqb (toLowerCase (c0 :: r))) validListIds) eqn:E;
      [|discriminate].
    intros H; inversion H; subst. apply existsb_exists in E.
    destruct E as (x & Hin & Hx). apply str_eqb_eq in Hx. now subst.
  - intros toLowerCase listId Hout. unfold validateListId.
    destruct listId as [| | | |s| |]; eauto.
    specialize (Hout s eq_refl).
    destruct (trim s) as [|c r] eqn:Et; [eauto|].
    destruct (existsb (str_eqb (toLowerCase (c :: r))) validListIds) eqn:E;
      [|eauto].
    exfalso. apply Hout. apply existsb_exists in E.
    destruct E as (x & Hin & Hx). apply str_eqb_eq in Hx. now subst.
  - intros P client id w url E. unfold showList.
    rewrite executeCommand_opened, E. reflexivity.
  - intros P token tool w Hav. split.
    + destruct tool; simpl; tauto.
    + assert (Hb : buildUrl (with_token token) (lit "show")
                     [(lit "id", Str (show_target tool))]
                   = Return (lit "things:///show?id=" ++ show_target tool)).
      { rewrite buildUrl_show_any_token. destruct tool; reflexivity. }
      assert (Hcall : (match tool with
                       | show_today_list => showTodayList P (with_token token)
                       | _ => showList P (with_token token)
                                (Str (show_target tool))
                       end)
                      = executeCommand P (with_token token) (lit "show")
                          [(lit "id", Str (show_target tool))])
        by (destruct tool; reflexivity).
      unfold show_handler. rewrite Hav, Hcall. cbn [negb].
      pose proof (executeCommand_opened P (with_token token) (lit "show")
                    [(lit "id", Str (show_target tool))] w) as Ho.
      rewrite Hb in Ho.
      unfold try_catch, bind, rethrow, console_log, throw, ret.
      destruct (executeCommand P (with_token token) (lit "show")
                  [(lit "id", Str (show_target tool))] w)
        as [[[|]| |] w1]; simpl in *; exact Ho.
Qed.

(** C4 on the inputs of the repository's own validation test and on the
    Inbox tool. *)
Lemma navigation_identifiers_checked_by_validator_not_by_showList_witness :
  (exists message,
      validateListId (map ascii_lower) (Str (lit "invalid-list"))
      = Throw message)
  /\ opened (snd (showList
                    (mkProcess (lit "darwin") None (fun _ _ => None))
                    (with_token None) (Str (lit "today")) (mkWorld [] [])))
     = [] ++ [lit "things:///show?id=today"]
  /\ opened (snd (show_handler
                    (mkProcess (lit "darwin") None (fun _ _ => None))
                    (with_token None) show_inbox (mkWorld [] [])))
     = [] ++ [lit "things:///show?id=" ++ show_target show_inbox].
Proof.
  destruct navigation_identifiers_checked_by_validator_not_by_showList
    as (_ & B & C & D).
  split; [|split].
  - apply B. intros s E. injection E as <-. vm_compute.
    intros H. repeat (destruct H as [H|H]; [discriminate|]). exact H.
  - apply (C (mkProcess (lit "darwin") None (fun _ _ => None))
             (with_token None) (Str (lit "today")) (mkWorld [] [])).
    reflexivity.
  - apply (D (mkProcess (lit "darwin") None (fun _ _ => None))
             None show_inbox (mkWorld [] [])).
    reflexivity.
Defined.

(** [showList] dispatches an identifier that is not a list. *)
Lemma showList_dispatches_unlisted_identifier :
  ~ In (lit "invalid-list") validListIds
  /\ showList (mkProcess (lit "darwin") None (fun _ _ => None))
              (with_token None) (Str (lit "invalid-list")) (mkWorld [] [])
     = (Return true,
        mkWorld [lit "things:///show?id=invalid-list"]
                [lit "Executing Things command: things:///show?id=invalid-list"]).
Proof.
  split; [|reflexivity].
  intros H. simpl in H. repeat (destruct H as [H|H]; [discriminate|]). exact H.
Qed.

(** * Decoding what the encoder wrote *)

Lemma below_check (P : Z -> bool) (n : nat) :
  forallb P (map Z.of_nat (seq 0 n)) = true ->
  forall x, 0 <= x < Z.of_nat n -> P x = true.
Proof.
  intros H x Hx. rewrite forallb_forall in H. apply H.
  apply in_map_iff. exists (Z.to_nat x). split; [lia|].
  apply in_seq. lia.
Qed.

Lemma lor_lead (lead bound : nat) :
  forallb (fun x => Z.lor (Z.of_nat lead) x =? Z.of_nat lead + x)
          (map Z.of_nat (seq 0 bound)) = true ->
  forall x, 0 <= x < Z.of_nat bound ->
            Z.lor (Z.of_nat lead) x = Z.of_nat lead + x.
Proof.
  intros H x Hx. apply Z.eqb_eq.
  exact (below_check _ bound H x Hx).
Qed.

Lemma lor_192 (x : Z) : 0 <= x < 64 -> Z.lor 192 x = 192 + x.
Proof. apply (lor_lead 192 64). vm_compute. reflexivity. Qed.

Lemma lor_128 (x : Z) : 0 <= x < 64 -> Z.lor 128 x = 128 + x.
Proof. apply (lor_lead 128 64). vm_compute. reflexivity. Qed.

Lemma lor_224 (x : Z) : 0 <= x < 16 -> Z.lor 224 x = 224 + x.
Proof. apply (lor_lead 224 16). vm_compute. reflexivity. Qed.

Lemma lor_240 (x : Z) : 0 <= x < 8 -> Z.lor 240 x = 240 + x.
Proof. apply (lor_lead 240 8). vm_compute. reflexivity. Qed.

Lemma land_63 (x : Z) : Z.land x 63 = x mod 64.
Proof. change 63 with (Z.ones 6). now rewrite Z.land_ones by lia. Qed.

Lemma shiftr_div (x n : Z) : 0 <= n -> Z.shiftr x n = x / 2 ^ n.
Proof. intros H. now apply Z.shiftr_div_pow2. Qed.

(** The bytes of a code point, in arithmetic. *)
Lemma utf8_bytes (cp : Z) :
  0 <= cp < 1114112 ->
  utf8 cp =
  if cp <? 128 then [cp]
  else if cp <? 2048 then [192 + cp / 64; 128 + cp mod 64]
  else if cp <? 65536 then
    [224 + cp / 4096; 128 + (cp / 64) mod 64; 128 + cp mod 64]
  else [240 + cp / 262144; 128 + (cp / 4096) mod 64;
        128 + (cp / 64) mod 64; 128 + cp mod 64].
Proof.
  intros H. unfold utf8.
  rewrite !land_63, !shiftr_div by lia.
  change (2 ^ 6) with 64. change (2 ^ 12) with 4096.
  change (2 ^ 18) with 262144.
  pose proof (Z.mod_pos_bound cp 64 ltac:(lia)).
  pose proof (Z.mod_pos_bound (cp / 64) 64 ltac:(lia)).
  pose proof (Z.mod_pos_bound (cp / 4096) 64 ltac:(lia)).
  destruct (cp <? 128) eqn:E1; [reflexivity|].
  destruct (cp <? 2048) eqn:E2; bool_to_Z.
  - rewrite lor_192, lor_128; auto.
    split; [apply Z.div_pos; lia | apply Z.div_lt_upper_bound; lia].
  - destruct (cp <? 65536) eqn:E3; bool_to_Z.
    + rewrite lor_224, !lor_128; auto.
      split; [apply Z.div_pos; lia | apply Z.div_lt_upper_bound; lia].
    + rewrite lor_240, !lor_128; auto.
      split; [apply Z.div_pos; lia | apply Z.div_lt_upper_bound; lia].
Qed.

Lemma utf8_byte_range (cp : Z) :
  0 <= cp < 1114112 -> Forall (fun b => 0 <= b < 256) (utf8 cp).
Proof.
  intros H. rewrite utf8_bytes by exact H.
  pose proof (Z.mod_pos_bound cp 64 ltac:(lia)).
  pose proof (Z.mod_pos_bound (cp / 64) 64 ltac:(lia)).
  pose proof (Z.mod_pos_bound (cp / 4096) 64 ltac:(lia)).
  assert (0 <= cp / 64) by (apply Z.div_pos; lia).
  assert (0 <= cp / 4096) by (apply Z.div_pos; lia).
  assert (0 <= cp / 262144) by (apply Z.div_pos; lia).
  destruct (cp <? 128) eqn:E1; bool_to_Z; [repeat constructor; lia|].
  destruct (cp <? 2048) eqn:E2; bool_to_Z.
  - assert (cp / 64 < 32) by (apply Z.div_lt_upper_bound; lia).
    repeat constructor; lia.
  - destruct (cp <? 65536) eqn:E3; bool_to_Z.
    + assert (cp / 4096 < 16) by (apply Z.div_lt_upper_bound; lia).
      repeat constructor; lia.
    + assert (cp / 262144 < 8) by (apply Z.div_lt_upper_bound; lia).
      repeat constructor; lia.
Qed.

Lemma hex_value_hex_digit (n : Z) : hex_value (hex_digit n) = Some (n mod 16).
Proof.
  unfold hex_digit, hex_value, is_ascii_digit.
  pose proof (Z.mod_pos_bound n 16 ltac:(lia)).
  destruct (n mod 16 <? 10) eqn:E; bool_to_Z.
  - replace ((48 <=? 48 + n mod 16) && (48 + n mod 16 <=? 57)) with true
      by (symmetry; Z_to_bool; split; Z_to_bool; lia).
    f_equal. lia.
  - replace ((48 <=? 55 + n mod 16) && (55 + n mod 16 <=? 57)) with false
      by (symmetry; Z_to_bool; right; Z_to_bool; lia).
    replace ((65 <=? 55 + n mod 16) && (55 + n mod 16 <=? 70)) with true
      by (symmetry; Z_to_bool; split; Z_to_bool; lia).
    f_equal. lia.
Qed.

Lemma percent_decode_byte (b : Z) (rest : jsstring) :
  0 <= b < 256 ->
  percent_decode (percent_byte b ++ rest)
  = option_map (cons b) (percent_decode rest).
Proof.
  intros H. unfold percent_byte. cbn [app].
  change (percent_decode (37 :: hex_digit (b / 16) :: hex_digit b :: rest))
    with (match hex_value (hex_digit (b / 16)), hex_value (hex_digit b),
                percent_decode rest with
          | Some a, Some b', Some out => Some (16 * a + b' :: out)
          | _, _, _ => None
          end).
  rewrite !hex_value_hex_digit.
  assert (E : 16 * ((b / 16) mod 16) + b mod 16 = b).
  { rewrite (Z.mod_small (b / 16)).
    - pose proof (Z.div_mod b 16 ltac:(lia)). lia.
    - split; [apply Z.div_pos; lia | apply Z.div_lt_upper_bound; lia]. }
  rewrite E. destruct (percent_decode rest); reflexivity.
Qed.

Lemma percent_decode_bytes (bytes : list Z) (rest : jsstring) :
  Forall (fun b => 0 <= b < 256) bytes ->
  percent_decode (flat_map percent_byte bytes ++ rest)
  = option_map (app bytes) (percent_decode rest).
Proof.
  induction 1 as [|b bytes Hb _ IH]; cbn [flat_map].
  - simpl. destruct (percent_decode rest); reflexivity.
  - rewrite <- app_assoc, percent_decode_byte, IH by exact Hb.
    destruct (percent_decode rest); reflexivity.
Qed.

Lemma percent_decode_plain (c : Z) (rest : jsstring) :
  c <> 37 ->
  percent_decode (c :: rest) = option_map (cons c) (percent_decode rest).
Proof.
  intros H.
  destruct c as [|p|p]; try reflexivity.
  do 6 (try (destruct p as [p|p|]; try reflexivity)).
  contradiction H. reflexivity.
Qed.

Lemma utf8_decode_code_point (cp : Z) (rest : list Z) (fuel : nat) :
  0 <= cp < 1114112 ->
  (List.length (utf8 cp ++ rest) <= fuel)%nat ->
  exists fuel',
    (List.length rest <= fuel')%nat
    /\ utf8_decode fuel (utf8 cp ++ rest)
       = option_map (app (units cp)) (utf8_decode fuel' rest).
Proof.
  intros H Hf. rewrite utf8_bytes in * by exact H. unfold units.
  pose proof (Z.mod_pos_bound cp 64 ltac:(lia)).
  pose proof (Z.mod_pos_bound (cp / 64) 64 ltac:(lia)).
  pose proof (Z.mod_pos_bound (cp / 4096) 64 ltac:(lia)).
  pose proof (Z.div_mod cp 64 ltac:(lia)).
  pose proof (Z.div_mod (cp / 64) 64 ltac:(lia)).
  pose proof (Z.div_mod (cp / 4096) 64 ltac:(lia)).
  assert (D1 : cp / 4096 = cp / 64 / 64)
    by (rewrite Z.div_div by lia; reflexivity).
  assert (D2 : cp / 262144 = cp / 4096 / 64)
    by (rewrite Z.div_div by lia; reflexivity).
  destruct fuel as [|fuel]; [destruct (cp <? 128), (cp <? 2048), (cp <? 65536);
                             simpl in Hf; lia|].
  exists fuel.
  destruct (cp <? 128) eqn:E1; bool_to_Z.
  - split; [simpl in Hf; lia|].
    cbn [app utf8_decode]. rewrite (proj2 (Z.ltb_lt cp 128)) by lia.
    rewrite (proj2 (Z.ltb_lt cp 65536)) by lia.
    destruct (utf8_decode fuel rest); reflexivity.
  - destruct (cp <? 2048) eqn:E2; bool_to_Z.
    + split; [simpl in Hf; lia|].
      assert (2 <= cp / 64 < 32) by lia.
      cbn [app utf8_decode].
      rewrite (proj2 (Z.ltb_ge (192 + cp / 64) 128)) by lia.
      replace ((194 <=? 192 + cp / 64) && (192 + cp / 64 <? 224)) with true
        by (symmetry; Z_to_bool; split; Z_to_bool; lia).
      rewrite (proj2 (Z.ltb_lt cp 65536)) by lia.
      replace ((192 + cp / 64 - 192) * 64 + (128 + cp mod 64 - 128)) with cp
        by lia.
      destruct (utf8_decode fuel rest); reflexivity.
    + destruct (cp <? 65536) eqn:E3; bool_to_Z.
      * split; [simpl in Hf; lia|].
        assert (0 <= cp / 4096 < 16) by lia.
        cbn [app utf8_decode].
        rewrite (proj2 (Z.ltb_ge (224 + cp / 4096) 128)) by lia.
        replace ((194 <=? 224 + cp / 4096) && (224 + cp / 4096 <? 224))
          with false by (symmetry; Z_to_bool; right; Z_to_bool; lia).
        replace ((224 <=? 224 + cp / 4096) && (224 + cp / 4096 <? 240))
          with true by (symmetry; Z_to_bool; split; Z_to_bool; lia).
        replace ((224 + cp / 4096 - 224) * 4096
                 + (128 + (cp / 64) mod 64 - 128) * 64
                 + (128 + cp mod 64 - 128)) with cp by lia.
        destruct (utf8_decode fuel rest); reflexivity.
      * split; [simpl in Hf; lia|].
        assert (0 <= cp / 262144 < 5) by lia.
        pose proof (Z.mod_pos_bound (cp - 65536) 1024 ltac:(lia)).
        cbn [app utf8_decode].
        rewrite (proj2 (Z.ltb_ge (240 + cp / 262144) 128)) by lia.
        replace ((194 <=? 240 + cp / 262144) && (240 + cp / 262144 <? 224))
          with false by (symmetry; Z_to_bool; right; Z_to_bool; lia).
        replace ((224 <=? 240 + cp / 262144) && (240 + cp / 262144 <? 240))
          with false by (symmetry; Z_to_bool; right; Z_to_bool; lia).
        replace ((240 <=? 240 + cp / 262144) && (240 + cp / 262144 <? 245))
          with true by (symmetry; Z_to_bool; split; Z_to_bool; lia).
        replace ((240 + cp / 262144 - 240) * 262144
                 + (128 + (cp / 4096) mod 64 - 128) * 4096
                 + (128 + (cp / 64) mod 64 - 128) * 64
                 + (128 + cp mod 64 - 128)) with cp by lia.
        destruct (utf8_decode fuel rest); reflexivity.
Qed.

Lemma units_pair (c d : Z) :
  is_high_surrogate c = true -> is_low_surrogate d = true ->
  0 <= surrogate_pair c d < 1114112 /\ units (surrogate_pair c d) = [c; d].
Proof.
  unfold is_high_surrogate, is_low_surrogate, surrogate_pair, units.
  intros Hc Hd. bool_to_Z. split; [lia|].
  rewrite (proj2 (Z.ltb_ge _ 65536)) by lia.
  replace (65536 + (c - 55296) * 1024 + (d - 56320) - 65536)
    with ((d - 56320) + (c - 55296) * 1024) by lia.
  rewrite Z.div_add, Z.mod_add by lia.
  rewrite Z.div_small, Z.mod_small by lia.
  f_equal; [lia | f_equal; lia].
Qed.

Lemma encode_decode_bytes (s : jsstring) :
  utf16 s ->
  forall e, encodeURIComponent s = Return e ->
  exists bytes,
    percent_decode e = Some bytes
    /\ forall fuel, (List.length bytes <= fuel)%nat ->
                    utf8_decode fuel bytes = Some s.
Proof.
  induction s as [|c rest IH IH2] using pair_induction; intros Hs e E.
  - inversion E; subst. exists []. split; [reflexivity|].
    intros [|fuel] _; reflexivity.
  - inversion Hs as [|? ? Hc Hrest]; subst.
    assert (step : forall cp (out : jsstring) bytes',
               0 <= cp < 1114112 ->
               forall tail,
               (forall fuel, (List.length bytes' <= fuel)%nat ->
                             utf8_decode fuel bytes' = Some tail) ->
               forall fuel, (List.length (utf8 cp ++ bytes') <= fuel)%nat ->
                            utf8_decode fuel (utf8 cp ++ bytes')
                            = Some (units cp ++ tail)).
    { intros cp out bytes' Hcp tail Htail fuel Hf.
      destruct (utf8_decode_code_point cp bytes' fuel Hcp Hf)
        as (fuel' & Hf' & ->).
      now rewrite (Htail fuel' Hf'). }
    simpl in E. destruct (uri_unreserved c) eqn:Hu.
    + destruct (encodeURIComponent rest) as [out| |] eqn:Eo; try discriminate.
      inversion E; subst e.
      destruct (IH Hrest out eq_refl) as (bytes' & Hp & Hd).
      assert (R : component_char c = true)
        by (unfold component_char; now rewrite Hu).
      apply component_char_range in R.
      assert (c <> 37).
      { intros ->. vm_compute in Hu. discriminate. }
      exists (utf8 c ++ bytes'). split.
      * unfold utf8. rewrite (proj2 (Z.ltb_lt c 128)) by lia.
        cbn [app]. rewrite percent_decode_plain, Hp by assumption.
        reflexivity.
      * intros fuel Hf.
        rewrite (step c out bytes' ltac:(lia) rest Hd fuel Hf).
        unfold units. now rewrite (proj2 (Z.ltb_lt c 65536)) by lia.
    + destruct (is_low_surrogate c) eqn:Hl; [discriminate|].
      destruct (is_high_surrogate c) eqn:Hh.
      * destruct rest as [|d rest']; [discriminate|].
        destruct (is_low_surrogate d) eqn:Hd'; [|discriminate].
        destruct (encodeURIComponent rest') as [out| |] eqn:Eo;
          try discriminate.
        inversion E; subst e.
        pose proof (Forall_inv_tail Hrest) as Hrest'.
        destruct (IH2 d rest' eq_refl Hrest' out Eo)
          as (bytes' & Hp & Hd).
        destruct (units_pair c d Hh Hd') as [Hcp Hunits].
        exists (utf8 (surrogate_pair c d) ++ bytes'). split.
        -- unfold percent_utf8.
           rewrite percent_decode_bytes, Hp by now apply utf8_byte_range.
           reflexivity.
        -- intros fuel Hf.
           rewrite (step _ out bytes' Hcp rest' Hd fuel Hf), Hunits.
           reflexivity.
      * destruct (encodeURIComponent rest) as [out| |] eqn:Eo;
          try discriminate.
        inversion E; subst e.
        destruct (IH Hrest out eq_refl) as (bytes' & Hp & Hd).
        exists (utf8 c ++ bytes'). split.
        -- unfold percent_utf8.
           rewrite percent_decode_bytes, Hp
             by (apply utf8_byte_range; lia).
           reflexivity.
        -- intros fuel Hf.
           rewrite (step c out bytes' ltac:(lia) rest Hd fuel Hf).
           unfold units. now rewrite (proj2 (Z.ltb_lt c 65536)) by lia.
Qed.

(** [decodeURIComponent] undoes [encodeURIComponent]. *)
Lemma decode_encode (s e : jsstring) :
  utf16 s -> encodeURIComponent s = Return e ->
  decodeURIComponent e = Some s.
Proof.
  intros Hs E.
  destruct (encode_decode_bytes s Hs e E) as (bytes & Hp & Hd).
  unfold decodeURIComponent. rewrite Hp. apply Hd. lia.
Qed.

(** So the encoder is injective on strings. *)
Lemma encodeURIComponent_injective (s s' e : jsstring) :
  utf16 s -> utf16 s' ->
  encodeURIComponent s = Return e -> encodeURIComponent s' = Return e ->
  s = s'.
Proof.
  intros Hs Hs' E E'.
  pose proof (decode_encode s e Hs E) as D.
  rewrite (decode_encode s' e Hs' E') in D. congruence.
Qed.

(** * What [buildUrl] sends *)

Lemma encodeURIComponent_malformed (s : jsstring) :
  well_formed s = false -> encodeURIComponent s = Throw (lit "URI malformed").
Proof.
  induction s as [|c rest IH IH2] using pair_induction; intros H.
  - discriminate.
  - simpl in H. simpl. destruct (uri_unreserved c) eqn:Hu.
    + destruct (unreserved_not_surrogate c Hu) as [Hh Hl].
      rewrite Hh, Hl in H. simpl in H. now rewrite (IH H).
    + destruct (is_high_surrogate c) eqn:Hh.
      * assert (Hl : is_low_surrogate c = false).
        { unfold is_high_surrogate, is_low_surrogate in *.
          bool_to_Z. Z_to_bool. lia. }
        rewrite Hl. destruct rest as [|d rest']; [reflexivity|].
        destruct (is_low_surrogate d); [|reflexivity].
        simpl in H. now rewrite (IH2 d rest' eq_refl H).
      * destruct (is_low_surrogate c); [reflexivity|].
        simpl in H. now rewrite (IH H).
Qed.

Lemma entry_pairs_live (params : list (jsstring * value)) :
  entry_pairs params = entry_pairs (live params).
Proof.
  induction params as [|[key v] rest IH]; [reflexivity|].
  cbn [entry_pairs live filter snd].
  destruct (nullish v) eqn:Hv; cbn [negb]; [exact IH|].
  cbn [entry_pairs]. rewrite Hv. fold (live rest). now rewrite IH.
Qed.

Lemma entry_pairs_printed (params : list (jsstring * value)) :
  entry_pairs params = encode_pairs (printed params).
Proof.
  induction params as [|[key v] rest IH]; [reflexivity|].
  unfold printed in *. cbn [entry_pairs live filter snd].
  destruct (nullish v) eqn:Hv; cbn [negb]; [exact IH|].
  cbn [map fst snd encode_pairs]. now rewrite IH.
Qed.

Lemma encode_pairs_app (a b : list (jsstring * jsstring)) :
  encode_pairs (a ++ b) =
  let! x := encode_pairs a in
  let! y := encode_pairs b in
  Return (x ++ y).
Proof.
  induction a as [|[key s] a IH]; cbn [app encode_pairs and_then].
  - destruct (encode_pairs b); reflexivity.
  - destruct (encodeURIComponent key); cbn [and_then]; try reflexivity.
    destruct (encodeURIComponent s); cbn [and_then]; try reflexivity.
    rewrite IH.
    destruct (encode_pairs a); cbn [and_then]; try reflexivity.
    destruct (encode_pairs b); reflexivity.
Qed.

Lemma token_pairs_credential (this : t) (command : jsstring) :
  token_pairs this command = encode_pairs (credential this command).
Proof.
  unfold token_pairs, credential.
  destruct (authToken this) as [[|c token]|]; try reflexivity.
  destruct (negb (str_eqb command (lit "show"))); [|reflexivity].
  cbn [encode_pairs].
  change (encodeURIComponent (lit "auth-token"))
    with (Return (A := jsstring) (lit "auth-token")).
  cbn [and_then].
  destruct (encodeURIComponent (c :: token)); reflexivity.
Qed.

Lemma queryPairs_sent (this : t) (command : jsstring)
  (params : list (jsstring * value)) :
  queryPairs this command params = encode_pairs (sent this command params).
Proof.
  unfold queryPairs, sent.
  now rewrite encode_pairs_app, token_pairs_credential, entry_pairs_printed.
Qed.

Lemma encode_pairs_decode (printed pairs : list (jsstring * jsstring)) :
  all_utf16 printed ->
  encode_pairs printed = Return pairs ->
  map (fun p => (decodeURIComponent (fst p), decodeURIComponent (snd p))) pairs
  = map (fun p => (Some (fst p), Some (snd p))) printed.
Proof.
  intros H. revert pairs.
  induction H as [|[key s] rest [Hk Hs] _ IH]; intros pairs E.
  - inversion E. reflexivity.
  - cbn [encode_pairs] in E. cbn [fst snd] in Hk, Hs.
    destruct (encodeURIComponent key) as [k| |] eqn:Ek; try discriminate.
    destruct (encodeURIComponent s) as [e| |] eqn:Ee; try discriminate.
    destruct (encode_pairs rest) as [ps| |]; try discriminate.
    inversion E; subst pairs. cbn [map fst snd].
    rewrite (decode_encode key k Hk Ek), (decode_encode s e Hs Ee).
    now rewrite (IH ps eq_refl).
Qed.

Lemma encode_pairs_length (printed pairs : list (jsstring * jsstring)) :
  encode_pairs printed = Return pairs ->
  List.length pairs = List.length printed.
Proof.
  revert pairs. induction printed as [|[key s] rest IH]; intros pairs E.
  - inversion E. reflexivity.
  - cbn [encode_pairs] in E.
    destruct (encodeURIComponent key); try discriminate.
    destruct (encodeURIComponent s); try discriminate.
    destruct (encode_pairs rest) as [ps| |]; try discriminate.
    inversion E. simpl. now rewrite (IH ps eq_refl).
Qed.

Lemma encode_pairs_outcome (printed : list (jsstring * jsstring)) :
  if all_well_formed printed
  then exists pairs, encode_pairs printed = Return pairs
  else encode_pairs printed = Throw (lit "URI malformed").
Proof.
  induction printed as [|[key s] rest IH]; cbn [all_well_formed forallb].
  - exists []. reflexivity.
  - fold (all_well_formed rest). cbn [fst snd encode_pairs].
    destruct (well_formed key) eqn:Hk; cbn [andb].
    + destruct (encodeURIComponent_total key Hk) as [k ->]. cbn [and_then].
      destruct (well_formed s) eqn:Hs; cbn [andb].
      * destruct (encodeURIComponent_total s Hs) as [e ->]. cbn [and_then].
        destruct (all_well_formed rest).
        -- destruct IH as [ps ->]. cbn [and_then]. eauto.
        -- now rewrite IH.
      * now rewrite (encodeURIComponent_malformed s Hs).
    + now rewrite (encodeURIComponent_malformed key Hk).
Qed.

(** X1.  Every parameter [buildUrl] writes can be read back: when the
    builder returns a URL for a command and a mapping that give it something
    to send, splitting the URL's query at [&] and [=] and decoding every
    name and value yields the credential (where one is added) followed by
    the key and [String(value)] of every entry that is neither [undefined]
    nor [null], in the order of the mapping. *)
Theorem buildUrl_parameters_read_back :
  forall (this : t) (command : jsstring) (params : list (jsstring * value))
         (url : jsstring),
    buildUrl this command params = Return url ->
    sent this command params <> [] ->
    all_utf16 (sent this command params) ->
    decoded_pairs url
    = map (fun p => (Some (fst p), Some (snd p))) (sent this command params).
Proof.
  intros this command params url E Hne Hu.
  destruct (queryPairs_of_buildUrl _ _ _ _ E) as [pairs Ep].
  pose proof Ep as Es. rewrite queryPairs_sent in Es.
  assert (Hp : pairs <> []).
  { intros ->. apply encode_pairs_length in Es.
    destruct (sent this command params); [now apply Hne | discriminate]. }
  unfold decoded_pairs.
  rewrite (buildUrl_searchParams_live _ _ _ _ _ E Ep Hp).
  now apply encode_pairs_decode.
Qed.

(** X1 at work: a credential, a reserved character, a skipped entry, a
    number, and a string beyond ASCII. *)
Lemma buildUrl_parameters_read_back_witness :
  decoded_pairs
    (lit "things:///add?auth-token=tok&title=Buy%20milk%20%26%20eggs&count=3&when=%C3%A9%F0%9F%98%80")
  = [(Some (lit "auth-token"), Some (lit "tok"));
     (Some (lit "title"), Some (lit "Buy milk & eggs"));
     (Some (lit "count"), Some (lit "3"));
     (Some (lit "when"), Some [233; 55357; 56832])].
Proof.
  apply (buildUrl_parameters_read_back
           (with_token (Some (lit "tok"))) (lit "add")
           [(lit "title", Str (lit "Buy milk & eggs")); (lit "notes", Null);
            (lit "count", Num 3); (lit "when", Str [233; 55357; 56832])]).
  - reflexivity.
  - discriminate.
  - repeat constructor; simpl; lia.
Defined.

(** X2.  [buildUrl] reads its mapping only through the entries that are
    neither [undefined] nor [null], and reads each of these only through
    its key and [String(value)]: two mappings that print the same give the
    same result, be it a URL or an error.  In particular the [undefined]
    and [null] entries can be dropped, wherever they stand. *)
Theorem buildUrl_reads_printed_entries :
  forall (this : t) (command : jsstring),
    (forall params params',
        printed params = printed params' ->
        buildUrl this command params = buildUrl this command params')
    /\ (forall params,
           buildUrl this command params = buildUrl this command (live params)).
Proof.
  intros this command.
  assert (A : forall params params',
             printed params = printed params' ->
             buildUrl this command params = buildUrl this command params').
  { intros params params' H. unfold buildUrl.
    rewrite !queryParts_pairs, !queryPairs_sent. unfold sent.
    now rewrite H. }
  split; [exact A|].
  intros params. apply A. unfold printed, live.
  f_equal. induction params as [|[key v] rest IH]; [reflexivity|].
  cbn [filter snd]. destruct (nullish v) eqn:Hv; cbn [negb]; [exact IH|].
  cbn [filter snd]. rewrite Hv. cbn [negb]. now rewrite <- IH.
Qed.

(** X2 at work: a number and its numeral, with and without dead entries. *)
Lemma buildUrl_reads_printed_entries_witness :
  buildUrl (with_token None) (lit "update")
           [(lit "id", Str (lit "7")); (lit "completed", Bool true);
            (lit "notes", Undefined)]
  = buildUrl (with_token None) (lit "update")
             [(lit "list", Null); (lit "id", Num 7);
              (lit "completed", Str (lit "true"))].
Proof.
  apply (proj1 (buildUrl_reads_printed_entries
                  (with_token None) (lit "update"))).
  reflexivity.
Defined.



(** * The alphabet of a URL, whatever the input *)



































(** * [trim] *)

Lemma trimStart_no_lead (s : jsstring) : no_lead (trimStart s).
Proof.
  induction s as [|c s IH]; simpl; auto.
  destruct (is_js_space c) eqn:E; [exact IH | exact E].
Qed.

Lemma trimStart_fixed (s : jsstring) : no_lead s -> trimStart s = s.
Proof. destruct s as [|c s]; simpl; auto. now intros ->. Qed.

Lemma trimStart_suffix (s : jsstring) :
  exists p, s = p ++ trimStart s /\ forallb is_js_space p = true.
Proof.
  induction s as [|c s (p & IH & Hp)]; simpl.
  - exists []. auto.
  - destruct (is_js_space c) eqn:E.
    + exists (c :: p). simpl. rewrite E, Hp. split; [now f_equal | reflexivity].
    + exists []. auto.
Qed.

Lemma no_lead_prefix (a b : jsstring) :
  no_lead (a ++ b) -> no_lead a.
Proof. destruct a; simpl; auto. Qed.

(** What [trim] returns has no white space at either end. *)
Lemma trim_trimmed (s : jsstring) : trimmed (trim s).
Proof.
  unfold trimmed, trim. rewrite rev_involutive. split.
  - destruct (trimStart_suffix (rev (trimStart s))) as (p & E & _).
    apply (no_lead_prefix _ (rev p)).
    rewrite <- rev_app_distr, <- E, rev_involutive.
    apply trimStart_no_lead.
  - apply trimStart_no_lead.
Qed.

Lemma trim_fixed (s : jsstring) : trimmed s -> trim s = s.
Proof.
  intros [H1 H2]. unfold trim.
  now rewrite (trimStart_fixed s H1), (trimStart_fixed _ H2), rev_involutive.
Qed.

Lemma trim_idempotent (s : jsstring) : trim (trim s) = trim s.
Proof. apply trim_fixed, trim_trimmed. Qed.

Lemma trim_nil : trim [] = [].
Proof. reflexivity. Qed.

(** [trim] takes characters away at the two ends only. *)
Lemma trim_middle (s : jsstring) :
  exists before after,
    s = before ++ trim s ++ after
    /\ forallb is_js_space before = true
    /\ forallb is_js_space after = true.
Proof.
  destruct (trimStart_suffix s) as (p & Ep & Hp).
  destruct (trimStart_suffix (rev (trimStart s))) as (q & Eq & Hq).
  exists p, (rev q). unfold trim. repeat split; auto.
  - rewrite <- rev_app_distr, <- Eq, rev_involutive. exact Ep.
  - rewrite forallb_forall in *. intros x Hx. apply Hq.
    now apply in_rev.
Qed.

(** * The dispatcher *)

Lemma executeCommand_resolves (P : Process) (this : t) (command : jsstring)
  (params : list (jsstring * value)) (url : jsstring) (w : World) :
  buildUrl this command params = Return url ->
  open P (opened w) url = None ->
  executeCommand P this command params w
  = (Return true,
     mkWorld (opened w ++ [url])
             (console w ++ [lit "Executing Things command: " ++ url])).
Proof.
  intros E Ho.
  unfold executeCommand, try_catch, bind, lift, console_log, throw.
  rewrite E. simpl. rewrite Ho. reflexivity.
Qed.

Lemma executeCommand_rejected (P : Process) (this : t) (command : jsstring)
  (params : list (jsstring * value)) (url message : jsstring) (w : World) :
  buildUrl this command params = Return url ->
  open P (opened w) url = Some message ->
  executeCommand P this command params w
  = (Throw (lit "Things command execution failed: " ++ message),
     mkWorld (opened w ++ [url])
             (console w ++ [lit "Executing Things command: " ++ url;
                            lit "Failed to execute Things command: "
                            ++ message])).
Proof.
  intros E Ho.
  unfold executeCommand, try_catch, bind, lift, console_log, throw.
  rewrite E. simpl. rewrite Ho. simpl. now rewrite <- app_assoc.
Qed.

Lemma executeCommand_unbuilt (P : Process) (this : t) (command : jsstring)
  (params : list (jsstring * value)) (message : jsstring) (w : World) :
  buildUrl this command params = Throw message ->
  executeCommand P this command params w
  = (Throw (lit "Things command execution failed: " ++ message),
     mkWorld (opened w)
             (console w ++ [lit "Failed to execute Things command: "
                            ++ message])).
Proof.
  intros E.
  unfold executeCommand, try_catch, bind, lift, console_log, throw.
  rewrite E. reflexivity.
Qed.

(** What any call of [executeCommand] comes to. *)
Lemma executeCommand_cases (P : Process) (this : t) (command : jsstring)
  (params : list (jsstring * value)) (w : World) :
  (exists url,
      buildUrl this command params = Return url
      /\ open P (opened w) url = None
      /\ executeCommand P this command params w
         = (Return true,
            mkWorld (opened w ++ [url])
                    (console w ++ [lit "Executing Things command: " ++ url])))
  \/ (exists url message,
         buildUrl this command params = Return url
         /\ open P (opened w) url = Some message
         /\ executeCommand P this command params w
            = (Throw (lit "Things command execution failed: " ++ message),
               mkWorld (opened w ++ [url])
                       (console w
                        ++ [lit "Executing Things command: " ++ url;
                            lit "Failed to execute Things command: "
                            ++ message])))
  \/ (exists message,
         buildUrl this command params = Throw message
         /\ executeCommand P this command params w
            = (Throw (lit "Things command execution failed: " ++ message),
               mkWorld (opened w)
                       (console w
                        ++ [lit "Failed to execute Things command: "
                            ++ message])))
  \/ (buildUrl this command params = NotModelled
      /\ executeCommand P this command params w = (NotModelled, w)).
Proof.
  destruct (buildUrl this command params) as [url|message|] eqn:E.
  - destruct (open P (opened w) url) as [message|] eqn:Ho.
    + right; left. exists url, message.
      repeat split; auto. now apply executeCommand_rejected.
    + left. exists url. repeat split; auto.
      now apply executeCommand_resolves.
  - right; right; left. exists message. split; auto.
    now apply executeCommand_unbuilt.
  - right; right; right. split; auto.
    unfold executeCommand, try_catch, bind, lift. rewrite E. reflexivity.
Qed.

Lemma plain_search :
  plain_command (lit "search") (lit "things:///") (lit "things:///search").
Proof.
  eexists. split; [reflexivity|]. repeat split; try reflexivity;
    intros H; simpl in H; repeat (destruct H as [H|H]; [discriminate|]);
    exact H.
Qed.

Lemma plain_operation (op : operation) :
  plain_command (command_of op) (lit "things:///")
                (lit "things:///" ++ command_of op).
Proof.
  destruct op.
  - exact plain_show.
  - exact plain_add.
  - exact plain_add_project.
  - exact plain_search.
  - exact plain_update.
  - exact plain_update.
  - exact plain_update.
Qed.

(** The URL of an operation's command: it is built unless a string is
    malformed, and it begins with [things:///] and the command. *)
Lemma buildUrl_of_operation (token : option jsstring) (op : operation)
  (params : list (jsstring * value)) :
  if all_well_formed (sent (with_token token) (command_of op) params)
  then exists query,
      buildUrl (with_token token) (command_of op) params
      = Return (lit "things:///" ++ command_of op ++ query)
  else buildUrl (with_token token) (command_of op) params
       = Throw (lit "Failed to build Things URL: URI malformed").
Proof.
  rewrite (buildUrl_plain (with_token token) _ _ params (plain_operation op)).
  rewrite queryPairs_sent.
  pose proof (encode_pairs_outcome
                (sent (with_token token) (command_of op) params)) as H.
  destruct (all_well_formed (sent (with_token token) (command_of op) params)).
  - destruct H as [pairs ->]. eexists.
    rewrite <- app_assoc. reflexivity.
  - rewrite H. reflexivity.
Qed.

Lemma executeCommand_dispatched (P : Process) (token : option jsstring)
  (op : operation) (params : list (jsstring * value)) (w : World) :
  dispatched P op w
    (fst (executeCommand P (with_token token) (command_of op) params w))
    (snd (executeCommand P (with_token token) (command_of op) params w)).
Proof.
  pose proof (buildUrl_of_operation token op params) as E.
  destruct (all_well_formed _); [destruct E as [query E]|].
  - left. exists query. cbv zeta.
    destruct (open P (opened w) (lit "things:///" ++ command_of op ++ query))
      as [message|] eqn:Ho.
    + rewrite (executeCommand_rejected _ _ _ _ _ _ _ E Ho). simpl.
      split; [reflexivity|]. right. eauto.
    + rewrite (executeCommand_resolves _ _ _ _ _ _ E Ho). simpl.
      split; [reflexivity|]. now left.
  - right. rewrite (executeCommand_unbuilt _ _ _ _ _ _ E). simpl. auto.
Qed.

(** The three ends of an operation of the client. *)
Lemma run_outcome :
  forall (P : Process) (token : option jsstring) (op : operation)
         (data : value) (w w' : World) (r : completion bool),
    run P (with_token token) op data w = (r, w') ->
    r <> Return false
    /\ ((exists message, r = Throw message /\ w' = w)
        \/ dispatched P op w r w').
Proof.
  intros P token op data w w' r E.
  assert (D : forall params,
             executeCommand P (with_token token) (command_of op) params w
             = (r, w') ->
             r <> Return false /\ dispatched P op w r w').
  { intros params Ex.
    pose proof (executeCommand_dispatched P token op params w) as H.
    rewrite Ex in H. simpl in H. split; [|exact H].
    destruct H as [(q & _ & [[_ ->]|(m & _ & ->)])|[_ ->]]; discriminate. }
  assert (R : forall message, (Throw message, w) = (r, w') ->
              r <> Return false
              /\ ((exists message, r = Throw message /\ w' = w)
                  \/ dispatched P op w r w')).
  { intros message H. inversion H; subst. split; [discriminate|].
    left. eauto. }
  assert (G : forall (params : completion (list (jsstring * value))),
             (params <> NotModelled) ->
             bind (lift params)
                  (fun params => executeCommand P (with_token token)
                                   (command_of op) params) w = (r, w') ->
             r <> Return false
             /\ ((exists message, r = Throw message /\ w' = w)
                 \/ dispatched P op w r w')).
  { intros [params|message|] Hn H; unfold bind, lift in H.
    - destruct (D params H). auto.
    - now apply (R message).
    - contradiction. }
  destruct op; cbn [run command_of] in *.
  - destruct (D _ E). auto.
  - apply (G (addTodo_params data)); [|exact E].
    unfold addTodo_params. now destruct (_ || _).
  - apply (G (addProject_params data)); [|exact E].
    unfold addProject_params. now destruct (_ || _).
  - unfold ThingsClient.search in E. unfold throw in E.
    destruct data; try (now apply (R _ E)).
    destruct (_ || _); [now apply (R _ E)|].
    destruct (D _ E). auto.
  - apply (G (updateTodo_params data)); [|exact E].
    unfold updateTodo_params. now destruct (_ || _).
  - apply (G (updateProject_params data)); [|exact E].
    unfold updateProject_params. now destruct (_ || _).
  - apply (G (completeTodo_params data)); [|exact E].
    unfold completeTodo_params. now destruct (_ || _).
Qed.



(** * What the operations send *)

Lemma all_well_formed_app (a b : list (jsstring * jsstring)) :
  all_well_formed (a ++ b) = all_well_formed a && all_well_formed b.
Proof. apply forallb_app. Qed.

Lemma credential_well_formed (token : option jsstring) (command : jsstring) :
  token_well_formed token ->
  all_well_formed (credential (with_token token) command) = true.
Proof.
  unfold credential, with_token. cbn [authToken].
  destruct token as [[|c tok]|]; try reflexivity.
  intros H. destruct (negb (str_eqb command (lit "show"))); [|reflexivity].
  unfold token_well_formed in H.
  cbn [all_well_formed forallb fst snd]. rewrite H. reflexivity.
Qed.

Lemma credential_utf16 (token : option jsstring) (command : jsstring) :
  token_utf16 token ->
  all_utf16 (credential (with_token token) command).
Proof.
  unfold credential, with_token. cbn [authToken].
  destruct token as [[|c tok]|]; try constructor.
  intros H. destruct (negb (str_eqb command (lit "show"))); constructor;
    [|constructor].
  split; [|exact H]. repeat constructor; simpl; lia.
Qed.

(** A mapping whose strings are well-formed is sent, and can be read back
    from the URL that is opened. *)
Lemma executeCommand_sends (P : Process) (token : option jsstring)
  (op : operation) (params : list (jsstring * value)) (w : World) :
  resolves P ->
  token_well_formed token ->
  all_well_formed (printed params) = true ->
  exists url,
    executeCommand P (with_token token) (command_of op) params w
    = (Return true,
       mkWorld (opened w ++ [url]) (console w ++ [executing url]))
    /\ buildUrl (with_token token) (command_of op) params = Return url.
Proof.
  intros Ho Ht Hp.
  assert (Hs : all_well_formed (sent (with_token token) (command_of op) params)
               = true).
  { unfold sent. rewrite all_well_formed_app, Hp.
    now rewrite credential_well_formed. }
  pose proof (buildUrl_of_operation token op params) as E.
  rewrite Hs in E. destruct E as [query E].
  eexists. split; [|exact E].
  now apply executeCommand_resolves.
Qed.

Lemma buildUrl_decoded (this : t) (command : jsstring)
  (params : list (jsstring * value)) (url : jsstring) :
  buildUrl this command params = Return url ->
  sent this command params <> [] ->
  all_utf16 (sent this command params) ->
  decoded_pairs url = all_decoded (sent this command params).
Proof.
  intros E Hne Hu.
  destruct (queryPairs_of_buildUrl _ _ _ _ E) as [pairs Ep].
  pose proof Ep as Es. rewrite queryPairs_sent in Es.
  assert (Hp : pairs <> []).
  { intros ->. apply encode_pairs_length in Es.
    destruct (sent this command params); [now apply Hne | discriminate]. }
  unfold decoded_pairs.
  rewrite (buildUrl_searchParams_live _ _ _ _ _ E Ep Hp).
  now apply encode_pairs_decode.
Qed.

Lemma sent_utf16 (token : option jsstring) (command : jsstring)
  (params : list (jsstring * value)) :
  token_utf16 token -> all_utf16 (printed params) ->
  all_utf16 (sent (with_token token) command params).
Proof.
  intros Ht Hp. unfold sent. apply Forall_app. split; auto.
  now apply credential_utf16.
Qed.

Lemma lit_utf16 (s : string) : utf16 (lit s).
Proof.
  unfold lit, utf16. apply Forall_forall. intros c Hc.
  apply in_map_iff in Hc. destruct Hc as (a & <- & _).
  pose proof (nat_ascii_bounded a). lia.
Qed.

(** X6.  [search] of the client rejects a query that is not a string, or
    that is empty or all white space, before anything is logged, built or
    opened.  Any other query is trimmed: on a Mac where [open] resolves the
    search URL is opened and [true] returned, and the [query] parameter
    read back from that URL is the query without the white space at its two
    ends, after the credential if one is configured. *)
Theorem search_rejects_blank_and_sends_trimmed :
  forall (P : Process) (token : option jsstring) (query : value) (w : World),
    ((forall s, query = Str s -> trim s = []) ->
     ThingsClient.search P (with_token token) query w
     = (Throw search_required, w))
    /\ (forall s,
           query = Str s -> trim s <> [] ->
           resolves P -> token_well_formed token ->
           well_formed (trim s) = true ->
           exists url,
             ThingsClient.search P (with_token token) query w
             = (Return true,
                mkWorld (opened w ++ [url]) (console w ++ [executing url]))
             /\ (token_utf16 token -> utf16 s ->
                 decoded_pairs url
                 = all_decoded (credential (with_token token) (lit "search")
                                ++ [(lit "query", trim s)]))).
Proof.
  intros P token query w. split.
  - intros H. unfold ThingsClient.search, throw.
    destruct query as [| | | |s| |]; try reflexivity.
    rewrite (H s eq_refl). cbn [str_eqb]. now rewrite orb_true_r.
  - intros s -> Hs Ho Ht Hw.
    unfold ThingsClient.search.
    assert (Hq : negb (truthy (Str s)) || str_eqb (trim s) [] = false).
    { apply orb_false_iff. split.
      - destruct s; [now contradiction Hs | reflexivity].
      - now apply str_eqb_neq. }
    rewrite Hq.
    destruct (executeCommand_sends P token Search
                [(lit "query", Str (trim s))] w Ho Ht) as (url & Ex & Eb).
    { cbn. now rewrite Hw. }
    exists url. split; [exact Ex|].
    intros Htu Hsu. apply (buildUrl_decoded _ _ _ _ Eb).
    + unfold sent. intros H. apply app_eq_nil in H. destruct H; discriminate.
    + apply sent_utf16; auto.
      constructor; [|constructor]. cbn [fst snd toString]. split.
      * apply lit_utf16.
      * destruct (trim_middle s) as (a & b & E & _).
        unfold utf16 in *. rewrite E in Hsu.
        apply Forall_app in Hsu. destruct Hsu as [_ Hsu].
        apply Forall_app in Hsu. tauto.
Qed.

(** X6 at work: a padded query with a credential, and a blank one. *)
Lemma search_rejects_blank_and_sends_trimmed_witness :
  ThingsClient.search (mac (Some (lit "tok"))) (with_token (Some (lit "tok")))
                      (Str (lit "   ")) fresh
  = (Throw search_required, fresh)
  /\ exists url,
       ThingsClient.search (mac (Some (lit "tok")))
                           (with_token (Some (lit "tok")))
                           (Str (lit "  buy milk ")) fresh
       = (Return true,
          mkWorld (opened fresh ++ [url]) (console fresh ++ [executing url]))
       /\ decoded_pairs url
          = [(Some (lit "auth-token"), Some (lit "tok"));
             (Some (lit "query"), Some (lit "buy milk"))].
Proof.
  split.
  - apply (proj1 (search_rejects_blank_and_sends_trimmed
                    (mac (Some (lit "tok"))) (Some (lit "tok"))
                    (Str (lit "   ")) fresh)).
    intros s E. injection E as <-. reflexivity.
  - destruct (proj2 (search_rejects_blank_and_sends_trimmed
                       (mac (Some (lit "tok"))) (Some (lit "tok"))
                       (Str (lit "  buy milk ")) fresh)
                    (lit "  buy milk ") eq_refl)
      as (url & E & D).
    + discriminate.
    + intros before url. reflexivity.
    + reflexivity.
    + reflexivity.
    + exists url. split; [exact E|]. apply D.
      * apply lit_utf16.
      * apply lit_utf16.
Defined.

Lemma get_field (o : value) (name : string) :
  nullish o = false -> get o name = Return (field o name).
Proof. destruct o; simpl; intros H; try discriminate; reflexivity. Qed.

Lemma rethrow_run {A} (context : string) (message : jsstring) (w : World) :
  rethrow (A := A) context message w
  = (Throw (lit context ++ message),
     mkWorld (opened w) (console w ++ [lit context ++ message])).
Proof. reflexivity. Qed.

(** X7.  The [search] tool, on a Mac.  A query that is missing, not a
    string, empty or all white space makes it throw
    [Failed to search: Search query is required and must be a non-empty
    string], write that line to the console and open nothing.  Any other
    query is trimmed by the handler and again by the client, which changes
    nothing: the handler ends in the world in which the client's [search]
    on the query as given ends, with one URL opened, and answers with the
    trimmed query between quotes.  No credential is asked for. *)
Theorem search_tool_trims_once :
  forall (P : Process) (token : option jsstring) (args : value) (w : World),
    isThingsAvailable P = true -> nullish args = false ->
    ((forall s, field args "query" = Str s -> trim s = []) ->
     Tools.search P (with_token token) args w
     = (Throw (lit "Failed to search: " ++ search_required),
        mkWorld (opened w)
                (console w ++ [lit "Failed to search: " ++ search_required])))
    /\ (forall s,
           field args "query" = Str s -> trim s <> [] ->
           resolves P -> token_well_formed token ->
           well_formed (trim s) = true ->
           exists w',
             Tools.search P (with_token token) args w
             = (Return (search_done (trim s)), w')
             /\ ThingsClient.search P (with_token token) (Str s) w
                = (Return true, w')
             /\ exists url, opened w' = opened w ++ [url]).
Proof.
  intros P token args w Ha Hn. split.
  - intros H. unfold Tools.search, try_catch, bind, lift, throw.
    rewrite Ha, (get_field args "query" Hn). cbn [negb].
    destruct (field args "query") as [| | | |s| |] eqn:Eq;
      try exact (rethrow_run _ _ _).
    rewrite (H s eq_refl). cbn [str_eqb]. rewrite orb_true_r.
    apply rethrow_run.
  - intros s Eq Hs Ho Ht Hw.
    assert (Hq : negb (truthy (Str s)) || str_eqb (trim s) [] = false).
    { apply orb_false_iff. split.
      - destruct s; [now contradiction Hs | reflexivity].
      - now apply str_eqb_neq. }
    assert (Hq' : negb (truthy (Str (trim s))) || str_eqb (trim (trim s)) []
                  = false).
    { rewrite trim_idempotent. apply orb_false_iff. split.
      - destruct (trim s); [now contradiction Hs | reflexivity].
      - now apply str_eqb_neq. }
    destruct (executeCommand_sends P token Search
                [(lit "query", Str (trim s))] w Ho Ht) as (url & Ex & Eb).
    { cbn. now rewrite Hw. }
    exists (mkWorld (opened w ++ [url]) (console w ++ [executing url])).
    repeat split.
    + unfold Tools.search, try_catch, bind, lift, throw.
      rewrite Ha, (get_field args "query" Hn), Eq. cbn [negb].
      rewrite Hq. unfold ThingsClient.search. rewrite Hq', trim_idempotent.
      cbn [command_of] in Ex. rewrite Ex. reflexivity.
    + unfold ThingsClient.search. rewrite Hq.
      cbn [command_of] in Ex. exact Ex.
    + exists url. reflexivity.
Qed.

(** X7 at work. *)
Lemma search_tool_trims_once_witness :
  Tools.search (mac None) (with_token None) (Obj []) fresh
  = (Throw (lit "Failed to search: " ++ search_required),
     mkWorld (opened fresh)
             (console fresh ++ [lit "Failed to search: " ++ search_required]))
  /\ exists w',
       Tools.search (mac None) (with_token None)
                    (Obj [(lit "query", Str (lit " tax return  "))]) fresh
       = (Return (search_done (trim (lit " tax return  "))), w')
       /\ ThingsClient.search (mac None) (with_token None)
                              (Str (lit " tax return  ")) fresh
          = (Return true, w')
       /\ exists url, opened w' = opened fresh ++ [url].
Proof.
  split.
  - apply (proj1 (search_tool_trims_once (mac None) None (Obj []) fresh
                    eq_refl eq_refl)).
    intros s E. discriminate.
  - apply (proj2 (search_tool_trims_once
                    (mac None) None
                    (Obj [(lit "query", Str (lit " tax return  "))]) fresh
                    eq_refl eq_refl)
                 (lit " tax return  ")).
    + reflexivity.
    + discriminate.
    + intros before url. reflexivity.
    + exact I.
    + reflexivity.
Defined.

Lemma field_truthy_object (data : value) (name : string) :
  truthy (field data name) = true -> truthy data = true.
Proof. destruct data; simpl; try discriminate; auto. Qed.

(** X8.  [completeTodo] asks for one thing, an [id] that is truthy:
    without it, it throws [Todo ID is required for completion] and leaves
    the world alone.  With it, on a Mac where [open] resolves, it opens one
    [update] URL and returns [true]; the parameters read back from that URL
    are the credential, if one is configured, then [id] with the identifier
    as [String] prints it, then [completed] with [true], and nothing else of
    the input. *)
Theorem completeTodo_sends_id_and_completed :
  forall (P : Process) (token : option jsstring) (completeData : value)
         (w : World),
    let id := field completeData "id" in
    (truthy id = false ->
     completeTodo P (with_token token) completeData w
     = (Throw (lit "Todo ID is required for completion"), w))
    /\ (truthy id = true ->
        resolves P -> token_well_formed token ->
        well_formed (toString id) = true ->
        exists url,
          completeTodo P (with_token token) completeData w
          = (Return true,
             mkWorld (opened w ++ [url]) (console w ++ [executing url]))
          /\ (token_utf16 token -> utf16 (toString id) ->
              decoded_pairs url
              = all_decoded (credential (with_token token) (lit "update")
                             ++ [(lit "id", toString id);
                                 (lit "completed", lit "true")]))).
Proof.
  intros P token completeData w id. subst id. split.
  - intros H. unfold completeTodo, completeTodo_params, bind, lift.
    rewrite H. cbn [negb]. now rewrite orb_true_r.
  - intros H Ho Ht Hw.
    unfold completeTodo, completeTodo_params, bind, lift.
    rewrite H, (field_truthy_object _ _ H). cbn [negb orb].
    assert (Hl : nullish (field completeData "id") = false)
      by (destruct (field completeData "id"); try reflexivity; discriminate).
    destruct (executeCommand_sends P token CompleteTodo
                [(lit "id", field completeData "id");
                 (lit "completed", Bool true)] w Ho Ht) as (url & Ex & Eb).
    { unfold printed, live. cbn [filter snd]. rewrite Hl.
      cbn [negb nullish filter snd map fst toString all_well_formed forallb].
      rewrite Hw. reflexivity. }
    exists url. split; [exact Ex|].
    intros Htu Hiu. cbn [command_of] in Eb.
    rewrite (buildUrl_decoded _ _ _ _ Eb).
    + unfold sent, printed, live. cbn [filter snd]. rewrite Hl. reflexivity.
    + unfold sent, printed, live. cbn [filter snd]. rewrite Hl.
      intros E. apply app_eq_nil in E. destruct E; discriminate.
    + apply sent_utf16; auto.
      unfold printed, live. cbn [filter snd]. rewrite Hl.
      cbn [negb nullish filter snd map fst toString].
      constructor; [|constructor; [|constructor]]; split; cbn [fst snd];
        auto; apply lit_utf16.
Qed.

(** X8 at work: an identifier that is a number, with other fields beside
    it, and an input without one. *)
Lemma completeTodo_sends_id_and_completed_witness :
  completeTodo (mac (Some (lit "tok"))) (with_token (Some (lit "tok")))
               (Obj [(lit "title", Str (lit "x"))]) fresh
  = (Throw (lit "Todo ID is required for completion"), fresh)
  /\ exists url,
       completeTodo (mac (Some (lit "tok"))) (with_token (Some (lit "tok")))
                    (Obj [(lit "id", Num 42); (lit "title", Str (lit "x"))])
                    fresh
       = (Return true,
          mkWorld (opened fresh ++ [url]) (console fresh ++ [executing url]))
       /\ decoded_pairs url
          = [(Some (lit "auth-token"), Some (lit "tok"));
             (Some (lit "id"), Some (lit "42"));
             (Some (lit "completed"), Some (lit "true"))].
Proof.
  split.
  - apply (proj1 (completeTodo_sends_id_and_completed
                    (mac (Some (lit "tok"))) (Some (lit "tok"))
                    (Obj [(lit "title", Str (lit "x"))]) fresh)).
    reflexivity.
  - destruct (proj2 (completeTodo_sends_id_and_completed
                       (mac (Some (lit "tok"))) (Some (lit "tok"))
                       (Obj [(lit "id", Num 42); (lit "title", Str (lit "x"))])
                       fresh))
      as (url & E & D).
    + reflexivity.
    + intros before url. reflexivity.
    + reflexivity.
    + reflexivity.
    + exists url. split; [exact E|]. apply D.
      * apply lit_utf16.
      * apply (lit_utf16 "42").
Defined.

(** * The handlers and the credential *)

Lemma try_catch_rethrow {A} (body : M A) (context : string)
  (message : jsstring) (w : World) :
  body w = (Throw message, w) ->
  try_catch body (rethrow context) w
  = (Throw (lit context ++ message),
     mkWorld (opened w) (console w ++ [lit context ++ message])).
Proof. intros E. unfold try_catch. rewrite E. reflexivity. Qed.

Lemma required_field_modelled (o : value) (expr name : string)
  (message : jsstring) :
  required_field o expr name message <> NotModelled.
Proof.
  unfold required_field.
  destruct (get o name) as [v| |] eqn:Eg; cbn [and_then]; try discriminate.
  - destruct (truthy v); cbn [negb]; try discriminate.
    destruct v; cbn [call_trim and_then]; try discriminate.
    destruct (trim s); discriminate.
  - destruct o; discriminate.
Qed.

Lemma require_token_refuses (P : Process) (operations : string) (w : World) :
  no_token P = true ->
  exists message, require_token P operations w = (Throw message, w).
Proof. intros H. unfold require_token. rewrite H. eexists. reflexivity. Qed.

(** X9.  The tools that update, complete or work in batches do nothing
    without the credential: when [THINGS_AUTHENTICATION_TOKEN] is unset or
    empty, each of [update_todo], [update_project], [complete_todo],
    [batch_add_todos], [batch_complete_todos] and [batch_update_todos]
    throws, whatever its arguments, having written its message to the
    console once and opened nothing. *)
Theorem guarded_tools_need_the_credential :
  forall (tool : guarded_tool) (P : Process) (client : t) (args : value)
         (w : World),
    no_token P = true ->
    exists message,
      guarded_handler tool P client args w
      = (Throw message, mkWorld (opened w) (console w ++ [message])).
Proof.
  intros tool P client args w Hn.
  assert (Hr : forall operations w,
             require_token P operations w
             = (Throw (lit "THINGS_AUTHENTICATION_TOKEN is required for "
                       ++ lit operations
                       ++ lit " operations. Please set this environment variable."),
                w)).
  { intros operations w0. unfold require_token. now rewrite Hn. }
  assert (Hb : forall (ctx : string) (body : M jsstring),
             (exists message, body w = (Throw message, w)) ->
             exists message,
               try_catch body (rethrow ctx) w
               = (Throw message, mkWorld (opened w) (console w ++ [message]))).
  { intros ctx body [message E]. exists (lit ctx ++ message).
    now apply try_catch_rethrow. }
  destruct tool; cbn [guarded_handler].
  - apply Hb. unfold bind, lift, throw.
    destruct (isThingsAvailable P); cbn [negb]; [|eauto].
    destruct (required_field args "args" "id" _) as [id|message|] eqn:E;
      [rewrite Hr | | now apply required_field_modelled in E]; eauto.
  - apply Hb. unfold bind, lift, throw.
    destruct (isThingsAvailable P); cbn [negb]; [|eauto].
    destruct (required_field args "args" "id" _) as [id|message|] eqn:E;
      [rewrite Hr | | now apply required_field_modelled in E]; eauto.
  - apply Hb. unfold bind, lift, throw.
    destruct (isThingsAvailable P); cbn [negb]; [|eauto].
    destruct (required_field args "args" "id" _) as [id|message|] eqn:E;
      [rewrite Hr | | now apply required_field_modelled in E]; eauto.
  - apply Hb. unfold bind, lift, throw.
    destruct (isThingsAvailable P); cbn [negb]; [|eauto].
    destruct args; cbn [get]; eauto.
    destruct (lookup (lit "todos") props) as [| | | | | [|first others] |];
      eauto.
    rewrite Hn. eauto.
  - apply Hb. unfold bind, lift, throw.
    destruct (isThingsAvailable P); cbn [negb]; [|eauto].
    destruct args; cbn [get]; eauto.
    destruct (lookup (lit "ids") props) as [| | | | | [|first others] |];
      eauto.
    rewrite Hr. eauto.
  - apply Hb. unfold bind, lift, throw.
    destruct (isThingsAvailable P); cbn [negb]; [|eauto].
    destruct args; cbn [get]; eauto.
    destruct (lookup (lit "ids") props) as [| | | | | [|first others] |];
      eauto.
    destruct (negb (truthy (lookup (lit "updates") props))
              || negb (is_object (lookup (lit "updates") props))); eauto.
    destruct (updateKeys (lookup (lit "updates") props)); eauto.
    rewrite Hr. eauto.
Qed.

(** X9 at work: a valid update on a Mac without the credential. *)
Lemma guarded_tools_need_the_credential_witness :
  exists message,
    update_todo (mac None) (with_token None)
                (Obj [(lit "id", Str (lit "abc")); (lit "notes", Str [])])
                fresh
    = (Throw message,
       mkWorld (opened fresh) (console fresh ++ [message])).
Proof.
  apply (guarded_tools_need_the_credential
           update_todo_tool (mac None) (with_token None)
           (Obj [(lit "id", Str (lit "abc")); (lit "notes", Str [])]) fresh).
  reflexivity.
Defined.

(** * The batch loops *)

Lemma batch_add_loop_shape (P : Process) (client : t) (todos : list value) :
  forall i st w,
    batch_add_loop P client i todos st w
    = batch_loop (batch_add_step P client) i todos st w.
Proof.
  induction todos as [|todo rest IH]; intros i st w; [reflexivity|].
  cbn [batch_add_loop batch_loop]. unfold bind. fold (batch_add_step P client i todo st).
  destruct (batch_add_step P client i todo st w) as [[st'| |] w'];
    try reflexivity.
  apply IH.
Qed.


Lemma batch_update_loop_shape (P : Process) (client : t) (updates : value)
  (ids : list value) :
  forall i st w,
    batch_update_loop P client updates i ids st w
    = batch_loop (batch_update_step P client updates) i ids st w.
Proof.
  induction ids as [|id rest IH]; intros i st w; [reflexivity|].
  cbn [batch_update_loop batch_loop]. unfold bind.
  fold (batch_update_step P client updates i id st).
  destruct (batch_update_step P client updates i id st w) as [[st'| |] w'];
    try reflexivity.
  apply IH.
Qed.





(** What an operation leaves in the world, in short. *)
Lemma run_world (P : Process) (token : option jsstring) (op : operation)
  (data : value) (w w' : World) (r : completion bool) :
  run P (with_token token) op data w = (r, w') ->
  (r = Return true /\ exists url, opened w' = opened w ++ [url])
  \/ (exists message,
         r = Throw message
         /\ (opened w' = opened w
             \/ exists url, opened w' = opened w ++ [url])).
Proof.
  intros E. destruct (run_outcome _ _ _ _ _ _ _ E) as [_ H].
  destruct H as [(m & -> & ->)|[(q & Ho & H)|[Ho ->]]].
  - right. eauto.
  - destruct H as [[_ ->]|(m & _ & ->)].
    + left. eauto.
    + right. eauto.
  - right. eauto.
Qed.









Lemma get_of_field (o : value) (name : string) (v : value) :
  field o name = v -> v <> Undefined -> get o name = Return v.
Proof.
  destruct o; simpl; intros <- H; try reflexivity; now contradiction H.
Qed.







(** * Reading one parameter *)

Lemma lit_injective (a b : string) : lit a = lit b -> a = b.
Proof.
  revert b. induction a as [|x a IH]; intros [|y b] H; try discriminate.
  - reflexivity.
  - unfold lit in H. simpl in H. injection H as Hx Hr.
    apply Nat2Z.inj in Hx.
    assert (x = y).
    { rewrite <- (ascii_nat_embedding x), <- (ascii_nat_embedding y).
      now rewrite Hx. }
    subst. f_equal. now apply IH.
Qed.

Lemma lit_eqb (a b : string) : str_eqb (lit a) (lit b) = String.eqb a b.
Proof.
  destruct (String.eqb a b) eqn:E.
  - apply String.eqb_eq in E. subst. apply str_eqb_refl.
  - apply str_eqb_neq. intros H. apply lit_injective in H.
    apply String.eqb_neq in E. contradiction.
Qed.

Lemma lit_plain_key (name : string) :
  forallb uri_unreserved (lit name) = true -> plain_key (lit name).
Proof.
  intros H. unfold plain_key. apply Forall_forall.
  now apply forallb_forall.
Qed.

Lemma encodeURIComponent_plain_key (key : jsstring) :
  plain_key key -> encodeURIComponent key = Return key.
Proof.
  induction 1 as [|c key Hc _ IH]; [reflexivity|].
  simpl. now rewrite Hc, IH.
Qed.

Lemma plain_key_no_percent (key : jsstring) : plain_key key -> ~ In 37 key.
Proof.
  intros H Hin. unfold plain_key in H. rewrite Forall_forall in H.
  specialize (H 37 Hin). discriminate.
Qed.

(** Looking a plain name up before and after the encoding. *)
Lemma param_encode_pairs (name : jsstring) (l pairs : list (jsstring * jsstring)) :
  plain_key name ->
  encode_pairs l = Return pairs ->
  match param name l with
  | Some v => exists e, encodeURIComponent v = Return e
                        /\ param name pairs = Some e
  | None => param name pairs = None
  end.
Proof.
  intros Hn. revert pairs. induction l as [|[key v] l IH]; intros pairs E.
  - inversion E. reflexivity.
  - cbn [encode_pairs] in E.
    destruct (encodeURIComponent key) as [k| |] eqn:Ek; try discriminate.
    destruct (encodeURIComponent v) as [e| |] eqn:Ee; try discriminate.
    destruct (encode_pairs l) as [ps| |]; try discriminate.
    inversion E; subst pairs. cbn [param].
    assert (Hk : str_eqb k name = str_eqb key name).
    { destruct (str_eqb key name) eqn:E1.
      - apply str_eqb_eq in E1. subst key.
        rewrite (encodeURIComponent_plain_key name Hn) in Ek.
        inversion Ek. apply str_eqb_refl.
      - apply str_eqb_neq. intros ->. apply str_eqb_neq in E1. apply E1.
        apply (encodeURIComponent_plain key name Ek).
        now apply plain_key_no_percent. }
    rewrite Hk. destruct (str_eqb key name); [eauto|].
    apply (IH ps eq_refl).
Qed.

(** One parameter of a URL that [buildUrl] returned, read through what was
    sent. *)
Lemma buildUrl_param (this : t) (command : jsstring)
  (params : list (jsstring * value)) (url : jsstring) (name : string) :
  buildUrl this command params = Return url ->
  sent this command params <> [] ->
  plain_key (lit name) ->
  match param (lit name) (sent this command params) with
  | Some v => utf16 v -> decoded_param name url = Some v
  | None => param (lit name) (searchParams url) = None
  end.
Proof.
  intros E Hne Hn.
  destruct (queryPairs_of_buildUrl _ _ _ _ E) as [pairs Ep].
  pose proof Ep as Es. rewrite queryPairs_sent in Es.
  assert (Hp : pairs <> []).
  { intros ->. apply encode_pairs_length in Es.
    destruct (sent this command params); [now apply Hne | discriminate]. }
  pose proof (buildUrl_searchParams_live _ _ _ _ _ E Ep Hp) as Hs.
  pose proof (param_encode_pairs (lit name) _ _ Hn Es) as H.
  destruct (param (lit name) (sent this command params)) as [v|].
  - destruct H as (e & He & Hpe). intros Hv.
    unfold decoded_param. rewrite Hs, Hpe.
    now apply decode_encode.
  - now rewrite Hs.
Qed.

Lemma param_app (name : jsstring) (a b : list (jsstring * jsstring)) :
  param name (a ++ b)
  = match param name a with
    | Some v => Some v
    | None => param name b
    end.
Proof.
  induction a as [|[k v] a IH]; [reflexivity|].
  cbn [app param]. destruct (str_eqb k name); auto.
Qed.

Lemma printed_cons (key : jsstring) (v : value)
  (rest : list (jsstring * value)) :
  printed ((key, v) :: rest)
  = if nullish v then printed rest else (key, toString v) :: printed rest.
Proof. unfold printed, live. cbn [filter snd]. now destruct (nullish v). Qed.

Lemma printed_app (a b : list (jsstring * value)) :
  printed (a ++ b) = printed a ++ printed b.
Proof. unfold printed, live. now rewrite filter_app, map_app. Qed.

Lemma param_credential (token : option jsstring) (command : jsstring)
  (name : string) :
  String.eqb name "auth-token" = false ->
  param (lit name) (credential (with_token token) command) = None.
Proof.
  intros H. unfold credential, with_token. cbn [authToken].
  destruct token as [[|c tok]|]; try reflexivity.
  destruct (negb (str_eqb command (lit "show"))); [|reflexivity].
  cbn [param]. change (lit "auth-token") with (lit "auth-token"%string).
  now rewrite lit_eqb, String.eqb_sym, H.
Qed.

Lemma truthy_live (v : value) : truthy v = true -> nullish v = false.
Proof. destruct v; simpl; congruence. Qed.

(** The fields a client operation copies, looked up among what it sends. *)
Lemma param_copy_defined (data : value) (names : list string) (name : string) :
  param (lit name) (printed (copy_defined data names))
  = if among name names && negb (nullish (field data name))
    then Some (toString (field data name)) else None.
Proof.
  unfold among, copy_defined.
  induction names as [|n names IH]; [reflexivity|].
  cbn [flat_map existsb]. rewrite printed_app, param_app.
  destruct (String.eqb name n) eqn:E.
  - apply String.eqb_eq in E. subst n. cbn [orb andb].
    assert (Hp : printed (if defined (field data name)
                          then [(lit name, field data name)] else [])
                 = if nullish (field data name) then []
                   else [(lit name, toString (field data name))]).
    { destruct (field data name); reflexivity. }
    rewrite Hp. destruct (nullish (field data name)) eqn:Hn; cbn [negb].
    + cbn [param]. rewrite IH, andb_false_r. reflexivity.
    + cbn [param]. now rewrite str_eqb_refl.
  - cbn [orb]. rewrite <- IH.
    destruct (defined (field data n)); [|reflexivity].
    rewrite printed_cons. destruct (nullish (field data n)); [reflexivity|].
    cbn [printed live filter map param].
    now rewrite lit_eqb, String.eqb_sym, E.
Qed.

Lemma param_copy_truthy (data : value) (names : list string) (name : string) :
  param (lit name) (printed (copy_truthy data names))
  = if among name names && truthy (field data name)
    then Some (toString (field data name)) else None.
Proof.
  unfold among, copy_truthy.
  induction names as [|n names IH]; [reflexivity|].
  cbn [flat_map existsb]. rewrite printed_app, param_app.
  destruct (String.eqb name n) eqn:E.
  - apply String.eqb_eq in E. subst n. cbn [orb andb].
    destruct (truthy (field data name)) eqn:Hd.
    + rewrite printed_cons, (truthy_live _ Hd).
      cbn [param]. now rewrite str_eqb_refl.
    + cbn [printed live filter map param]. rewrite IH.
      now rewrite andb_false_r.
  - cbn [orb]. rewrite <- IH.
    destruct (truthy (field data n)) eqn:Hd; [|reflexivity].
    rewrite printed_cons, (truthy_live _ Hd).
    cbn [param]. now rewrite lit_eqb, String.eqb_sym, E.
Qed.

(** * The names an operation sends *)

Lemma subsequence_refl {A} (l : list A) : subsequence l l.
Proof. induction l; constructor; auto. Qed.

Lemma subsequence_trans {A} (a b c : list A) :
  subsequence a b -> subsequence b c -> subsequence a c.
Proof.
  intros Hab Hbc. revert a Hab.
  induction Hbc as [l|x b c Hbc IH|x b c Hbc IH]; intros a Hab.
  - inversion Hab; subst. constructor.
  - inversion Hab; subst.
    + constructor.
    + constructor. now apply IH.
    + apply sub_skip. now apply IH.
  - apply sub_skip. now apply IH.
Qed.

Lemma subsequence_app {A} (a a' b b' : list A) :
  subsequence a a' -> subsequence b b' -> subsequence (a ++ b) (a' ++ b').
Proof.
  intros Ha Hb. induction Ha as [l|x a a' Ha IH|x a a' Ha IH]; simpl.
  - induction l; simpl; [exact Hb | now apply sub_skip].
  - now constructor.
  - now apply sub_skip.
Qed.

Lemma subsequence_Forall {A} (P : A -> Prop) (a b : list A) :
  subsequence a b -> Forall P b -> Forall P a.
Proof.
  induction 1 as [l|x a b Hab IH|x a b Hab IH]; intros H.
  - constructor.
  - inversion H; subst. constructor; auto.
  - inversion H; subst. auto.
Qed.

Lemma subsequence_filter {A} (f : A -> bool) (l : list A) :
  subsequence (filter f l) l.
Proof.
  induction l as [|x l IH]; simpl; [constructor|].
  destruct (f x); now constructor.
Qed.

Lemma subsequence_map {A B} (f : A -> B) (a b : list A) :
  subsequence a b -> subsequence (map f a) (map f b).
Proof. induction 1; simpl; constructor; auto. Qed.

Lemma printed_keys (params : list (jsstring * value)) :
  subsequence (map fst (printed params)) (map fst params).
Proof.
  unfold printed, live. rewrite map_map. cbn [fst].
  change (map (fun x : jsstring * value => fst x)) with (map (@fst jsstring value)).
  apply subsequence_map, subsequence_filter.
Qed.

Lemma copy_defined_keys (data : value) (names : list string) :
  subsequence (map fst (copy_defined data names)) (map lit names).
Proof.
  unfold copy_defined. induction names as [|n names IH]; simpl;
    [constructor|].
  destruct (defined (field data n)); simpl; now constructor.
Qed.

Lemma copy_truthy_keys (data : value) (names : list string) :
  subsequence (map fst (copy_truthy data names)) (map lit names).
Proof.
  unfold copy_truthy. induction names as [|n names IH]; simpl;
    [constructor|].
  destruct (truthy (field data n)); simpl; now constructor.
Qed.

Lemma credential_keys (this : t) (command : jsstring) :
  subsequence (map fst (credential this command)) [lit "auth-token"].
Proof.
  unfold credential. destruct (authToken this) as [[|c tok]|];
    try apply sub_nil.
  destruct (negb (str_eqb command (lit "show")));
    [apply subsequence_refl | apply sub_nil].
Qed.

Lemma credential_show (this : t) : credential this (lit "show") = [].
Proof.
  unfold credential. now destruct (authToken this) as [[|c tok]|].
Qed.

(** The keys an operation puts into its parameter object. *)
Lemma params_of_keys (op : operation) (data : value)
  (params : list (jsstring * value)) :
  params_of op data = Return params ->
  subsequence (map fst params)
              (map lit (match op with
                        | ShowList => names_of op
                        | _ => tl (names_of op)
                        end)).
Proof.
  destruct op; cbn [params_of names_of tl].
  - intros E. injection E as <-. apply subsequence_refl.
  - unfold addTodo_params. destruct (_ || _); [discriminate|].
    intros E. injection E as <-.
    exact (sub_take _ _ _
             (copy_truthy_keys data
                ["notes"; "when"; "deadline"; "tags"; "checklist";
                 "list"]%string)).
  - unfold addProject_params. destruct (_ || _); [discriminate|].
    intros E. injection E as <-.
    cbn [map fst]. apply sub_take. rewrite map_app.
    apply (subsequence_app _
             (map lit ["notes"; "when"; "deadline"; "tags"; "area"]%string)
             _ [lit "todos"]).
    + exact (copy_truthy_keys data
               ["notes"; "when"; "deadline"; "tags"; "area"]%string).
    + destruct (field data "todos");
        try apply sub_nil; apply subsequence_refl.
  - destruct data; try discriminate.
    destruct (_ || _); [discriminate|].
    intros E. injection E as <-. apply subsequence_refl.
  - unfold updateTodo_params. destruct (_ || _); [discriminate|].
    intros E. injection E as <-.
    exact (sub_take _ _ _
             (copy_defined_keys data
                ["title"; "notes"; "when"; "deadline"; "tags"; "checklist";
                 "list"]%string)).
  - unfold updateProject_params. destruct (_ || _); [discriminate|].
    intros E. injection E as <-.
    exact (sub_take _ _ _
             (copy_defined_keys data
                ["title"; "notes"; "when"; "deadline"; "tags";
                 "area"]%string)).
  - unfold completeTodo_params. destruct (_ || _); [discriminate|].
    intros E. injection E as <-. apply subsequence_refl.
Qed.

Lemma run_params (P : Process) (this : t) (op : operation) (data : value)
  (w : World) :
  run P this op data w
  = bind (lift (params_of op data))
         (fun params => executeCommand P this (command_of op) params) w.
Proof.
  destruct op; try reflexivity.
  cbn [run params_of command_of]. unfold ThingsClient.search, bind, lift, throw.
  destruct data; try reflexivity.
  now destruct (_ || _).
Qed.

Lemma encode_pairs_plain_keys (l pairs : list (jsstring * jsstring)) :
  Forall plain_key (map fst l) ->
  encode_pairs l = Return pairs ->
  map fst pairs = map fst l.
Proof.
  revert pairs. induction l as [|[key v] l IH]; intros pairs H E.
  - inversion E. reflexivity.
  - cbn [encode_pairs] in E. inversion H as [|? ? Hk Hl]; subst.
    cbn [fst] in Hk. rewrite (encodeURIComponent_plain_key key Hk) in E.
    cbn [and_then] in E.
    destruct (encodeURIComponent v); try discriminate.
    destruct (encode_pairs l) as [ps| |]; try discriminate.
    inversion E. cbn [map fst]. f_equal. now apply IH.
Qed.

Lemma names_of_plain (op : operation) :
  Forall plain_key (map lit (names_of op)).
Proof.
  destruct op; repeat constructor.
Qed.

Lemma sent_keys (token : option jsstring) (op : operation) (data : value)
  (params : list (jsstring * value)) :
  params_of op data = Return params ->
  subsequence (map fst (sent (with_token token) (command_of op) params))
              (map lit (names_of op)).
Proof.
  intros E. pose proof (params_of_keys op data params E) as Hk.
  pose proof (subsequence_trans _ _ _ (printed_keys params) Hk) as Hp.
  unfold sent. rewrite map_app.
  destruct op; cbn [command_of] in *;
    try (change (map lit (names_of ?o))
           with ([lit "auth-token"] ++ map lit (tl (names_of o)));
         apply subsequence_app; [apply credential_keys | exact Hp]).
  rewrite credential_show. exact Hp.
Qed.

Lemma opened_once (w : World) (url : jsstring) :
  opened w <> opened w ++ [url].
Proof.
  intros H. apply (f_equal (@List.length jsstring)) in H.
  rewrite length_app in H. simpl in H. lia.
Qed.

(** The URL an operation opened is the one built from its parameters. *)
Lemma run_opened (P : Process) (this : t) (op : operation) (data : value)
  (w w' : World) (r : completion bool) (url : jsstring) :
  run P this op data w = (r, w') ->
  opened w' = opened w ++ [url] ->
  exists params,
    params_of op data = Return params
    /\ buildUrl this (command_of op) params = Return url.
Proof.
  rewrite run_params. unfold bind, lift.
  destruct (params_of op data) as [params|message|].
  - intros E Ho. exists params. split; [reflexivity|].
    pose proof (executeCommand_opened P this (command_of op) params w) as H.
    rewrite E in H. cbn [snd] in H. rewrite Ho in H.
    destruct (buildUrl this (command_of op) params) as [url0| |].
    + apply app_inv_head in H. now inversion H.
    + symmetry in H. now apply opened_once in H.
    + symmetry in H. now apply opened_once in H.
  - intros E Ho. inversion E; subst. now apply opened_once in Ho.
  - intros E Ho. inversion E; subst. now apply opened_once in Ho.
Qed.

(** X13.  The parameters of the URL an operation of the client opens come
    from a fixed list of names, in a fixed order and each at most once:
    the names written in the URL are got from [auth-token], the required
    field and the optional fields of the operation, in the order of the
    source, by leaving names out.  No other property of the input object
    reaches the URL; [showList] sends nothing but [id]. *)
Theorem operations_send_listed_names_in_order :
  forall (P : Process) (token : option jsstring) (op : operation)
         (data : value) (w w' : World) (r : completion bool)
         (url : jsstring),
    run P (with_token token) op data w = (r, w') ->
    opened w' = opened w ++ [url] ->
    subsequence (map fst (searchParams url)) (map lit (names_of op)).
Proof.
  intros P token op data w w' r url E Ho.
  destruct (run_opened _ _ _ _ _ _ _ _ E Ho) as (params & Ep & Eb).
  pose proof (buildUrl_searchParams (with_token token) _ _ params url
                (plain_operation op) Eb) as Hs.
  rewrite queryPairs_sent in Hs.
  pose proof (sent_keys token op data params Ep) as Hk.
  rewrite (encode_pairs_plain_keys _ _
             (subsequence_Forall _ _ _ Hk (names_of_plain op)) Hs).
  exact Hk.
Qed.

(** X13 at work: an update with fields out of order and fields the
    operation does not know. *)
Lemma operations_send_listed_names_in_order_witness :
  subsequence
    (map fst (searchParams (lit "things:///update?auth-token=tok&id=abc&title=New&tags=home")))
    (map lit (names_of UpdateTodo)).
Proof.
  apply (operations_send_listed_names_in_order
           (mac (Some (lit "tok"))) (Some (lit "tok")) UpdateTodo
           (Obj [(lit "tags", Str (lit "home")); (lit "completed", Bool true);
                 (lit "id", Str (lit "abc")); (lit "reveal", Bool true);
                 (lit "title", Str (lit "New"))])
           fresh
           (mkWorld [lit "things:///update?auth-token=tok&id=abc&title=New&tags=home"]
                    [executing (lit "things:///update?auth-token=tok&id=abc&title=New&tags=home")])
           (Return true)).
  - reflexivity.
  - reflexivity.
Defined.

(** * Objects field by field *)

Lemma lookup_record_cons (n m : string) (v : value)
  (rest : list (string * value)) :
  lookup (lit n) (record ((m, v) :: rest))
  = if String.eqb m n && defined v then v
    else lookup (lit n) (record rest).
Proof.
  unfold record. cbn [flat_map fst snd]. unfold entry.
  destruct (defined v); [|now rewrite andb_false_r].
  cbn [app lookup]. rewrite lit_eqb, andb_true_r.
  now destruct (String.eqb m n).
Qed.

Lemma param_record_cons (n m : string) (v : value)
  (rest : list (string * value)) :
  param (lit n) (printed (record ((m, v) :: rest)))
  = if String.eqb m n && negb (nullish v) then Some (toString v)
    else param (lit n) (printed (record rest)).
Proof.
  unfold record. cbn [flat_map fst snd]. rewrite printed_app, param_app.
  unfold entry. destruct v; cbn [defined nullish negb]; rewrite ?andb_false_r;
    try reflexivity;
    rewrite printed_cons; cbn [nullish param]; rewrite lit_eqb, andb_true_r;
    now destruct (String.eqb m n).
Qed.

Lemma copy_defined_record (data : value) (names : list string) :
  copy_defined data names = record (map (fun n => (n, field data n)) names).
Proof.
  unfold copy_defined, record, entry.
  induction names as [|n names IH]; [reflexivity|].
  cbn [flat_map map fst snd]. now rewrite IH.
Qed.

Lemma copy_truthy_record (data : value) (names : list string) :
  copy_truthy data names
  = record (map (fun n => (n, truthy_value (field data n))) names).
Proof.
  unfold copy_truthy, record, entry, truthy_value.
  induction names as [|n names IH]; [reflexivity|].
  cbn [flat_map map fst snd]. rewrite IH. f_equal.
  destruct (truthy (field data n)) eqn:E; [|reflexivity].
  destruct (field data n); try discriminate; reflexivity.
Qed.

Lemma copy_trimmed_record (o : value) (expr name : string) :
  trimmable (field o name) = true ->
  copy_trimmed o expr name
  = Return (record [(name, trimmed_value (field o name))]).
Proof.
  unfold trimmable, copy_trimmed, record, entry, trimmed_value.
  cbn [flat_map fst snd]. rewrite app_nil_r.
  destruct (field o name) as [| |b|n|s|items|props]; cbn [truthy negb orb is_string];
    try reflexivity; try discriminate;
    try (destruct b; [discriminate | reflexivity]);
    try (destruct (negb (n =? 0)); [discriminate | reflexivity]).
  intros _. destruct s as [|c s]; [reflexivity|].
  cbn [call_trim and_then]. destruct (trim (c :: s)); reflexivity.
Qed.

Lemma record_app (a b : list (string * value)) :
  record (a ++ b) = record a ++ record b.
Proof. unfold record. apply flat_map_app. Qed.

Lemma required_field_trimmed (o : value) (expr name : string)
  (message s : jsstring) :
  field o name = Str s -> trim s <> [] ->
  required_field o expr name message = Return (trim s).
Proof.
  intros Hf Hs. unfold required_field.
  rewrite (get_of_field o name _ Hf) by discriminate. cbn [and_then].
  destruct s as [|c s]; [now contradiction Hs|].
  cbn [truthy negb call_trim and_then].
  destruct (trim (c :: s)); [now contradiction Hs | reflexivity].
Qed.

(** [trim] keeps a string well formed, and made of code units. *)
Lemma space_not_surrogate (c : Z) :
  is_js_space c = true ->
  is_high_surrogate c = false /\ is_low_surrogate c = false.
Proof.
  unfold is_js_space, is_high_surrogate, is_low_surrogate. intros H.
  bool_to_Z; split; Z_to_bool; lia.
Qed.

Lemma well_formed_after_spaces (p s : jsstring) :
  forallb is_js_space p = true ->
  well_formed (p ++ s) = well_formed s.
Proof.
  induction p as [|c p IH]; [reflexivity|].
  cbn [forallb app well_formed]. intros H.
  apply andb_true_iff in H. destruct H as [Hc Hp].
  destruct (space_not_surrogate c Hc) as [-> ->]. cbn [negb andb]. auto.
Qed.

Lemma well_formed_before_spaces (s q : jsstring) :
  forallb is_js_space q = true ->
  well_formed (s ++ q) = true -> well_formed s = true.
Proof.
  intros Hq. induction s as [|c rest IH IH2] using pair_induction.
  - reflexivity.
  - cbn [app well_formed]. destruct (is_high_surrogate c).
    + destruct rest as [|d rest'].
      * cbn [app]. destruct q as [|x q]; [discriminate|].
        cbn [forallb] in Hq. apply andb_true_iff in Hq. destruct Hq as [Hx _].
        destruct (space_not_surrogate x Hx) as [_ ->]. discriminate.
      * cbn [app]. intros H. apply andb_true_iff in H. destruct H as [-> H].
        cbn [andb]. exact (IH2 d rest' eq_refl H).
    + intros H. apply andb_true_iff in H. destruct H as [-> H].
      cbn [andb]. auto.
Qed.

Lemma trim_well_formed (s : jsstring) :
  well_formed s = true -> well_formed (trim s) = true.
Proof.
  intros H. destruct (trim_middle s) as (a & b & E & Ha & Hb).
  rewrite E, (well_formed_after_spaces a _ Ha) in H.
  exact (well_formed_before_spaces _ b Hb H).
Qed.

Lemma trim_utf16 (s : jsstring) : utf16 s -> utf16 (trim s).
Proof.
  intros H. destruct (trim_middle s) as (a & b & E & _).
  unfold utf16 in *. rewrite E in H.
  apply Forall_app in H. destruct H as [_ H].
  apply Forall_app in H. tauto.
Qed.

Lemma defined_or_undefined (v : value) :
  (if defined v then v else Undefined) = v.
Proof. now destruct v. Qed.

Lemma lookup_record_absent (n : string) (fields : list (string * value)) :
  ~ In n (map fst fields) -> lookup (lit n) (record fields) = Undefined.
Proof.
  induction fields as [|[m v] rest IH]; intros H; [reflexivity|].
  rewrite lookup_record_cons.
  destruct (String.eqb m n) eqn:E.
  - apply String.eqb_eq in E. subst. exfalso. apply H. now left.
  - cbn [andb]. apply IH. intros Hin. apply H. now right.
Qed.

Lemma assoc_absent (n : string) (fields : list (string * value)) :
  ~ In n (map fst fields) -> assoc n fields = Undefined.
Proof.
  induction fields as [|[m v] rest IH]; intros H; [reflexivity|].
  cbn [assoc]. destruct (String.eqb m n) eqn:E.
  - apply String.eqb_eq in E. subst. exfalso. apply H. now left.
  - apply IH. intros Hin. apply H. now right.
Qed.

(** In an object written field by field under distinct names, a name has
    the value it was written with. *)
Lemma lookup_record (n : string) (fields : list (string * value)) :
  NoDup (map fst fields) ->
  lookup (lit n) (record fields) = assoc n fields.
Proof.
  induction fields as [|[m v] rest IH]; intros H; [reflexivity|].
  inversion H as [|? ? Hm Hr]; subst.
  rewrite lookup_record_cons. cbn [assoc].
  destruct (String.eqb m n) eqn:E; cbn [andb]; [|now apply IH].
  apply String.eqb_eq in E. subst m.
  destruct (defined v) eqn:Hd; [reflexivity|].
  rewrite (lookup_record_absent n rest Hm). now destruct v.
Qed.

Lemma param_record_absent (n : string) (fields : list (string * value)) :
  ~ In n (map fst fields) -> param (lit n) (printed (record fields)) = None.
Proof.
  induction fields as [|[m v] rest IH]; intros H; [reflexivity|].
  rewrite param_record_cons.
  destruct (String.eqb m n) eqn:E.
  - apply String.eqb_eq in E. subst. exfalso. apply H. now left.
  - cbn [andb]. apply IH. intros Hin. apply H. now right.
Qed.

Lemma param_record (n : string) (fields : list (string * value)) :
  NoDup (map fst fields) ->
  param (lit n) (printed (record fields))
  = if nullish (assoc n fields) then None
    else Some (toString (assoc n fields)).
Proof.
  induction fields as [|[m v] rest IH]; intros H; [reflexivity|].
  inversion H as [|? ? Hm Hr]; subst.
  rewrite param_record_cons. cbn [assoc].
  destruct (String.eqb m n) eqn:E; cbn [andb]; [|now apply IH].
  apply String.eqb_eq in E. subst m.
  destruct (nullish v); cbn [negb]; [|reflexivity].
  now apply param_record_absent.
Qed.

Lemma lit_well_formed (s : string) : well_formed (lit s) = true.
Proof.
  assert (H : forall l : list Z, (forall c, In c l -> 0 <= c < 256) ->
                                 well_formed l = true).
  { induction l as [|c l IH]; intros Hl; [reflexivity|].
    cbn [well_formed].
    assert (Hc : 0 <= c < 256) by (apply Hl; now left).
    unfold is_high_surrogate, is_low_surrogate.
    rewrite (proj2 (Z.leb_gt 55296 c)) by lia.
    rewrite (proj2 (Z.leb_gt 56320 c)) by lia.
    cbn [andb negb]. apply IH. intros x Hx. apply Hl. now right. }
  apply H. intros c Hc. unfold lit in Hc. apply in_map_iff in Hc.
  destruct Hc as (a & <- & _). pose proof (nat_ascii_bounded a). lia.
Qed.

Lemma record_well_formed (fields : list (string * value)) :
  Forall (fun nv => well_formed (toString (snd nv)) = true) fields ->
  all_well_formed (printed (record fields)) = true.
Proof.
  induction 1 as [|[n v] rest Hv _ IH]; [reflexivity|].
  unfold record. cbn [flat_map fst snd]. fold (record rest).
  rewrite printed_app, all_well_formed_app, IH, andb_true_r.
  unfold entry. destruct (defined v); [|reflexivity].
  rewrite printed_cons. destruct (nullish v); [reflexivity|].
  cbn [all_well_formed forallb fst snd] in *.
  now rewrite lit_well_formed, Hv.
Qed.

Lemma trimmed_value_well_formed (v : value) :
  well_formed (toString v) = true ->
  well_formed (toString (trimmed_value v)) = true.
Proof.
  destruct v; try reflexivity. cbn [toString trimmed_value]. intros H.
  pose proof (trim_well_formed s H) as Ht.
  destruct (trim s); [reflexivity | exact Ht].
Qed.

Lemma truthy_value_well_formed (v : value) :
  well_formed (toString v) = true ->
  well_formed (toString (truthy_value v)) = true.
Proof. unfold truthy_value. now destruct (truthy v). Qed.

Lemma sent_as_intro (this : t) (command : jsstring)
  (params : list (jsstring * value)) (url : jsstring) (name : string)
  (v : value) :
  buildUrl this command params = Return url ->
  sent this command params <> [] ->
  plain_key (lit name) ->
  param (lit name) (sent this command params)
  = (if nullish v then None else Some (toString v)) ->
  sent_as name v url.
Proof.
  intros E Hne Hn Hp.
  pose proof (buildUrl_param this command params url name E Hne Hn) as H.
  rewrite Hp in H. unfold sent_as. now destruct (nullish v).
Qed.

Lemma assoc_map (name : string) (f : string -> value) (names : list string) :
  assoc name (map (fun n => (n, f n)) names)
  = if among name names then f name else Undefined.
Proof.
  unfold among. induction names as [|n names IH]; [reflexivity|].
  cbn [map assoc existsb]. rewrite (String.eqb_sym name n).
  destruct (String.eqb n name) eqn:E; [|exact IH].
  apply String.eqb_eq in E. now subst.
Qed.

Ltac distinct_names :=
  repeat (constructor;
          [let H := fresh in
           simpl; intros H; repeat (destruct H as [H|H]; [discriminate|]);
           exact H|]);
  constructor.

Lemma map_fst_pairs (f : string -> value) (names : list string) :
  map fst (map (fun n => (n, f n)) names) = names.
Proof. rewrite map_map. cbn [fst]. apply map_id. Qed.

(** The parameter object the client builds from an object written field
    by field. *)
Lemma updateTodo_params_record (fields : list (string * value)) :
  NoDup (map fst fields) ->
  truthy (assoc "id" fields) = true ->
  updateTodo_params (Obj (record fields))
  = Return (record (map (fun n => (n, assoc n fields))
                        ["id"; "title"; "notes"; "when"; "deadline"; "tags";
                         "checklist"; "list"]%string)).
Proof.
  intros Hd Hid. unfold updateTodo_params.
  cbn [field truthy negb orb]. rewrite (lookup_record "id" fields Hd), Hid.
  cbn [negb]. rewrite copy_defined_record. f_equal.
  cbn [map]. cbn [field]. rewrite !(lookup_record _ fields Hd).
  unfold record at 2. cbn [flat_map fst snd]. unfold entry at 1.
  destruct (assoc "id" fields) eqn:E; try discriminate; reflexivity.
Qed.

Lemma update_todo_updateData_record (args : value) (id : jsstring) :
  field args "id" = Str id -> trim id <> [] ->
  trimmable (field args "title") = true ->
  trimmable (field args "list") = true ->
  update_todo_updateData args = Return (Obj (record (update_todo_fields args))).
Proof.
  intros Hid Hne Ht Hl. unfold update_todo_updateData.
  rewrite (required_field_trimmed _ _ _ _ id Hid Hne).
  rewrite (copy_trimmed_record _ _ _ Ht), (copy_trimmed_record _ _ _ Hl).
  cbn [and_then]. rewrite !copy_defined_record, copy_truthy_record.
  unfold update_todo_fields. rewrite Hid. cbn [trimmed_value].
  destruct (trim id) as [|c tid] eqn:E; [now contradiction Hne|].
  f_equal. f_equal. unfold record. cbn [map flat_map fst snd].
  unfold entry at 1. cbn [defined app].
  repeat rewrite app_nil_r. repeat rewrite <- app_assoc. reflexivity.
Qed.

Lemma fields_well_formed_record (fields : list (string * value)) :
  Forall (fun nv => well_formed (toString (snd nv)) = true) fields ->
  forall names : list string,
    Forall (fun nv => well_formed (toString (snd nv)) = true)
           (map (fun n => (n, assoc n fields)) names).
Proof.
  intros H names. apply Forall_forall. intros [n v] Hin.
  apply in_map_iff in Hin. destruct Hin as (m & E & _). inversion E; subst.
  cbn [snd]. clear E. induction H as [|[k x] rest Hx _ IH]; [reflexivity|].
  cbn [assoc]. destruct (String.eqb k n); [exact Hx | exact IH].
Qed.

(** X14.  What [update_todo] passes on.  On a Mac with the credential
    set, where [open] resolves, for arguments whose [id] is a string that
    is not blank and whose [title] and [list] are strings if they are
    there, the handler opens one [update] URL and answers with the trimmed
    identifier.  In that URL [notes], [deadline], [tags] and [checklist]
    stand as given whenever they are given, the empty string included, so
    these four can be cleared; [title] and [list] are trimmed and left out
    when nothing remains, and [when] is left out when it is empty, so these
    three cannot. *)
Theorem update_todo_clears_four_fields_only :
  forall (P : Process) (token : option jsstring) (args : value)
         (id : jsstring) (w : World),
    isThingsAvailable P = true -> no_token P = false ->
    resolves P -> token_well_formed token ->
    field args "id" = Str id -> trim id <> [] ->
    trimmable (field args "title") = true ->
    trimmable (field args "list") = true ->
    fields_well_formed args ->
    exists url w',
      update_todo P (with_token token) args w
      = (Return (lit "Successfully updated to-do with ID: " ++ quote
                 ++ trim id ++ quote), w')
      /\ opened w' = opened w ++ [url]
      /\ (forall name,
             In name (map fst (update_todo_fields args)) ->
             sent_as name (assoc name (update_todo_fields args)) url)
      /\ (forall name,
             In name ["notes"; "deadline"; "tags"; "checklist"]%string ->
             field args name = Str [] ->
             decoded_param name url = Some [])
      /\ (forall name s,
             In name ["title"; "list"]%string ->
             field args name = Str s -> trim s = [] ->
             param (lit name) (searchParams url) = None)
      /\ (field args "when" = Str [] ->
          param (lit "when") (searchParams url) = None).
Proof.
  intros P token args id w Ha Hn Ho Ht Hid Hne Htitle Hlist Hwf.
  set (F := update_todo_fields args).
  assert (HF : NoDup (map fst F))
    by (unfold F, update_todo_fields; cbn [map fst]; distinct_names).
  assert (Hidv : assoc "id" F = Str (trim id)).
  { unfold F, update_todo_fields. cbn [assoc String.eqb Ascii.eqb Bool.eqb].
    rewrite Hid. cbn [trimmed_value].
    destruct (trim id); [now contradiction Hne | reflexivity]. }
  assert (Hidt : truthy (assoc "id" F) = true).
  { rewrite Hidv. cbn [truthy].
    destruct (trim id); [now contradiction Hne | reflexivity]. }
  set (names := ["id"; "title"; "notes"; "when"; "deadline"; "tags";
                 "checklist"; "list"]%string).
  assert (Hnames : NoDup (map fst (map (fun n => (n, assoc n F)) names)))
    by (rewrite map_fst_pairs; unfold names; distinct_names).
  set (params := record (map (fun n => (n, assoc n F)) names)).
  assert (Hparams : updateTodo_params (Obj (record F)) = Return params)
    by (apply updateTodo_params_record; assumption).
  assert (HFwf : Forall (fun nv => well_formed (toString (snd nv)) = true) F).
  { unfold F, update_todo_fields.
    repeat constructor; cbn [snd];
      try apply trimmed_value_well_formed;
      try apply truthy_value_well_formed; apply Hwf. }
  destruct (executeCommand_sends P token UpdateTodo params w Ho Ht)
    as (url & Ex & Eb).
  { apply record_well_formed. now apply fields_well_formed_record. }
  cbn [command_of] in Ex, Eb.
  exists url, (mkWorld (opened w ++ [url]) (console w ++ [executing url])).
  assert (Hsent : forall name,
             In name names ->
             sent_as name (assoc name F) url).
  { intros name Hin.
    assert (Hname : plain_key (lit name) /\ String.eqb name "auth-token" = false).
    { unfold names in Hin. simpl in Hin.
      repeat (destruct Hin as [<-|Hin];
              [split; [apply lit_plain_key|]; reflexivity|]).
      contradiction. }
    destruct Hname as [Hk Hna].
    apply (sent_as_intro _ _ _ _ _ _ Eb); auto.
    - unfold sent. intros H. apply app_eq_nil in H. destruct H as [_ H].
      assert (Hp : param (lit "id") (printed params) <> None).
      { unfold params. rewrite param_record by exact Hnames.
        rewrite assoc_map.
        change (among "id" names) with true. cbv iota.
        rewrite (truthy_live _ Hidt). discriminate. }
      rewrite H in Hp. now apply Hp.
    - unfold sent. rewrite param_app, param_credential by exact Hna.
      unfold params. rewrite param_record by exact Hnames.
      rewrite assoc_map.
      assert (Ham : among name names = true).
      { unfold among. apply existsb_exists. exists name. split; auto.
        apply String.eqb_refl. }
      now rewrite Ham. }
  split; [|split; [reflexivity|split; [exact Hsent|split; [|split]]]].
  - unfold update_todo, try_catch, bind, lift.
    rewrite Ha. cbn [negb].
    rewrite (required_field_trimmed _ _ _ _ id Hid Hne).
    unfold require_token. rewrite Hn. unfold ret.
    rewrite (update_todo_updateData_record args id Hid Hne Htitle Hlist).
    unfold updateTodo, bind, lift. fold F. rewrite Hparams, Ex.
    cbn [field]. rewrite (lookup_record "id" F HF), Hidv. reflexivity.
  - intros name Hin Hf.
    assert (Hin' : In name names)
      by (unfold names; simpl in *; tauto).
    pose proof (Hsent name Hin') as H.
    assert (Hv : assoc name F = Str []).
    { unfold F, update_todo_fields. simpl in Hin.
      repeat (destruct Hin as [<-|Hin]; [exact Hf|]). contradiction. }
    rewrite Hv in H. apply H. constructor.
  - intros name s Hin Hf Hs.
    assert (Hin' : In name names)
      by (unfold names; simpl in *; tauto).
    pose proof (Hsent name Hin') as H.
    assert (Hv : assoc name F = Undefined).
    { unfold F, update_todo_fields. simpl in Hin.
      repeat (destruct Hin as [<-|Hin];
              [cbn [assoc String.eqb Ascii.eqb Bool.eqb]; rewrite Hf;
               cbn [trimmed_value]; now rewrite Hs|]).
      contradiction. }
    now rewrite Hv in H.
  - intros Hf.
    pose proof (Hsent "when"%string) as H.
    assert (Hv : assoc "when" F = Undefined).
    { unfold F, update_todo_fields. cbn [assoc String.eqb Ascii.eqb Bool.eqb].
      now rewrite Hf. }
    rewrite Hv in H. apply H. unfold names. simpl. tauto.
Qed.

Lemma fields_well_formed_object (props : list (jsstring * value)) :
  Forall (fun kv => well_formed (toString (snd kv)) = true) props ->
  fields_well_formed (Obj props).
Proof.
  intros H name. cbn [field].
  induction H as [|[k v] rest Hv _ IH]; [reflexivity|].
  cbn [lookup]. destruct (str_eqb k (lit name)); [exact Hv | exact IH].
Qed.

(** X14 at work: an update that clears the notes, leaves the title alone
    and sets a tag. *)
Lemma update_todo_clears_four_fields_only_witness :
  exists url w',
    update_todo (mac (Some (lit "tok"))) (with_token (Some (lit "tok")))
      (Obj [(lit "id", Str (lit " abc ")); (lit "title", Str (lit "  "));
            (lit "notes", Str []); (lit "when", Str []);
            (lit "tags", Str (lit "home"))])
      fresh
    = (Return (lit "Successfully updated to-do with ID: " ++ quote
               ++ lit "abc" ++ quote), w')
    /\ opened w' = opened fresh ++ [url]
    /\ decoded_param "notes" url = Some []
    /\ param (lit "title") (searchParams url) = None
    /\ param (lit "when") (searchParams url) = None
    /\ decoded_param "tags" url = Some (lit "home")
    /\ decoded_param "id" url = Some (lit "abc").
Proof.
  destruct (update_todo_clears_four_fields_only
              (mac (Some (lit "tok"))) (Some (lit "tok"))
              (Obj [(lit "id", Str (lit " abc ")); (lit "title", Str (lit "  "));
                    (lit "notes", Str []); (lit "when", Str []);
                    (lit "tags", Str (lit "home"))])
              (lit " abc ") fresh)
    as (url & w' & E & Ho & S & C & T & W).
  - reflexivity.
  - reflexivity.
  - intros before url. reflexivity.
  - reflexivity.
  - reflexivity.
  - discriminate.
  - reflexivity.
  - reflexivity.
  - apply fields_well_formed_object. repeat constructor.
  - exists url, w'. split; [exact E|]. split; [exact Ho|].
    split; [apply (C "notes"%string); [simpl; tauto | reflexivity]|].
    split; [apply (T "title"%string (lit "  "));
            [simpl; tauto | reflexivity | reflexivity]|].
    split; [apply W; reflexivity|].
    split.
    + apply (S "tags"%string); [simpl; tauto | apply lit_utf16].
    + apply (S "id"%string); [simpl; tauto | apply (lit_utf16 "abc")].
Defined.

(** * [add_project] *)

Lemma well_formed_app (a b : jsstring) :
  well_formed a = true -> well_formed b = true -> well_formed (a ++ b) = true.
Proof.
  intros Ha Hb. induction a as [|c rest IH IH2] using pair_induction;
    [exact Hb|].
  cbn [app well_formed] in *. destruct (is_high_surrogate c).
  - destruct rest as [|d rest']; [discriminate|].
    apply andb_true_iff in Ha. destruct Ha as [Hd Hr].
    cbn [app]. rewrite Hd. cbn [andb]. exact (IH2 d rest' eq_refl Hr).
  - apply andb_true_iff in Ha. destruct Ha as [Hc Hr].
    rewrite Hc. cbn [andb]. auto.
Qed.

Lemma well_formed_join (sep : jsstring) (parts : list jsstring) :
  well_formed sep = true ->
  Forall (fun p => well_formed p = true) parts ->
  well_formed (join sep parts) = true.
Proof.
  intros Hs. induction 1 as [|p parts Hp Hparts IH]; [reflexivity|].
  destruct parts as [|q parts]; [exact Hp|].
  change (join sep (p :: q :: parts)) with (p ++ sep ++ join sep (q :: parts)).
  repeat apply well_formed_app; auto.
Qed.

Lemma utf16_join (sep : jsstring) (parts : list jsstring) :
  utf16 sep -> Forall utf16 parts -> utf16 (join sep parts).
Proof.
  intros Hs. induction 1 as [|p parts Hp Hparts IH]; [constructor|].
  destruct parts as [|q parts]; [exact Hp|].
  change (join sep (p :: q :: parts)) with (p ++ sep ++ join sep (q :: parts)).
  unfold utf16 in *. rewrite !Forall_app. auto.
Qed.

Lemma kept_todos_well_formed (todos : list value) :
  Forall (fun todo => well_formed (toString todo) = true) todos ->
  Forall (fun p => well_formed p = true) (kept_todos todos).
Proof.
  induction 1 as [|todo todos Ht _ IH]; [constructor|].
  unfold kept_todos. cbn [flat_map]. apply Forall_app. split; [|exact IH].
  pose proof (trimmed_value_well_formed todo Ht) as H.
  destruct (trimmed_value todo); try constructor; [exact H | constructor].
Qed.

Lemma array_join_strings (sep : jsstring) (parts : list jsstring) :
  array_join sep (map Str parts) = join sep parts.
Proof. unfold array_join. rewrite map_map. cbn [toString]. now rewrite map_id. Qed.

(** The filter and the map of the handler, on items it can trim. *)
Lemma filter_nonblank_kept (todos : list value) :
  Forall (fun todo => trimmable todo = true) todos ->
  filter_nonblank todos
  = Return (filter (fun todo => defined (trimmed_value todo)) todos).
Proof.
  induction 1 as [|todo todos Ht _ IH]; [reflexivity|].
  cbn [filter_nonblank filter]. rewrite IH.
  unfold trimmable in Ht.
  destruct todo as [| |b|n|s|items|props]; cbn [truthy is_string negb orb] in Ht;
    cbn [truthy trimmed_value defined and_then call_trim]; try reflexivity;
    try discriminate.
  - destruct b; [discriminate | reflexivity].
  - destruct (negb (n =? 0)); [discriminate | reflexivity].
  - destruct s as [|c s]; [reflexivity|]. cbn [and_then].
    destruct (trim (c :: s)); reflexivity.
Qed.

Lemma map_trim_kept (todos : list value) :
  map_trim (filter (fun todo => defined (trimmed_value todo)) todos)
  = Return (map Str (kept_todos todos)).
Proof.
  induction todos as [|todo todos IH]; [reflexivity|].
  unfold kept_todos in *. cbn [filter flat_map].
  destruct todo as [| |b|n|s|items|props]; cbn [trimmed_value defined app];
    try exact IH.
  destruct (trim s) as [|c t] eqn:E; cbn [defined app]; [exact IH|].
  cbn [map_trim call_trim and_then]. rewrite E, IH. reflexivity.
Qed.

Lemma map_trim_modelled (todos : list value) :
  map_trim todos <> NotModelled.
Proof.
  induction todos as [|todo todos IH]; [discriminate|].
  cbn [map_trim]. destruct todo; cbn [call_trim and_then]; try discriminate.
  destruct (map_trim todos); [discriminate | discriminate | contradiction].
Qed.

Lemma add_project_projectData_record (args : value) (title : jsstring)
  (todos : list value) :
  field args "title" = Str title -> trim title <> [] ->
  trimmable (field args "notes") = true ->
  trimmable (field args "tags") = true ->
  trimmable (field args "area") = true ->
  field args "todos" = Arr todos ->
  Forall (fun todo => trimmable todo = true) todos ->
  add_project_projectData args
  = Return (Obj (record (add_project_fields args))).
Proof.
  intros Ht Hne Hnotes Htags Harea Htodos Hall. unfold add_project_projectData.
  rewrite (required_field_trimmed _ _ _ _ title Ht Hne).
  rewrite (copy_trimmed_record _ _ _ Hnotes), (copy_trimmed_record _ _ _ Htags),
    (copy_trimmed_record _ _ _ Harea).
  cbn [and_then]. rewrite Htodos, (filter_nonblank_kept todos Hall).
  cbn [and_then]. rewrite map_trim_kept. cbn [and_then].
  rewrite copy_truthy_record.
  unfold add_project_fields. rewrite Ht, Htodos. cbn [trimmed_value].
  destruct (trim title) as [|c t] eqn:E; [now contradiction Hne|].
  f_equal. f_equal. unfold record. cbn [map flat_map fst snd].
  unfold entry at 1. unfold entry at 7. cbn [defined app].
  repeat rewrite app_nil_r. repeat rewrite <- app_assoc. reflexivity.
Qed.

Lemma addProject_params_record (fields : list (string * value)) :
  NoDup (map fst fields) ->
  truthy (assoc "title" fields) = true ->
  addProject_params (Obj (record fields))
  = Return (record (addProject_fields fields)).
Proof.
  intros Hd Ht. unfold addProject_params.
  cbn [field truthy negb orb]. rewrite (lookup_record "title" fields Hd), Ht.
  cbn [negb]. rewrite copy_truthy_record. f_equal.
  cbn [map field]. rewrite !(lookup_record _ fields Hd).
  unfold addProject_fields, record. cbn [flat_map fst snd].
  unfold entry at 6.
  assert (Hdef : defined (assoc "title" fields) = true)
    by (destruct (assoc "title" fields); try discriminate; reflexivity).
  rewrite Hdef. cbn [app]. f_equal. rewrite !app_nil_r.
  repeat rewrite <- app_assoc. repeat f_equal.
  destruct (assoc "todos" fields); reflexivity.
Qed.

Lemma filter_nonblank_throws (before after : list value) (bad : value) :
  Forall (fun todo => trimmable todo = true) before ->
  trimmable bad = false ->
  filter_nonblank (before ++ bad :: after)
  = Throw (lit "todo.trim is not a function").
Proof.
  intros Hb Hbad. induction Hb as [|todo before Ht _ IH].
  - cbn [app filter_nonblank]. unfold trimmable in Hbad.
    apply orb_false_iff in Hbad. destruct Hbad as [H1 H2].
    apply negb_false_iff in H1. rewrite H1.
    destruct bad; try discriminate; reflexivity.
  - cbn [app filter_nonblank]. rewrite IH.
    unfold trimmable in Ht.
    destruct todo as [| |b|n|s|items|props];
      cbn [truthy is_string negb orb] in Ht;
      cbn [truthy and_then call_trim]; try reflexivity; try discriminate.
    + destruct b; [discriminate | reflexivity].
    + destruct (negb (n =? 0)); [discriminate | reflexivity].
    + destruct s as [|c s]; reflexivity.
Qed.

Lemma warn_no_token_run (P : Process) (w : World) :
  exists w1, warn_no_token P w = (Return tt, w1) /\ opened w1 = opened w.
Proof.
  unfold warn_no_token. destruct (no_token P); eexists; split; reflexivity.
Qed.

Lemma truthy_trimmed_value (v : value) :
  truthy_value (trimmed_value v) = trimmed_value v.
Proof.
  unfold truthy_value. destruct v; try reflexivity. cbn [trimmed_value].
  destruct (trim s); reflexivity.
Qed.

Lemma truthy_truthy_value (v : value) :
  truthy_value (truthy_value v) = truthy_value v.
Proof. unfold truthy_value. destruct (truthy v) eqn:E; [now rewrite E | reflexivity]. Qed.

(** X15.  What [add_project] makes of the to-dos.  On a Mac where [open]
    resolves, for a title that is not blank and a [todos] array of strings
    (falsy items are passed over), the handler drops the items that are
    empty or all white space and trims the others; the client joins what
    is left with line feeds, so the [todos] parameter of the URL that is
    opened decodes to the kept titles, one per line, and the answer counts
    them.  When nothing is left the parameter is still sent, empty, and the
    answer has no count.  An item that is truthy and not a string makes the
    handler throw [Failed to add project: todo.trim is not a function]
    before anything is opened. *)
Theorem add_project_trims_and_joins_todos :
  forall (P : Process) (token : option jsstring) (args : value)
         (title : jsstring) (todos : list value) (w : World),
    isThingsAvailable P = true ->
    field args "title" = Str title -> trim title <> [] ->
    trimmable (field args "notes") = true ->
    trimmable (field args "tags") = true ->
    trimmable (field args "area") = true ->
    field args "todos" = Arr todos ->
    (Forall (fun todo => trimmable todo = true) todos ->
     resolves P -> token_well_formed token -> fields_well_formed args ->
     Forall (fun todo => well_formed (toString todo) = true) todos ->
     exists url w',
       add_project P (with_token token) args w
       = (Return (lit "Successfully created project: " ++ quote
                  ++ trim title ++ quote
                  ++ with_todos (List.length (kept_todos todos))), w')
       /\ opened w' = opened w ++ [url]
       /\ sent_as "todos" (Str (join [10] (kept_todos todos))) url
       /\ sent_as "title" (Str (trim title)) url)
    /\ (forall before bad after,
           todos = before ++ bad :: after ->
           Forall (fun todo => trimmable todo = true) before ->
           trimmable bad = false ->
           exists w',
             add_project P (with_token token) args w
             = (Throw (lit "Failed to add project: todo.trim is not a function"),
                w')
             /\ opened w' = opened w).
Proof.
  intros P token args title todos w Ha Ht Hne Hnotes Htags Harea Htodos.
  destruct (warn_no_token_run P w) as (w1 & Ew & Eo).
  split.
  - intros Hall Ho Htok Hwf Htwf.
    set (F := add_project_fields args).
    assert (HF : NoDup (map fst F))
      by (unfold F, add_project_fields; cbn [map fst]; distinct_names).
    assert (Htv : assoc "title" F = Str (trim title)).
    { unfold F, add_project_fields. cbn [assoc String.eqb Ascii.eqb Bool.eqb].
      rewrite Ht. cbn [trimmed_value].
      destruct (trim title); [now contradiction Hne | reflexivity]. }
    assert (Htt : truthy (assoc "title" F) = true).
    { rewrite Htv. cbn [truthy].
      destruct (trim title); [now contradiction Hne | reflexivity]. }
    assert (Htd : assoc "todos" F = Arr (map Str (kept_todos todos))).
    { unfold F, add_project_fields. cbn [assoc String.eqb Ascii.eqb Bool.eqb].
      now rewrite Htodos. }
    set (params := record (addProject_fields F)).
    assert (Hparams : addProject_params (Obj (record F)) = Return params)
      by (apply addProject_params_record; assumption).
    assert (HG : NoDup (map fst (addProject_fields F)))
      by (unfold addProject_fields; cbn [map fst]; distinct_names).
    assert (Hkw : Forall (fun p => well_formed p = true) (kept_todos todos))
      by now apply kept_todos_well_formed.
    assert (Hpw : all_well_formed (printed params) = true).
    { apply record_well_formed. unfold addProject_fields.
      rewrite Htv, Htd, array_join_strings.
      unfold F, add_project_fields.
      cbn [assoc String.eqb Ascii.eqb Bool.eqb].
      rewrite !truthy_trimmed_value, !truthy_truthy_value.
      repeat constructor; cbn [snd];
        try apply trimmed_value_well_formed;
        try apply truthy_value_well_formed; try apply Hwf.
      - cbn [toString]. apply trim_well_formed.
        specialize (Hwf "title"%string). now rewrite Ht in Hwf.
      - cbn [toString]. now apply well_formed_join. }
    destruct (executeCommand_sends P token AddProject params w1 Ho Htok Hpw)
      as (url & Ex & Eb).
    cbn [command_of] in Ex, Eb.
    exists url, (mkWorld (opened w1 ++ [url]) (console w1 ++ [executing url])).
    assert (Hne' : sent (with_token token) (lit "add-project") params <> []).
    { unfold sent. intros H. apply app_eq_nil in H. destruct H as [_ H].
      assert (Hp : param (lit "title") (printed params) <> None).
      { unfold params. rewrite param_record by exact HG.
        unfold addProject_fields. cbn [assoc String.eqb Ascii.eqb Bool.eqb].
        rewrite (truthy_live _ Htt). discriminate. }
      rewrite H in Hp. now apply Hp. }
    assert (Hsent : forall name,
               In name ["title"; "todos"]%string ->
               sent_as name (assoc name (addProject_fields F)) url).
    { intros name Hin.
      assert (Hname : plain_key (lit name)
                      /\ String.eqb name "auth-token" = false).
      { simpl in Hin.
        repeat (destruct Hin as [<-|Hin];
                [split; [apply lit_plain_key|]; reflexivity|]).
        contradiction. }
      destruct Hname as [Hk Hna].
      apply (sent_as_intro _ _ _ _ _ _ Eb); auto.
      unfold sent. rewrite param_app, param_credential by exact Hna.
      unfold params. now rewrite param_record by exact HG. }
    split; [|split; [cbn [opened]; now rewrite Eo|split]].
    + unfold add_project, try_catch, bind, lift.
      rewrite Ha. cbn [negb].
      rewrite (required_field_trimmed _ _ _ _ title Ht Hne), Ew.
      rewrite (add_project_projectData_record args title todos Ht Hne Hnotes
                 Htags Harea Htodos Hall).
      unfold addProject, bind, lift. fold F. rewrite Hparams, Ex.
      unfold ret, add_project_message. cbn [field].
      rewrite !(lookup_record _ F HF), Htv, Htd. cbn [toString].
      destruct (kept_todos todos) as [|k ks]; [reflexivity|].
      cbn [map]. rewrite <- (length_map Str (k :: ks)). reflexivity.
    + pose proof (Hsent "todos"%string ltac:(simpl; tauto)) as H.
      unfold addProject_fields in H.
      cbn [assoc String.eqb Ascii.eqb Bool.eqb] in H.
      now rewrite Htd, array_join_strings in H.
    + pose proof (Hsent "title"%string ltac:(simpl; tauto)) as H.
      unfold addProject_fields in H.
      cbn [assoc String.eqb Ascii.eqb Bool.eqb] in H.
      now rewrite Htv in H.
  - intros before bad after -> Hb Hbad.
    exists (mkWorld (opened w1)
                    (console w1
                     ++ [lit "Failed to add project: todo.trim is not a function"])).
    split; [|cbn [opened]; exact Eo].
    unfold add_project, try_catch, bind, lift.
    rewrite Ha. cbn [negb].
    rewrite (required_field_trimmed _ _ _ _ title Ht Hne), Ew.
    unfold add_project_projectData.
    rewrite (required_field_trimmed _ _ _ _ title Ht Hne).
    rewrite (copy_trimmed_record _ _ _ Hnotes), (copy_trimmed_record _ _ _ Htags),
      (copy_trimmed_record _ _ _ Harea).
    cbn [and_then]. rewrite Htodos, (filter_nonblank_throws _ _ _ Hb Hbad).
    reflexivity.
Qed.

Lemma utf16_check (s : jsstring) :
  forallb (fun c => (0 <=? c) && (c <? 65536)) s = true -> utf16 s.
Proof.
  intros H. apply Forall_forall. intros c Hc.
  rewrite forallb_forall in H. specialize (H c Hc). bool_to_Z. lia.
Qed.

(** X15 at work: two titles among blanks, blanks only, and a number. *)
Lemma add_project_trims_and_joins_todos_witness :
  (exists url w',
      add_project (mac None) (with_token None)
        (Obj [(lit "title", Str (lit " Website "));
              (lit "todos", Arr [Str (lit " Create wireframes "); Str (lit "  ");
                                 Str []; Str (lit "Design mockups")])])
        fresh
      = (Return (lit "Successfully created project: " ++ quote
                 ++ lit "Website" ++ quote
                 ++ lit " with 2 initial to-do(s)"), w')
      /\ opened w' = opened fresh ++ [url]
      /\ decoded_param "todos" url
         = Some (lit "Create wireframes" ++ [10] ++ lit "Design mockups"))
  /\ (exists url w',
         add_project (mac None) (with_token None)
           (Obj [(lit "title", Str (lit "Website"));
                 (lit "todos", Arr [Str (lit "  ")])])
           fresh
         = (Return (lit "Successfully created project: " ++ quote
                    ++ lit "Website" ++ quote), w')
         /\ opened w' = opened fresh ++ [url]
         /\ decoded_param "todos" url = Some [])
  /\ exists w',
       add_project (mac None) (with_token None)
         (Obj [(lit "title", Str (lit "Website"));
               (lit "todos", Arr [Str (lit "a"); Num 7])])
         fresh
       = (Throw (lit "Failed to add project: todo.trim is not a function"), w')
       /\ opened w' = opened fresh.
Proof.
  split; [|split].
  - destruct (proj1 (add_project_trims_and_joins_todos
                       (mac None) None
                       (Obj [(lit "title", Str (lit " Website "));
                             (lit "todos",
                              Arr [Str (lit " Create wireframes ");
                                   Str (lit "  "); Str [];
                                   Str (lit "Design mockups")])])
                       (lit " Website ")
                       [Str (lit " Create wireframes "); Str (lit "  ");
                        Str []; Str (lit "Design mockups")]
                       fresh eq_refl eq_refl ltac:(discriminate)
                       eq_refl eq_refl eq_refl eq_refl))
      as (url & w' & E & Ho & S & _).
    + repeat constructor.
    + intros before url. reflexivity.
    + exact I.
    + apply fields_well_formed_object. repeat constructor.
    + repeat constructor.
    + exists url, w'. split; [exact E|]. split; [exact Ho|].
      apply S. apply utf16_check. reflexivity.
  - destruct (proj1 (add_project_trims_and_joins_todos
                       (mac None) None
                       (Obj [(lit "title", Str (lit "Website"));
                             (lit "todos", Arr [Str (lit "  ")])])
                       (lit "Website") [Str (lit "  ")]
                       fresh eq_refl eq_refl ltac:(discriminate)
                       eq_refl eq_refl eq_refl eq_refl))
      as (url & w' & E & Ho & S & _).
    + repeat constructor.
    + intros before url. reflexivity.
    + exact I.
    + apply fields_well_formed_object. repeat constructor.
    + repeat constructor.
    + exists url, w'. split; [exact E|]. split; [exact Ho|].
      apply S. constructor.
  - apply (proj2 (add_project_trims_and_joins_todos
                    (mac None) None
                    (Obj [(lit "title", Str (lit "Website"));
                          (lit "todos", Arr [Str (lit "a"); Num 7])])
                    (lit "Website") [Str (lit "a"); Num 7]
                    fresh eq_refl eq_refl ltac:(discriminate)
                    eq_refl eq_refl eq_refl eq_refl)
                 [Str (lit "a")] (Num 7) []).
    + reflexivity.
    + repeat constructor.
    + reflexivity.
Defined.

(** * [add_todo] *)

Lemma required_title_trimmed (o : value) (expr : string)
  (message s : jsstring) :
  field o "title" = Str s -> trim s <> [] ->
  required_title o expr message = Return (trim s).
Proof.
  intros Hf Hs. unfold required_title.
  rewrite (get_of_field o "title" _ Hf) by discriminate. cbn [and_then].
  destruct s as [|c s]; [now contradiction Hs|].
  cbn [truthy negb call_trim and_then].
  destruct (trim (c :: s)); [now contradiction Hs | reflexivity].
Qed.

Lemma add_todo_todoData_record (args : value) (title : jsstring) :
  field args "title" = Str title -> trim title <> [] ->
  trimmable (field args "notes") = true ->
  trimmable (field args "tags") = true ->
  trimmable (field args "checklist") = true ->
  trimmable (field args "list") = true ->
  add_todo_todoData args = Return (Obj (record (add_todo_fields args))).
Proof.
  intros Ht Hne Hnotes Htags Hcheck Hlist. unfold add_todo_todoData.
  rewrite (required_title_trimmed _ _ _ title Ht Hne).
  rewrite (copy_trimmed_record _ _ _ Hnotes), (copy_trimmed_record _ _ _ Htags),
    (copy_trimmed_record _ _ _ Hcheck), (copy_trimmed_record _ _ _ Hlist).
  cbn [and_then]. rewrite copy_truthy_record.
  unfold add_todo_fields. rewrite Ht. cbn [trimmed_value].
  destruct (trim title) as [|c t] eqn:E; [now contradiction Hne|].
  f_equal. f_equal. unfold record. cbn [map flat_map fst snd].
  unfold entry at 1. cbn [defined app].
  repeat rewrite app_nil_r. repeat rewrite <- app_assoc. reflexivity.
Qed.

Lemma addTodo_params_record (fields : list (string * value)) :
  NoDup (map fst fields) ->
  truthy (assoc "title" fields) = true ->
  addTodo_params (Obj (record fields))
  = Return (record (addTodo_fields fields)).
Proof.
  intros Hd Ht. unfold addTodo_params.
  cbn [field truthy negb orb]. rewrite (lookup_record "title" fields Hd), Ht.
  cbn [negb]. rewrite copy_truthy_record. f_equal.
  cbn [map field]. rewrite !(lookup_record _ fields Hd).
  unfold addTodo_fields, record. cbn [map flat_map fst snd].
  unfold entry at 7.
  assert (Hdef : defined (assoc "title" fields) = true)
    by (destruct (assoc "title" fields); try discriminate; reflexivity).
  rewrite Hdef. reflexivity.
Qed.

Lemma param_credential_token (token : option jsstring) (command : jsstring) :
  command <> lit "show" ->
  param (lit "auth-token") (credential (with_token token) command)
  = if nullish (credential_value token) then None
    else Some (toString (credential_value token)).
Proof.
  intros Hc. unfold credential, with_token, credential_value.
  cbn [authToken]. destruct token as [[|c tok]|]; try reflexivity.
  apply str_eqb_neq in Hc. rewrite Hc. reflexivity.
Qed.

(** X16.  What [add_todo] passes on, with or without the credential.  On
    a Mac where [open] resolves, for a title that is not blank and other
    fields that are strings if they are there, the handler opens one [add]
    URL and answers with the trimmed title.  The title, the notes, the
    tags, the checklist and the list are sent trimmed, and left out when
    nothing remains; [when] and [deadline] are sent as given unless empty.
    The credential is not required: when it is not set the handler writes
    a warning to the console and goes on, and the URL has no [auth-token]
    parameter; when it is set, the URL has it. *)
Theorem add_todo_trims_and_needs_no_credential :
  forall (P : Process) (args : value) (title : jsstring) (w : World),
    let token := THINGS_AUTHENTICATION_TOKEN P in
    isThingsAvailable P = true -> resolves P -> token_well_formed token ->
    field args "title" = Str title -> trim title <> [] ->
    trimmable (field args "notes") = true ->
    trimmable (field args "tags") = true ->
    trimmable (field args "checklist") = true ->
    trimmable (field args "list") = true ->
    fields_well_formed args ->
    exists url w',
      add_todo P (with_token token) args w
      = (Return (lit "Successfully created to-do: " ++ quote ++ trim title
                 ++ quote), w')
      /\ opened w' = opened w ++ [url]
      /\ console w'
         = console w ++ (if no_token P then [no_token_warning] else [])
           ++ [executing url]
      /\ sent_as "auth-token" (credential_value token) url
      /\ (forall name,
             In name (map fst (add_todo_fields args)) ->
             sent_as name (assoc name (add_todo_fields args)) url).
Proof.
  intros P args title w token Ha Ho Htok Ht Hne Hnotes Htags Hcheck Hlist Hwf.
  set (F := add_todo_fields args).
  assert (HF : NoDup (map fst F))
    by (unfold F, add_todo_fields; cbn [map fst]; distinct_names).
  assert (Htv : assoc "title" F = Str (trim title)).
  { unfold F, add_todo_fields. cbn [assoc String.eqb Ascii.eqb Bool.eqb].
    rewrite Ht. cbn [trimmed_value].
    destruct (trim title); [now contradiction Hne | reflexivity]. }
  assert (Htt : truthy (assoc "title" F) = true).
  { rewrite Htv. cbn [truthy].
    destruct (trim title); [now contradiction Hne | reflexivity]. }
  set (params := record (addTodo_fields F)).
  assert (Hparams : addTodo_params (Obj (record F)) = Return params)
    by (apply addTodo_params_record; assumption).
  assert (HG : NoDup (map fst (addTodo_fields F)))
    by (unfold addTodo_fields; cbn [map fst]; distinct_names).
  assert (Hsame : forall name, In name (map fst F) ->
                               assoc name (addTodo_fields F) = assoc name F).
  { intros name Hin. unfold F, add_todo_fields in Hin. cbn [map fst] in Hin.
    unfold addTodo_fields. cbn [map]. unfold F, add_todo_fields.
    simpl in Hin.
    repeat (destruct Hin as [<-|Hin];
            [cbn [assoc String.eqb Ascii.eqb Bool.eqb];
             rewrite ?truthy_trimmed_value, ?truthy_truthy_value;
             reflexivity|]).
    contradiction. }
  assert (Hpw : all_well_formed (printed params) = true).
  { apply record_well_formed. unfold addTodo_fields. cbn [map].
    unfold F, add_todo_fields. cbn [assoc String.eqb Ascii.eqb Bool.eqb].
    repeat constructor; cbn [snd];
      repeat first [apply trimmed_value_well_formed
                   | apply truthy_value_well_formed]; apply Hwf. }
  set (w1 := if no_token P
             then mkWorld (opened w) (console w ++ [no_token_warning])
             else w).
  assert (Ew : (if no_token P
                then console_log no_token_warning
                else ret tt) w = (Return tt, w1))
    by (unfold w1; destruct (no_token P); reflexivity).
  assert (Eo : opened w1 = opened w)
    by (unfold w1; destruct (no_token P); reflexivity).
  destruct (executeCommand_sends P token AddTodo params w1 Ho Htok Hpw)
    as (url & Ex & Eb).
  cbn [command_of] in Ex, Eb.
  exists url, (mkWorld (opened w1 ++ [url]) (console w1 ++ [executing url])).
  assert (Hne' : sent (with_token token) (lit "add") params <> []).
  { unfold sent. intros H. apply app_eq_nil in H. destruct H as [_ H].
    assert (Hp : param (lit "title") (printed params) <> None).
    { unfold params. rewrite param_record by exact HG.
      rewrite (Hsame "title"%string)
        by (unfold F, add_todo_fields; simpl; tauto).
      rewrite (truthy_live _ Htt). discriminate. }
    rewrite H in Hp. now apply Hp. }
  split; [|split; [cbn [opened]; now rewrite Eo|split; [|split]]].
  - unfold add_todo, try_catch, bind, lift.
    rewrite Ha. cbn [negb].
    rewrite (required_title_trimmed _ _ _ title Ht Hne).
    fold no_token_warning. rewrite Ew.
    rewrite (add_todo_todoData_record args title Ht Hne Hnotes Htags Hcheck
               Hlist).
    unfold addTodo, bind, lift. fold F. rewrite Hparams, Ex.
    unfold ret. cbn [field]. rewrite (lookup_record "title" F HF), Htv.
    reflexivity.
  - cbn [console]. unfold w1. destruct (no_token P); cbn [console];
      now rewrite <- ?app_assoc.
  - apply (sent_as_intro _ _ _ _ _ _ Eb); auto.
    + apply lit_plain_key. reflexivity.
    + unfold sent. rewrite param_app.
      rewrite param_credential_token by discriminate.
      destruct (nullish (credential_value token)); [|reflexivity].
      unfold params. apply param_record_absent.
      unfold addTodo_fields. cbn [map fst]. simpl. intros H.
      repeat (destruct H as [H|H]; [discriminate|]). exact H.
  - intros name Hin. rewrite <- (Hsame name Hin).
    assert (Hname : plain_key (lit name)
                    /\ String.eqb name "auth-token" = false).
    { unfold F, add_todo_fields in Hin. simpl in Hin.
      repeat (destruct Hin as [<-|Hin];
              [split; [apply lit_plain_key|]; reflexivity|]).
      contradiction. }
    destruct Hname as [Hk Hna].
    apply (sent_as_intro _ _ _ _ _ _ Eb); auto.
    unfold sent. rewrite param_app, param_credential by exact Hna.
    unfold params. now rewrite param_record by exact HG.
Qed.

(** X16 at work, on a Mac without the credential. *)
Lemma add_todo_trims_and_needs_no_credential_witness :
  exists url w',
    add_todo (mac None) (with_token None)
      (Obj [(lit "title", Str (lit " Buy milk ")); (lit "notes", Str (lit "  "));
            (lit "tags", Str (lit " home "))])
      fresh
    = (Return (lit "Successfully created to-do: " ++ quote ++ lit "Buy milk"
               ++ quote), w')
    /\ opened w' = opened fresh ++ [url]
    /\ console w' = console fresh ++ [no_token_warning] ++ [executing url]
    /\ param (lit "auth-token") (searchParams url) = None
    /\ decoded_param "title" url = Some (lit "Buy milk")
    /\ param (lit "notes") (searchParams url) = None
    /\ decoded_param "tags" url = Some (lit "home").
Proof.
  destruct (add_todo_trims_and_needs_no_credential
              (mac None)
              (Obj [(lit "title", Str (lit " Buy milk "));
                    (lit "notes", Str (lit "  "));
                    (lit "tags", Str (lit " home "))])
              (lit " Buy milk ") fresh)
    as (url & w' & E & Ho & Hc & A & S).
  - reflexivity.
  - intros before url. reflexivity.
  - exact I.
  - reflexivity.
  - discriminate.
  - reflexivity.
  - reflexivity.
  - reflexivity.
  - reflexivity.
  - apply fields_well_formed_object. repeat constructor.
  - exists url, w'. split; [exact E|]. split; [exact Ho|].
    split; [exact Hc|]. split; [exact A|].
    split; [apply (S "title"%string); [simpl; tauto | apply utf16_check; reflexivity]|].
    split; [apply (S "notes"%string); simpl; tauto|].
    apply (S "tags"%string); [simpl; tauto | apply utf16_check; reflexivity].
Defined.

Lemma batch_complete_loop_completes (P : Process) (token : option jsstring)
  (ids : list jsstring) :
  resolves P -> token_well_formed token ->
  Forall (fun s => trim s <> [] /\ well_formed s = true) ids ->
  forall (i : nat) (st : tally) (w : World),
  exists urls,
    batch_complete_loop P (with_token token) i (map Str ids) st w
    = (Return (mkTally (results st ++ completed_lines i ids)
                       (successCount st + Z.of_nat (List.length ids))
                       (failureCount st)),
       mkWorld (opened w ++ urls) (console w ++ map executing urls))
    /\ Forall2 (completes token) ids urls.
Proof.
  intros Ho Ht. induction 1 as [|s rest [Hs Hw] _ IH]; intros i st w.
  - exists []. split; [|constructor]. cbn. unfold ret.
    rewrite !app_nil_r, Z.add_0_r. now destruct st, w.
  - set (params := [(lit "id", Str (trim s)); (lit "completed", Bool true)]).
    destruct (executeCommand_sends P token CompleteTodo params w Ho Ht)
      as (url & Ex & Eb).
    { unfold params, printed, live.
      cbn [negb nullish filter snd map fst toString all_well_formed forallb].
      now rewrite (trim_well_formed s Hw). }
    cbn [command_of] in Ex, Eb.
    set (line := check_mark ++ todo_label i ++ quote ++ trim s ++ quote
                 ++ lit " - Marked as completed").
    destruct (IH (S i) (succeeded st line)
                (mkWorld (opened w ++ [url]) (console w ++ [executing url])))
      as (urls & E & F).
    exists (url :: urls). split.
    + cbn [map batch_complete_loop]. unfold bind at 1.
      assert (Estep : try_catch
                        (batch_complete_attempt P (with_token token) i
                           (Str s) st)
                        (batch_id_recover i (Str s) st) w
                      = (Return (succeeded st line),
                         mkWorld (opened w ++ [url])
                                 (console w ++ [executing url]))).
      { unfold try_catch, batch_complete_attempt, bind, lift, required_id.
        assert (Hne : s <> []) by (intros ->; now apply Hs).
        destruct s as [|c s']; [now contradiction Hne|].
        cbn [truthy negb call_trim and_then].
        destruct (trim (c :: s')) as [|d s''] eqn:Etrim;
          [now contradiction Hs|].
        unfold completeTodo, completeTodo_params, bind, lift.
        cbn [truthy field negb orb lookup].
        rewrite str_eqb_refl. cbn [truthy negb orb].
        fold params. rewrite Ex. reflexivity. }
      rewrite Estep, E. cbn [opened console results successCount failureCount
                              succeeded completed_lines List.length map].
      rewrite <- !app_assoc. cbn [app]. fold line.
      do 3 f_equal. lia.
    + constructor; [|exact F]. split; [exact Eb|].
      intros Htu Hsu. rewrite (buildUrl_decoded _ _ _ _ Eb).
      * reflexivity.
      * unfold sent. intros E'. apply app_eq_nil in E'.
        destruct E'; discriminate.
      * apply sent_utf16; auto.
        unfold params, printed, live.
        cbn [negb nullish filter snd map fst toString].
        constructor; [|constructor; [|constructor]]; split; cbn [fst snd];
          auto using lit_utf16, trim_utf16.
Qed.

(** X17.  [batch_complete_todos] completes the identifiers it is given, one
    by one and in order.  On a Mac with the credential set and an [open]
    that resolves, for a non-empty array of strings none of which is blank,
    the handler hands [open] one [update] URL for each identifier, in the
    order of the array, and nothing else.  The URL of an identifier is the
    one [buildUrl] makes from the trimmed identifier and [completed: true];
    read back, it holds the credential, then [id], then [completed] with
    [true].  The report counts every identifier as a success and none as a
    failure. *)
Theorem batch_complete_todos_completes_in_order :
  forall (P : Process) (token : option jsstring) (args : value)
         (ids : list jsstring) (w : World),
    isThingsAvailable P = true -> no_token P = false ->
    resolves P -> token_well_formed token ->
    field args "ids" = Arr (map Str ids) -> ids <> [] ->
    Forall (fun s => trim s <> [] /\ well_formed s = true) ids ->
    exists urls,
      batch_complete_todos P (with_token token) args w
      = (Return (batch_complete_report
                   (mkTally (completed_lines 0 ids)
                            (Z.of_nat (List.length ids)) 0)),
         mkWorld (opened w ++ urls) (console w ++ map executing urls))
      /\ Forall2 (completes token) ids urls.
Proof.
  intros P token args ids w Ha Hn Ho Ht Hi Hne Hall.
  destruct (batch_complete_loop_completes P token ids Ho Ht Hall 0%nat
              (mkTally [] 0 0) w) as (urls & E & F).
  exists urls. split; [|exact F].
  unfold batch_complete_todos, try_catch, bind, lift.
  rewrite Ha, (get_of_field args "ids" _ Hi) by (destruct ids; discriminate).
  cbn [negb]. destruct ids as [|first others]; [now contradiction Hne|].
  cbn [map] in *. unfold require_token. rewrite Hn.
  unfold ret at 1. rewrite E. reflexivity.
Qed.

(** X17 at work, on two identifiers. *)
Lemma batch_complete_todos_completes_in_order_witness :
  exists urls,
    batch_complete_todos (mac (Some (lit "tok"))) (with_token (Some (lit "tok")))
      (Obj [(lit "ids", Arr [Str (lit " a1 "); Str (lit "b2")])]) fresh
    = (Return (batch_complete_report
                 (mkTally (completed_lines 0 [lit " a1 "; lit "b2"]) 2 0)),
       mkWorld urls (map executing urls))
    /\ Forall2 (completes (Some (lit "tok"))) [lit " a1 "; lit "b2"] urls.
Proof.
  destruct (batch_complete_todos_completes_in_order
              (mac (Some (lit "tok"))) (Some (lit "tok"))
              (Obj [(lit "ids", Arr [Str (lit " a1 "); Str (lit "b2")])])
              [lit " a1 "; lit "b2"] fresh) as (urls & E & F).
  - reflexivity.
  - reflexivity.
  - intros before url. reflexivity.
  - reflexivity.
  - reflexivity.
  - discriminate.
  - repeat constructor; discriminate.
  - exists urls. split; [exact E | exact F].
Defined.

Lemma validated_title_entry (kind : string) (data : value) (isUpdate : bool)
  (p : list (jsstring * value)) :
  validated_title kind data isUpdate = Return p ->
  p = entry "title" (cleaned_string trim (field data "title"))
  /\ (field data "title" = Undefined \/ is_string (field data "title") = true)
  /\ (isUpdate = false ->
      exists s, field data "title" = Str s /\ trim s <> []).
Proof.
  unfold validated_title.
  destruct isUpdate; cbn [negb];
    destruct (field data "title") as [| |b|n|s|items|props];
    try discriminate; intros E.
  - injection E as <-. repeat split; auto. discriminate.
  - injection E as <-. repeat split; auto. discriminate.
  - destruct (negb (truthy (Str s)) || str_eqb (trim s) []) eqn:Hb;
      [discriminate|].
    injection E as <-. repeat split; auto.
    intros _. exists s. split; [reflexivity|].
    apply orb_false_elim in Hb. destruct Hb as [_ Hb].
    now apply str_eqb_neq in Hb.
Qed.

Lemma validated_string_entry (data : value) (name : string)
  (clean : jsstring -> jsstring) (message : jsstring)
  (p : list (jsstring * value)) :
  validated_string data name clean message = Return p ->
  p = entry name (cleaned_string clean (field data name))
  /\ (field data name = Undefined \/ is_string (field data name) = true).
Proof.
  unfold validated_string.
  destruct (field data name) as [| |b|n|s|items|props];
    try discriminate; intros E; injection E as <-; auto.
Qed.

Lemma validated_when_entry (kind : string) (data : value)
  (p : list (jsstring * value)) :
  validated_when kind data = Return p ->
  p = entry "when" (field data "when")
  /\ (field data "when" = Undefined
      \/ exists s, field data "when" = Str s
                   /\ existsb (str_eqb s) validWhenValues = true).
Proof.
  unfold validated_when.
  destruct (field data "when") as [| |b|n|s|items|props];
    try discriminate; intros E.
  - injection E as <-. auto.
  - destruct (existsb (str_eqb s) validWhenValues) eqn:Hb; [|discriminate].
    injection E as <-. split; [reflexivity|]. right. now exists s.
Qed.

(** The same checks, on data that was cleaned. *)
Lemma validated_title_again (kind : string) (c v : value) (isUpdate : bool) :
  field c "title" = cleaned_string trim v ->
  (v = Undefined \/ is_string v = true) ->
  (isUpdate = false -> exists s, v = Str s /\ trim s <> []) ->
  validated_title kind c isUpdate
  = Return (entry "title" (cleaned_string trim v)).
Proof.
  intros E Hv Hreq. unfold validated_title. rewrite E.
  destruct isUpdate; cbn [negb].
  - destruct Hv as [->|Hv]; [reflexivity|].
    destruct v; try discriminate. cbn [cleaned_string].
    now rewrite trim_idempotent.
  - destruct (Hreq eq_refl) as (s & -> & Hs). cbn [cleaned_string].
    rewrite trim_idempotent.
    destruct (trim s) as [|ch rest] eqn:Et; [now contradiction Hs|].
    reflexivity.
Qed.

Lemma validated_string_again (c v : value) (name : string)
  (clean : jsstring -> jsstring) (message : jsstring) :
  (forall s, clean (clean s) = clean s) ->
  field c name = cleaned_string clean v ->
  validated_string c name clean message
  = Return (entry name (cleaned_string clean v)).
Proof.
  intros Hc E. unfold validated_string. rewrite E.
  destruct v; try reflexivity. cbn [cleaned_string]. now rewrite Hc.
Qed.

Lemma validated_when_again (kind : string) (c v : value) :
  field c "when" = v ->
  (v = Undefined
   \/ exists s, v = Str s /\ existsb (str_eqb s) validWhenValues = true) ->
  validated_when kind c = Return (entry "when" v).
Proof.
  intros E Hv. unfold validated_when. rewrite E.
  destruct Hv as [->|(s & -> & Hs)]; [reflexivity|]. now rewrite Hs.
Qed.

Lemma record_keys (fields : list (string * value)) :
  subsequence (map fst (record fields)) (map lit (map fst fields)).
Proof.
  induction fields as [|[n v] rest IH]; [apply sub_nil|].
  unfold record. cbn [flat_map fst snd map]. unfold entry.
  destruct (defined v); cbn [app map fst].
  - now apply sub_take.
  - now apply sub_skip.
Qed.

Lemma record_values (Q : value -> Prop) (fields : list (string * value)) :
  Forall (fun nv => defined (snd nv) = true -> Q (snd nv)) fields ->
  Forall (fun kv => Q (snd kv)) (record fields).
Proof.
  induction 1 as [|[n v] rest Hv _ IH]; [constructor|].
  unfold record. cbn [flat_map fst snd]. unfold entry.
  cbn [snd] in Hv. destruct (defined v); cbn [app]; auto.
Qed.

Lemma cleaned_string_is_string (clean : jsstring -> jsstring) (v : value) :
  defined (cleaned_string clean v) = true ->
  is_string (cleaned_string clean v) = true.
Proof. destruct v; try discriminate. reflexivity. Qed.

Lemma unchanged_twice (s : jsstring) : unchanged (unchanged s) = unchanged s.
Proof. reflexivity. Qed.

(** X18.  [validateTodoData] cleans once and for all.  What it returns is
    an object whose fields are among [title], [notes], [when], [deadline],
    [tags], [checklist] and [list], in this order, each of them a string;
    every other field of the input is dropped.
    Validating the result again, in the same mode or as an update, returns
    it unchanged, so nothing in it is rejected or trimmed a second time. *)
Theorem validateTodoData_cleans_once :
  forall (todoData : value) (isUpdate : bool) (cleaned : value),
    validateTodoData todoData isUpdate = Return cleaned ->
    validateTodoData cleaned isUpdate = Return cleaned
    /\ validateTodoData cleaned true = Return cleaned
    /\ exists props,
         cleaned = Obj props
         /\ subsequence (map fst props) (map lit todo_names)
         /\ Forall (fun kv => is_string (snd kv) = true) props.
Proof.
  intros data u cleaned. unfold validateTodoData at 1.
  destruct (negb (truthy data) || negb (is_object data)); [discriminate|].
  destruct (validated_title "Todo" data u) as [p1| |] eqn:E1;
    try discriminate. cbn [and_then].
  destruct (validated_string data "notes" unchanged _) as [p2| |] eqn:E2;
    try discriminate. cbn [and_then].
  destruct (validated_when "Todo" data) as [p3| |] eqn:E3;
    try discriminate. cbn [and_then].
  destruct (validated_string data "deadline" trim _) as [p4| |] eqn:E4;
    try discriminate. cbn [and_then].
  destruct (validated_string data "tags" trim _) as [p5| |] eqn:E5;
    try discriminate. cbn [and_then].
  destruct (validated_string data "checklist" unchanged _) as [p6| |] eqn:E6;
    try discriminate. cbn [and_then].
  destruct (validated_string data "list" trim _) as [p7| |] eqn:E7;
    try discriminate. cbn [and_then].
  intros E. injection E as <-.
  apply validated_title_entry in E1. destruct E1 as (-> & H1 & R1).
  apply validated_string_entry in E2. destruct E2 as (-> & H2).
  apply validated_when_entry in E3. destruct E3 as (-> & H3).
  apply validated_string_entry in E4. destruct E4 as (-> & H4).
  apply validated_string_entry in E5. destruct E5 as (-> & H5).
  apply validated_string_entry in E6. destruct E6 as (-> & H6).
  apply validated_string_entry in E7. destruct E7 as (-> & H7).
  set (F := [("title", cleaned_string trim (field data "title"));
             ("notes", cleaned_string unchanged (field data "notes"));
             ("when", field data "when");
             ("deadline", cleaned_string trim (field data "deadline"));
             ("tags", cleaned_string trim (field data "tags"));
             ("checklist", cleaned_string unchanged (field data "checklist"));
             ("list", cleaned_string trim (field data "list"))]%string).
  assert (EF : entry "title" (cleaned_string trim (field data "title"))
               ++ entry "notes" (cleaned_string unchanged (field data "notes"))
               ++ entry "when" (field data "when")
               ++ entry "deadline" (cleaned_string trim (field data "deadline"))
               ++ entry "tags" (cleaned_string trim (field data "tags"))
               ++ entry "checklist"
                    (cleaned_string unchanged (field data "checklist"))
               ++ entry "list" (cleaned_string trim (field data "list"))
               = record F).
  { unfold F, record. cbn [flat_map fst snd]. now rewrite app_nil_r. }
  rewrite EF.
  assert (HF : NoDup (map fst F))
    by (unfold F; cbn [map fst]; distinct_names).
  assert (Hf : forall n, field (Obj (record F)) n = assoc n F)
    by (intros n; cbn [field]; now apply lookup_record).
  assert (Again : forall again,
             (again = false -> u = false) ->
             validateTodoData (Obj (record F)) again
             = Return (Obj (record F))).
  { intros again Hu. unfold validateTodoData.
    cbn [truthy is_object negb orb].
    rewrite (validated_title_again "Todo" _ (field data "title") again
               (Hf "title"%string) H1)
      by (intros Ha; apply R1; auto).
    cbn [and_then].
    rewrite (validated_string_again _ (field data "notes") "notes" unchanged
               _ unchanged_twice (Hf "notes"%string)).
    cbn [and_then].
    rewrite (validated_when_again "Todo" _ (field data "when")
               (Hf "when"%string) H3).
    cbn [and_then].
    rewrite (validated_string_again _ (field data "deadline") "deadline" trim
               _ trim_idempotent (Hf "deadline"%string)).
    cbn [and_then].
    rewrite (validated_string_again _ (field data "tags") "tags" trim
               _ trim_idempotent (Hf "tags"%string)).
    cbn [and_then].
    rewrite (validated_string_again _ (field data "checklist") "checklist"
               unchanged _ unchanged_twice (Hf "checklist"%string)).
    cbn [and_then].
    rewrite (validated_string_again _ (field data "list") "list" trim
               _ trim_idempotent (Hf "list"%string)).
    cbn [and_then]. now rewrite EF. }
  split; [apply Again; destruct u; auto; discriminate|].
  split; [apply Again; discriminate|].
  exists (record F). split; [reflexivity|]. split.
  - exact (record_keys F).
  - apply (record_values (fun v => is_string v = true)). unfold F.
    repeat constructor; cbn [snd];
      try apply cleaned_string_is_string.
    destruct H3 as [->|(s & -> & _)]; [discriminate | reflexivity].
Qed.

(** X18 at work: a title and a deadline are trimmed, the notes are kept,
    and a field the validator does not know goes. *)
Lemma validateTodoData_cleans_once_witness :
  let cleaned := Obj [(lit "title", Str (lit "Buy milk"));
                      (lit "notes", Str (lit " 2 l "));
                      (lit "deadline", Str (lit "2026-01-01"))] in
  validateTodoData cleaned false = Return cleaned
  /\ validateTodoData cleaned true = Return cleaned
  /\ exists props,
       cleaned = Obj props
       /\ subsequence (map fst props) (map lit todo_names)
       /\ Forall (fun kv => is_string (snd kv) = true) props.
Proof.
  intros cleaned.
  apply (validateTodoData_cleans_once
           (Obj [(lit "colour", Str (lit "red"));
                 (lit "deadline", Str (lit " 2026-01-01"));
                 (lit "title", Str (lit " Buy milk "));
                 (lit "notes", Str (lit " 2 l "))])
           false cleaned).
  reflexivity.
Defined.

Lemma clean_todos_modelled (todos : list value) :
  map_trim (filter_strings todos) = Return (map Str (clean_todos todos)).
Proof.
  induction todos as [|todo rest IH]; [reflexivity|].
  unfold filter_strings in *. cbn [filter clean_todos].
  destruct todo as [| |b|n|s|items|props]; try exact IH.
  destruct s as [|c s']; [exact IH|].
  cbn [truthy andb]. destruct (trim (c :: s')) as [|d t'] eqn:Et.
  - cbn [str_eqb negb]. exact IH.
  - cbn [str_eqb negb map_trim call_trim and_then].
    rewrite IH, Et. reflexivity.
Qed.

Lemma clean_todos_clean (todos : list value) :
  Forall clean_string (clean_todos todos).
Proof.
  induction todos as [|todo rest IH]; [constructor|].
  cbn [clean_todos]. destruct todo as [| |b|n|s|items|props]; auto.
  destruct (trim s) as [|d t'] eqn:Et; auto.
  constructor; [|exact IH]. split; [discriminate|].
  rewrite <- Et. apply trim_trimmed.
Qed.

Lemma clean_todos_fixed (strings : list jsstring) :
  Forall clean_string strings -> clean_todos (map Str strings) = strings.
Proof.
  induction 1 as [|s rest [Hs Ht] _ IH]; [reflexivity|].
  cbn [map clean_todos]. rewrite (trim_fixed s Ht), IH.
  destruct s; [now contradiction Hs | reflexivity].
Qed.

Lemma cleaned_todos_twice (v : value) :
  cleaned_todos (cleaned_todos v) = cleaned_todos v.
Proof.
  destruct v; try reflexivity. cbn [cleaned_todos].
  now rewrite (clean_todos_fixed _ (clean_todos_clean items)).
Qed.

(** The [todos] of a project, as [validateProjectData] checks them. *)
Lemma validated_todos_entry (v : value) (p : list (jsstring * value)) :
  match v with
  | Undefined => Return []
  | Arr todos =>
      let! trimmed := map_trim (filter_strings todos) in
      Return [(lit "todos", Arr trimmed)]
  | _ => Throw (lit "Project todos must be an array")
  end = Return p ->
  p = entry "todos" (cleaned_todos v).
Proof.
  destruct v as [| |b|n|s|items|props]; try discriminate; intros E.
  - now injection E as <-.
  - rewrite clean_todos_modelled in E. cbn [and_then] in E.
    now injection E as <-.
Qed.

Lemma validated_todos_again (v : value) :
  match cleaned_todos v with
  | Undefined => Return []
  | Arr todos =>
      let! trimmed := map_trim (filter_strings todos) in
      Return [(lit "todos", Arr trimmed)]
  | _ => Throw (lit "Project todos must be an array")
  end = Return (entry "todos" (cleaned_todos v)).
Proof.
  destruct v as [| |b|n|s|items|props]; try reflexivity.
  cbn [cleaned_todos]. rewrite clean_todos_modelled. cbn [and_then].
  now rewrite (clean_todos_fixed _ (clean_todos_clean items)).
Qed.

(** X19.  [validateProjectData] cleans once and for all.  What it returns
    is an object whose fields are among [title], [notes], [when],
    [deadline], [tags], [area] and [todos], in this order.  Of an array
    [todos] it keeps the strings that are not blank, trimmed and in their
    order, so that every one it keeps is not empty and has no white space
    at either end; entries that are not strings are left out.  Validating
    the result again, in the same mode or as an update, returns it
    unchanged. *)
Theorem validateProjectData_cleans_once :
  forall (projectData : value) (isUpdate : bool) (cleaned : value),
    validateProjectData projectData isUpdate = Return cleaned ->
    validateProjectData cleaned isUpdate = Return cleaned
    /\ validateProjectData cleaned true = Return cleaned
    /\ (forall todos,
           field projectData "todos" = Arr todos ->
           field cleaned "todos" = Arr (map Str (clean_todos todos))
           /\ Forall clean_string (clean_todos todos))
    /\ exists props,
         cleaned = Obj props
         /\ subsequence (map fst props) (map lit project_names).
Proof.
  intros data u cleaned. unfold validateProjectData at 1.
  destruct (negb (truthy data) || negb (is_object data)); [discriminate|].
  destruct (validated_title "Project" data u) as [p1| |] eqn:E1;
    try discriminate. cbn [and_then].
  destruct (validated_string data "notes" unchanged _) as [p2| |] eqn:E2;
    try discriminate. cbn [and_then].
  destruct (validated_when "Project" data) as [p3| |] eqn:E3;
    try discriminate. cbn [and_then].
  destruct (validated_string data "deadline" trim _) as [p4| |] eqn:E4;
    try discriminate. cbn [and_then].
  destruct (validated_string data "tags" trim _) as [p5| |] eqn:E5;
    try discriminate. cbn [and_then].
  destruct (validated_string data "area" trim _) as [p6| |] eqn:E6;
    try discriminate. cbn [and_then].
  match goal with
  | |- and_then ?c _ = _ -> _ => destruct c as [p7| |] eqn:E7
  end; try discriminate. cbn [and_then].
  intros E. injection E as <-.
  apply validated_title_entry in E1. destruct E1 as (-> & H1 & R1).
  apply validated_string_entry in E2. destruct E2 as (-> & H2).
  apply validated_when_entry in E3. destruct E3 as (-> & H3).
  apply validated_string_entry in E4. destruct E4 as (-> & H4).
  apply validated_string_entry in E5. destruct E5 as (-> & H5).
  apply validated_string_entry in E6. destruct E6 as (-> & H6).
  apply validated_todos_entry in E7. subst p7.
  set (F := [("title", cleaned_string trim (field data "title"));
             ("notes", cleaned_string unchanged (field data "notes"));
             ("when", field data "when");
             ("deadline", cleaned_string trim (field data "deadline"));
             ("tags", cleaned_string trim (field data "tags"));
             ("area", cleaned_string trim (field data "area"));
             ("todos", cleaned_todos (field data "todos"))]%string).
  assert (EF : entry "title" (cleaned_string trim (field data "title"))
               ++ entry "notes" (cleaned_string unchanged (field data "notes"))
               ++ entry "when" (field data "when")
               ++ entry "deadline" (cleaned_string trim (field data "deadline"))
               ++ entry "tags" (cleaned_string trim (field data "tags"))
               ++ entry "area" (cleaned_string trim (field data "area"))
               ++ entry "todos" (cleaned_todos (field data "todos"))
               = record F).
  { unfold F, record. cbn [flat_map fst snd]. now rewrite app_nil_r. }
  rewrite EF.
  assert (HF : NoDup (map fst F))
    by (unfold F; cbn [map fst]; distinct_names).
  assert (Hf : forall n, field (Obj (record F)) n = assoc n F)
    by (intros n; cbn [field]; now apply lookup_record).
  assert (Again : forall again,
             (again = false -> u = false) ->
             validateProjectData (Obj (record F)) again
             = Return (Obj (record F))).
  { intros again Hu. unfold validateProjectData.
    cbn [truthy is_object negb orb].
    rewrite (validated_title_again "Project" _ (field data "title") again
               (Hf "title"%string) H1)
      by (intros Ha; apply R1; auto).
    cbn [and_then].
    rewrite (validated_string_again _ (field data "notes") "notes" unchanged
               _ unchanged_twice (Hf "notes"%string)).
    cbn [and_then].
    rewrite (validated_when_again "Project" _ (field data "when")
               (Hf "when"%string) H3).
    cbn [and_then].
    rewrite (validated_string_again _ (field data "deadline") "deadline" trim
               _ trim_idempotent (Hf "deadline"%string)).
    cbn [and_then].
    rewrite (validated_string_again _ (field data "tags") "tags" trim
               _ trim_idempotent (Hf "tags"%string)).
    cbn [and_then].
    rewrite (validated_string_again _ (field data "area") "area" trim
               _ trim_idempotent (Hf "area"%string)).
    cbn [and_then].
    rewrite (Hf "todos"%string).
    change (assoc "todos" F) with (cleaned_todos (field data "todos")).
    rewrite validated_todos_again. cbn [and_then]. now rewrite EF. }
  split; [apply Again; destruct u; auto; discriminate|].
  split; [apply Again; discriminate|].
  split.
  - intros todos Ht. split; [|apply clean_todos_clean].
    rewrite (Hf "todos"%string).
    change (assoc "todos" F) with (cleaned_todos (field data "todos")).
    now rewrite Ht.
  - exists (record F). split; [reflexivity|]. exact (record_keys F).
Qed.

(** X19 at work: of five entries, two are kept. *)
Lemma validateProjectData_cleans_once_witness :
  let cleaned := Obj [(lit "title", Str (lit "Move"));
                      (lit "todos", Arr [Str (lit "pack"); Str (lit "go")])] in
  validateProjectData cleaned false = Return cleaned
  /\ validateProjectData cleaned true = Return cleaned
  /\ field cleaned "todos" = Arr [Str (lit "pack"); Str (lit "go")]
  /\ Forall clean_string [lit "pack"; lit "go"].
Proof.
  intros cleaned.
  destruct (validateProjectData_cleans_once
              (Obj [(lit "title", Str (lit " Move"));
                    (lit "todos", Arr [Str (lit " pack "); Num 7; Str (lit "  ");
                                       Null; Str (lit "go")])])
              false cleaned eq_refl) as (A & B & C & _).
  split; [exact A|]. split; [exact B|].
  exact (C [Str (lit " pack "); Num 7; Str (lit "  "); Null; Str (lit "go")]
           eq_refl).
Defined.

Lemma bounded_text_is_clean (bound : Z) (v : value) (required long : jsstring)
  (c : jsstring) :
  match v with
  | Str s =>
      if negb (truthy v) || str_eqb (trim s) [] then Throw required
      else if bound <? Z.of_nat (List.length (trim s)) then Throw long
           else Return (trim s)
  | _ => Throw required
  end = Return c ->
  clean_string c
  /\ Z.of_nat (List.length c) <= bound
  /\ (exists s, v = Str s /\ c = trim s)
  /\ (if negb (truthy (Str c)) || str_eqb (trim c) [] then Throw required
      else if bound <? Z.of_nat (List.length (trim c)) then Throw long
           else Return (trim c)) = Return c.
Proof.
  destruct v as [| |b|n|s|items|props]; try discriminate.
  destruct (negb (truthy (Str s)) || str_eqb (trim s) []) eqn:Hb;
    [discriminate|].
  destruct (bound <? Z.of_nat (List.length (trim s))) eqn:Hl; [discriminate|].
  intros E. injection E as <-.
  apply orb_false_elim in Hb. destruct Hb as [_ Hb].
  pose proof Hb as Hne. apply str_eqb_neq in Hne.
  apply Z.ltb_ge in Hl.
  split; [split; [exact Hne | apply trim_trimmed]|].
  split; [exact Hl|]. split; [now exists s|].
  rewrite trim_idempotent, Hb.
  replace (truthy (Str (trim s))) with true
    by (cbn [truthy]; destruct (trim s); [now contradiction Hne | reflexivity]).
  cbn [negb orb]. apply Z.ltb_ge in Hl. now rewrite Hl.
Qed.

(** X20.  What [validateItemId] and [validateSearchQuery] return is clean.
    Either returns only for a string, and then returns that string
    trimmed: the result is not empty, has no white space at either end,
    and is at most 1000 code units long for an identifier and 500 for a
    query, the length being taken after trimming.  Validating the result
    again returns it unchanged. *)
Theorem validated_text_is_clean :
  forall (v : value) (itemType c : jsstring),
    (validateItemId v itemType = Return c ->
     clean_string c
     /\ Z.of_nat (List.length c) <= 1000
     /\ (exists s, v = Str s /\ c = trim s)
     /\ validateItemId (Str c) itemType = Return c)
    /\ (validateSearchQuery v = Return c ->
        clean_string c
        /\ Z.of_nat (List.length c) <= 500
        /\ (exists s, v = Str s /\ c = trim s)
        /\ validateSearchQuery (Str c) = Return c).
Proof.
  intros v itemType c. split; intros E.
  - exact (bounded_text_is_clean 1000 v _ _ c E).
  - exact (bounded_text_is_clean 500 v _ _ c E).
Qed.

(** X20 at work, on an identifier and on a query. *)
Lemma validated_text_is_clean_witness :
  (clean_string (lit "a1b2")
   /\ Z.of_nat (List.length (lit "a1b2")) <= 1000
   /\ (exists s, Str (lit "  a1b2 ") = Str s /\ lit "a1b2" = trim s)
   /\ validateItemId (Str (lit "a1b2")) (lit "item") = Return (lit "a1b2"))
  /\ (clean_string (lit "milk and eggs")
      /\ Z.of_nat (List.length (lit "milk and eggs")) <= 500
      /\ (exists s, Str (lit " milk and eggs") = Str s
                    /\ lit "milk and eggs" = trim s)
      /\ validateSearchQuery (Str (lit "milk and eggs"))
         = Return (lit "milk and eggs")).
Proof.
  split.
  - exact (proj1 (validated_text_is_clean (Str (lit "  a1b2 ")) (lit "item")
                    (lit "a1b2")) eq_refl).
  - exact (proj2 (validated_text_is_clean (Str (lit " milk and eggs")) (lit "item")
                    (lit "milk and eggs")) eq_refl).
Defined.

Lemma opens_still {A} (Q : jsstring -> Prop) (m : M A) :
  (forall w, opened (snd (m w)) = opened w) -> opens Q m.
Proof.
  intros H w r w' E. exists []. split; [|constructor].
  specialize (H w). rewrite E in H. cbn [snd] in H.
  now rewrite app_nil_r.
Qed.

Lemma opens_ret {A} (Q : jsstring -> Prop) (a : A) : opens Q (ret a).
Proof. now apply opens_still. Qed.

Lemma opens_throw {A} (Q : jsstring -> Prop) (message : jsstring) :
  opens Q (@throw A message).
Proof. now apply opens_still. Qed.

Lemma opens_lift {A} (Q : jsstring -> Prop) (c : completion A) :
  opens Q (lift c).
Proof. now apply opens_still. Qed.

Lemma opens_console_log (Q : jsstring -> Prop) (line : jsstring) :
  opens Q (console_log line).
Proof. now apply opens_still. Qed.

Lemma opens_then (Q : jsstring -> Prop) (w w1 w' : World)
  (urls more : list jsstring) :
  opened w1 = opened w ++ urls -> Forall Q urls ->
  opened w' = opened w1 ++ more -> Forall Q more ->
  exists all, opened w' = opened w ++ all /\ Forall Q all.
Proof.
  intros E1 F1 E2 F2. exists (urls ++ more). split.
  - now rewrite E2, E1, app_assoc.
  - apply Forall_app. now split.
Qed.

Lemma opens_bind {A B} (Q : jsstring -> Prop) (m : M A) (k : A -> M B) :
  opens Q m ->
  (forall a w w', m w = (Return a, w') -> opens Q (k a)) ->
  opens Q (bind m k).
Proof.
  intros Hm Hk w r w' E. unfold bind in E.
  destruct (m w) as [[a|e|] w1] eqn:Em;
    destruct (Hm _ _ _ Em) as (urls & E1 & F1).
  - destruct (Hk a w w1 Em _ _ _ E) as (more & E2 & F2).
    exact (opens_then Q _ _ _ _ _ E1 F1 E2 F2).
  - inversion E; subst. eauto.
  - inversion E; subst. eauto.
Qed.

Lemma opens_try_catch {A} (Q : jsstring -> Prop) (m : M A)
  (handler : jsstring -> M A) :
  opens Q m -> (forall e, opens Q (handler e)) ->
  opens Q (try_catch m handler).
Proof.
  intros Hm Hh w r w' E. unfold try_catch in E.
  destruct (m w) as [[a|e|] w1] eqn:Em;
    destruct (Hm _ _ _ Em) as (urls & E1 & F1).
  - inversion E; subst. eauto.
  - destruct (Hh e _ _ _ E) as (more & E2 & F2).
    exact (opens_then Q _ _ _ _ _ E1 F1 E2 F2).
  - inversion E; subst. eauto.
Qed.

Lemma opens_rethrow {A} (Q : jsstring -> Prop) (context : string)
  (message : jsstring) :
  opens Q (@rethrow A context message).
Proof. now apply opens_still. Qed.

(** An operation of the client opens at most the URL that [buildUrl] makes
    of its parameter object. *)
Lemma opens_run (Q : jsstring -> Prop) (P : Process)
  (token : option jsstring) (op : operation) (data : value) :
  (forall params url,
      params_of op data = Return params ->
      buildUrl (with_token token) (command_of op) params = Return url ->
      Q url) ->
  opens Q (run P (with_token token) op data).
Proof.
  intros HQ w r w' E.
  assert (One : forall url, opened w' = opened w ++ [url] -> Q url).
  { intros url Ho.
    destruct (run_opened _ _ _ _ _ _ _ _ E Ho) as (params & Ep & Eb).
    eauto. }
  destruct (run_world _ _ _ _ _ _ _ E)
    as [[_ (url & Ho)]|(m & _ & [Ho|(url & Ho)])].
  - exists [url]. split; [exact Ho|]. constructor; auto.
  - exists []. split; [now rewrite app_nil_r | constructor].
  - exists [url]. split; [exact Ho|]. constructor; auto.
Qed.

Lemma opens_batch_loop (Q : jsstring -> Prop)
  (step : nat -> value -> tally -> M tally) (items : list value) :
  (forall i item st, opens Q (step i item st)) ->
  forall i st, opens Q (batch_loop step i items st).
Proof.
  intros Hstep. induction items as [|item rest IH]; intros i st.
  - apply opens_ret.
  - cbn [batch_loop]. apply opens_bind; auto.
Qed.

(** The names in a URL are those of the credential and of the parameter
    object. *)
Lemma buildUrl_names_among (token : option jsstring) (op : operation)
  (params : list (jsstring * value)) (url : jsstring) (names : list string) :
  buildUrl (with_token token) (command_of op) params = Return url ->
  subsequence (map fst params) (map lit names) ->
  Forall plain_key (map lit ("auth-token"%string :: names)) ->
  names_among ("auth-token"%string :: names) url.
Proof.
  intros Eb Hk Hplain. unfold names_among.
  pose proof (buildUrl_searchParams (with_token token) _ _ params url
                (plain_operation op) Eb) as Hs.
  rewrite queryPairs_sent in Hs.
  assert (Hsent : subsequence
                    (map fst (sent (with_token token) (command_of op) params))
                    (map lit ("auth-token"%string :: names))).
  { unfold sent. rewrite map_app.
    change (map lit ("auth-token"%string :: names))
      with ([lit "auth-token"] ++ map lit names).
    apply subsequence_app; [apply credential_keys|].
    exact (subsequence_trans _ _ _ (printed_keys params) Hk). }
  rewrite (encode_pairs_plain_keys _ _
             (subsequence_Forall _ _ _ Hsent Hplain) Hs).
  exact Hsent.
Qed.

Lemma lookup_absent (key : jsstring) (props : list (jsstring * value)) :
  Forall (fun k => str_eqb k key = false) (map fst props) ->
  lookup key props = Undefined.
Proof.
  induction props as [|[k v] rest IH]; intros H; [reflexivity|].
  inversion H as [|? ? Hk Hr]; subst. cbn [lookup].
  cbn [fst] in Hk. rewrite Hk. now apply IH.
Qed.

Lemma copy_truthy_without (data : value) (name : string)
  (names : list string) :
  field data name = Undefined ->
  subsequence (map fst (copy_truthy data names))
              (map lit (filter (fun n => negb (String.eqb n name)) names)).
Proof.
  intros Hn. unfold copy_truthy.
  induction names as [|n names IH]; [apply sub_nil|].
  cbn [flat_map filter]. destruct (String.eqb n name) eqn:En; cbn [negb].
  - apply String.eqb_eq in En. subst n. rewrite Hn. exact IH.
  - destruct (truthy (field data n)); cbn [app map fst];
      [now apply sub_take | now apply sub_skip].
Qed.

Lemma copy_defined_without (data : value) (name : string)
  (names : list string) :
  field data name = Undefined ->
  subsequence (map fst (copy_defined data names))
              (map lit (filter (fun n => negb (String.eqb n name)) names)).
Proof.
  intros Hn. unfold copy_defined.
  induction names as [|n names IH]; [apply sub_nil|].
  cbn [flat_map filter]. destruct (String.eqb n name) eqn:En; cbn [negb].
  - apply String.eqb_eq in En. subst n. rewrite Hn. exact IH.
  - destruct (defined (field data n)); cbn [app map fst];
      [now apply sub_take | now apply sub_skip].
Qed.

Lemma copy_trimmed_key (o : value) (expr name : string)
  (p : list (jsstring * value)) :
  copy_trimmed o expr name = Return p ->
  Forall (fun k => k = lit name) (map fst p).
Proof.
  unfold copy_trimmed. destruct (truthy (field o name)).
  - destruct (call_trim _ _) as [s| |]; try discriminate. cbn [and_then].
    destruct s; intros E; injection E as <-; repeat constructor.
  - intros E. injection E as <-. constructor.
Qed.

(** No object a batch builds for the client has a [checklist]. *)
Lemma batch_todoData_no_checklist (i : nat) (todo todoData : value) :
  batch_todoData i todo = Return todoData ->
  field todoData "checklist" = Undefined.
Proof.
  unfold batch_todoData.
  destruct (required_title _ _ _) as [title| |]; try discriminate.
  cbn [and_then].
  destruct (copy_trimmed todo "todo" "notes") as [notes| |] eqn:En;
    try discriminate. cbn [and_then].
  destruct (copy_trimmed todo "todo" "tags") as [tags| |] eqn:Et;
    try discriminate. cbn [and_then].
  destruct (copy_trimmed todo "todo" "list") as [lists| |] eqn:El;
    try discriminate. cbn [and_then].
  intros E. injection E as <-. cbn [field]. apply lookup_absent.
  cbn [map fst]. constructor; [reflexivity|].
  rewrite !map_app, !Forall_app.
  assert (K : forall name (p : list (jsstring * value)),
             String.eqb name "checklist" = false ->
             Forall (fun k => k = lit name) (map fst p) ->
             Forall (fun k => str_eqb k (lit "checklist") = false)
                    (map fst p)).
  { intros name p Hn H. eapply Forall_impl; [|exact H].
    intros k ->. now rewrite lit_eqb. }
  repeat split;
    first [ exact (K "notes"%string _ eq_refl (copy_trimmed_key _ _ _ _ En))
          | exact (K "tags"%string _ eq_refl (copy_trimmed_key _ _ _ _ Et))
          | exact (K "list"%string _ eq_refl (copy_trimmed_key _ _ _ _ El))
          | destruct (truthy (field todo "when")); now repeat constructor
          | destruct (truthy (field todo "deadline")); now repeat constructor
          | constructor ].
Qed.

Lemma batch_updateData_no_checklist (s : jsstring) (updates : value) :
  field (batch_updateData s updates) "checklist" = Undefined.
Proof.
  unfold batch_updateData. cbn [field]. apply lookup_absent.
  cbn [map fst]. constructor; [reflexivity|].
  apply (subsequence_Forall _ _ _
           (copy_defined_keys updates
              ["title"; "notes"; "when"; "deadline"; "tags"; "list"]%string)).
  repeat constructor.
Qed.

Lemma batch_names_plain :
  Forall plain_key (map lit batch_add_names)
  /\ Forall plain_key (map lit batch_update_names).
Proof. split; repeat constructor. Qed.

Lemma opens_addTodo_of_batch (P : Process) (token : option jsstring)
  (i : nat) (todo todoData : value) :
  batch_todoData i todo = Return todoData ->
  opens (names_among batch_add_names) (addTodo P (with_token token) todoData).
Proof.
  intros Ed. apply (opens_run _ P token AddTodo todoData).
  intros params url Ep Eb. cbn [params_of command_of] in Ep, Eb.
  apply (buildUrl_names_among token AddTodo params url
           ["title"; "notes"; "when"; "deadline"; "tags"; "list"]%string Eb);
    [|exact (proj1 batch_names_plain)].
  unfold addTodo_params in Ep. destruct (_ || _); [discriminate|].
  injection Ep as <-. cbn [map fst]. apply sub_take.
  exact (copy_truthy_without todoData "checklist"
           ["notes"; "when"; "deadline"; "tags"; "checklist"; "list"]%string
           (batch_todoData_no_checklist i todo todoData Ed)).
Qed.

Lemma opens_updateTodo_of_batch (P : Process) (token : option jsstring)
  (s : jsstring) (updates : value) :
  opens (names_among batch_update_names)
        (updateTodo P (with_token token) (batch_updateData s updates)).
Proof.
  apply (opens_run _ P token UpdateTodo (batch_updateData s updates)).
  intros params url Ep Eb. cbn [params_of command_of] in Ep, Eb.
  apply (buildUrl_names_among token UpdateTodo params url
           ["id"; "title"; "notes"; "when"; "deadline"; "tags";
            "list"]%string Eb);
    [|exact (proj2 batch_names_plain)].
  unfold updateTodo_params in Ep. destruct (_ || _); [discriminate|].
  injection Ep as <-. cbn [map fst]. apply sub_take.
  exact (copy_defined_without (batch_updateData s updates) "checklist"
           ["title"; "notes"; "when"; "deadline"; "tags"; "checklist";
            "list"]%string
           (batch_updateData_no_checklist s updates)).
Qed.

Lemma opens_batch_add_step (P : Process) (token : option jsstring) (i : nat)
  (todo : value) (st : tally) :
  opens (names_among batch_add_names)
        (batch_add_step P (with_token token) i todo st).
Proof.
  unfold batch_add_step. apply opens_try_catch.
  - unfold batch_add_attempt. apply opens_bind; [apply opens_lift|].
    intros todoData w w' E. unfold lift in E. injection E as E _.
    apply opens_bind; [exact (opens_addTodo_of_batch P token i todo _ E)|].
    intros. apply opens_ret.
  - intros e. unfold batch_add_recover.
    apply opens_bind; [apply opens_lift|]. intros. apply opens_ret.
Qed.

Lemma opens_batch_update_step (P : Process) (token : option jsstring)
  (updates : value) (i : nat) (id : value) (st : tally) :
  opens (names_among batch_update_names)
        (batch_update_step P (with_token token) updates i id st).
Proof.
  unfold batch_update_step. apply opens_try_catch.
  - unfold batch_update_attempt. apply opens_bind; [apply opens_lift|].
    intros s w w' _.
    apply opens_bind; [apply opens_updateTodo_of_batch|].
    intros. apply opens_ret.
  - intros e. unfold batch_id_recover. apply opens_ret.
Qed.

(** X21.  The batches never send a [checklist].  Whatever its arguments
    are, whatever [open] does and however it ends, [batch_add_todos] hands
    [open] only URLs whose parameters are named [auth-token], [title],
    [notes], [when], [deadline], [tags] or [list], and [batch_update_todos]
    only URLs whose parameters are named [auth-token], [id], [title],
    [notes], [when], [deadline], [tags] or [list], in this order.  A
    [checklist] of an item, or any other field of an item or of [updates],
    is not passed on. *)
Theorem batches_send_no_checklist :
  forall (P : Process) (token : option jsstring) (args : value),
    opens (names_among batch_add_names)
          (batch_add_todos P (with_token token) args)
    /\ opens (names_among batch_update_names)
             (batch_update_todos P (with_token token) args).
Proof.
  intros P token args. split.
  - unfold batch_add_todos. apply opens_try_catch; [|intros; apply opens_rethrow].
    destruct (negb (isThingsAvailable P)); [apply opens_throw|].
    apply opens_bind; [apply opens_lift|]. intros todos _ _ _.
    destruct todos as [| |b|n|s|[|first others]|props]; try apply opens_throw.
    destruct (no_token P); [apply opens_throw|].
    apply opens_bind; [|intros; apply opens_ret].
    intros w r w' E. rewrite batch_add_loop_shape in E. revert w r w' E.
    apply opens_batch_loop. intros. apply opens_batch_add_step.
  - unfold batch_update_todos.
    apply opens_try_catch; [|intros; apply opens_rethrow].
    destruct (negb (isThingsAvailable P)); [apply opens_throw|].
    apply opens_bind; [apply opens_lift|]. intros ids _ _ _.
    destruct ids as [| |b|n|s|[|first others]|props]; try apply opens_throw.
    apply opens_bind; [apply opens_lift|]. intros updates _ _ _.
    destruct (_ || _); [apply opens_throw|].
    destruct (updateKeys updates); [apply opens_throw|].
    apply opens_bind.
    { unfold require_token. destruct (no_token P);
        [apply opens_throw | apply opens_ret]. }
    intros _ _ _ _.
    apply opens_bind; [|intros; apply opens_ret].
    intros w r w' E. rewrite batch_update_loop_shape in E. revert w r w' E.
    apply opens_batch_loop. intros. apply opens_batch_update_step.
Qed.

(** X21 at work: an update of the notes and of the checklist of one to-do
    opens one URL, and the checklist is not in it. *)
Lemma batches_send_no_checklist_witness :
  let args := Obj [(lit "ids", Arr [Str (lit "a1")]);
                   (lit "updates", Obj [(lit "checklist", Str (lit "eggs"));
                                        (lit "notes", Str (lit "soon"))])] in
  let m := batch_update_todos (mac (Some (lit "tok")))
             (with_token (Some (lit "tok"))) args in
  (exists urls,
      opened (snd (m fresh)) = opened fresh ++ urls
      /\ Forall (names_among batch_update_names) urls)
  /\ map (fun url => map fst (searchParams url)) (opened (snd (m fresh)))
     = [[lit "auth-token"; lit "id"; lit "notes"]].
Proof.
  intros args m. split.
  - exact (proj2 (batches_send_no_checklist (mac (Some (lit "tok")))
                    (Some (lit "tok")) args)
             fresh _ _ (surjective_pairing (m fresh))).
  - reflexivity.
Defined.

Lemma caught_and_thrown_again {A} (body : M A) (handle : jsstring -> M A)
  (prefix : jsstring) (w w' : World) (message : jsstring) :
  (forall cause w1,
      handle cause w1
      = (Throw (prefix ++ cause),
         mkWorld (opened w1) (console w1 ++ [prefix ++ cause]))) ->
  try_catch body handle w = (Throw message, w') ->
  exists cause w1,
    message = prefix ++ cause
    /\ w' = mkWorld (opened w1) (console w1 ++ [message]).
Proof.
  intros Hh. unfold try_catch.
  destruct (body w) as [[a|cause|] w1]; try discriminate.
  rewrite Hh. intros E. injection E as <- <-. now exists cause, w1.
Qed.

(** X22.  A tool that fails says so in one way.  Whenever the handler of
    any of the seventeen tools throws, the message is the prefix of that
    tool, [Failed to add to-do: ] and the like, followed by the message of
    the error caught inside, and that same message is the last line
    written to the console. *)
Theorem tools_fail_with_their_prefix :
  forall (tl : tool) (P : Process) (client : t) (args : value)
         (w w' : World) (message : jsstring),
    handler tl P client args w = (Throw message, w') ->
    exists cause,
      message = failure_prefix tl ++ cause
      /\ last (console w') [] = message.
Proof.
  intros tl P client args w w' message E.
  assert (H : exists cause w1,
             message = failure_prefix tl ++ cause
             /\ w' = mkWorld (opened w1) (console w1 ++ [message])).
  { destruct tl as [view| | | |[]]; cbn [handler guarded_handler] in E;
      unfold show_handler, add_todo, add_project, Tools.search, update_todo,
        update_project, complete_todo, batch_add_todos, batch_complete_todos,
        batch_update_todos in E;
      (eapply (caught_and_thrown_again _ _ (failure_prefix _)); [|exact E]);
      intros cause w1; cbn [failure_prefix];
      unfold rethrow, bind, console_log, throw;
      now rewrite <- ?app_assoc. }
  destruct H as (cause & w1 & -> & ->).
  exists cause. split; [reflexivity|]. cbn [console]. apply last_last.
Qed.

(** X22 at work: the search tool, away from a Mac. *)
Lemma tools_fail_with_their_prefix_witness :
  let P := mkProcess (lit "linux") None (fun _ _ => None) in
  let message :=
    lit "Failed to search: Things app is not available. Make sure you're running on macOS and Things is installed." in
  exists cause,
    message = failure_prefix searching ++ cause
    /\ last (console (mkWorld [] [message])) [] = message.
Proof.
  intros P message.
  exact (tools_fail_with_their_prefix searching P (with_token None)
           (Obj [(lit "query", Str (lit "milk"))]) fresh
           (mkWorld [] [message]) message eq_refl).
Defined.
